(** * Backbeat ingestion pipeline: a shallow embedding

    The development follows three source files of the repository:
    - [lib/queuePopulator/IngestionReader.js]   (module [Reader]),
    - [lib/queuePopulator/IngestionProducer.js] (module [Producer]),
    - [lib/KafkaBacklogMetrics.js]              (module [Backlog]).

    Callbacks are modelled by their outcome: a function that ends in
    [done(null, v)] returns [Done v], one that ends in [done(err)] returns
    [Failed err], and one that never reaches its callback returns
    [Thrown]: its body raises a JavaScript exception, or it waits for an
    event that never comes.  State that the code mutates (the reader
    object, its producer, the batch state, the Coordinator nodes) is
    threaded explicitly and survives a failure, as it does in the source.
    Asynchronous operations complete in the order in which they are
    issued, and so do the iterations of an asynchronous loop; numbers are
    integers; loggers and metrics are left out.

    The definitions come first; the properties follow, one module of facts
    per source file ([ProducerFacts], [ReaderFacts], [BacklogFacts]). *)

From Stdlib Require Import ZArith List Bool Lia.
From stdpp Require Import base option list gmap strings sorting.

Local Open Scope Z_scope.

(* ===================================================================== *)
(** ** JavaScript values used by the three files *)
(* ===================================================================== *)

Module Js.

(** [!!s] for a value that is either [undefined] ([None]) or a string. *)
Definition truthy (s : option string) : bool :=
  match s with
  | Some (String _ _) => true
  | _ => false
  end.

(** [a === b] on two values that are [undefined] or strings. *)
Definition strictEq (a b : option string) : bool :=
  bool_decide (a = b).

(** [s.split(sep)] for a non-empty separator.  [skip] counts the
    characters of a separator just matched that are still to be consumed;
    callers start with [skip = 0]. *)
Fixpoint split_from (sep : string) (skip : nat) (s : string) : list string :=
  match s with
  | EmptyString => [EmptyString]
  | String a s' =>
      match skip with
      | S n => split_from sep n s'
      | O =>
          if String.prefix sep s
          then EmptyString :: split_from sep (String.length sep - 1) s'
          else match split_from sep 0 s' with
               | p :: ps => String a p :: ps
               | [] => [String a EmptyString]
               end
      end
  end.

Definition split (sep s : string) : list string := split_from sep 0 s.

(** [arr[0]] of a [split] result (never [undefined]: the array is
    non-empty). *)
Definition head (l : list string) : string := List.hd EmptyString l.

(** [arr.join(sep)]. *)
Fixpoint join (sep : string) (l : list string) : string :=
  match l with
  | [] => EmptyString
  | [p] => p
  | p :: ps => p +:+ sep +:+ join sep ps
  end.

(** [null + k] is [k]; [s + k] is the sum. *)
Definition addNullable (start : option Z) (k : Z) : Z :=
  match start with
  | Some s => s + k
  | None => k
  end.

End Js.

(* ===================================================================== *)
(** ** Outcomes of callback-style functions *)
(* ===================================================================== *)

Inductive Error : Type :=
| TypeError            (* a JavaScript TypeError raised by the runtime *)
| InternalError        (* arsenal's errors.InternalError *)
| NO_NODE              (* Coordinator: the node does not exist *)
| CoordinatorError     (* any other Coordinator failure *)
| TransportError (statusCode : option Z)
| StreamError
| SendError            (* the bus producer refused the batch *)
| CheckConditionError  (* KafkaBacklogMetrics: private, a check failed *)
| NoNodeError          (* KafkaBacklogMetrics: private, offset node absent *)
| Stalled.             (* no exception: the awaited event never comes *)

Inductive Outcome (A : Type) : Type :=
| Done (a : A)         (* callback(null, a) *)
| Failed (e : Error)   (* callback(e) *)
| Thrown (e : Error).  (* the callback is never invoked: an exception
                          [e] was raised, or ([Stalled]) nothing more
                          happens *)

Arguments Done {A} a.
Arguments Failed {A} e.
Arguments Thrown {A} e.

#[global] Instance Error_eq_dec : EqDecision Error.
Proof. solve_decision. Defined.

(** Callback-style code over a mutable state [S]. *)
Definition M (S A : Type) : Type := S -> Outcome A * S.

Definition ret {S A} (a : A) : M S A := fun s => (Done a, s).
Definition fail {S A} (e : Error) : M S A := fun s => (Failed e, s).
Definition throw {S A} (e : Error) : M S A := fun s => (Thrown e, s).

Definition bind {S A B} (m : M S A) (k : A -> M S B) : M S B :=
  fun s =>
    match m s with
    | (Done a, s') => k a s'
    | (Failed e, s') => (Failed e, s')
    | (Thrown e, s') => (Thrown e, s')
    end.

Definition get {S} : M S S := fun s => (Done s, s).
Definition modify {S} (f : S -> S) : M S unit := fun s => (Done tt, f s).

Declare Scope js_scope.
Delimit Scope js_scope with js.
Notation "x <- m ;; k" := (bind m (fun x => k))
  (at level 100, m at next level, right associativity) : js_scope.
Notation "m ;;; k" := (bind m (fun _ => k))
  (at level 100, right associativity) : js_scope.

(** [async.each] / [async.map] over operations that complete in the order
    they are issued: every iteration is started, the first error is the one
    reported, later results are dropped.  An exception stops the loop. *)
Fixpoint asyncMap {S A B} (f : A -> M S B) (l : list A) : M S (list B) :=
  fun s =>
    match l with
    | [] => (Done [], s)
    | x :: xs =>
        match f x s with
        | (Done b, s1) =>
            match asyncMap f xs s1 with
            | (Done bs, s2) => (Done (b :: bs), s2)
            | (Failed e, s2) => (Failed e, s2)
            | (Thrown e, s2) => (Thrown e, s2)
            end
        | (Failed e, s1) =>
            match asyncMap f xs s1 with
            | (Thrown e', s2) => (Thrown e', s2)
            | (_, s2) => (Failed e, s2)
            end
        | (Thrown e, s1) => (Thrown e, s1)
        end
    end.

Definition asyncEach {S A} (f : A -> M S unit) (l : list A) : M S unit :=
  bind (asyncMap f l) (fun _ => ret tt).

(** [async.eachLimit]: at most [limit] iterations are in flight.  The
    first [limit] are started at once; one more is started each time an
    iteration completes, unless an iteration has failed by then.  The
    iterations complete in the order in which they were started, the first
    error is the one reported, and an exception stops the loop.
    [inFlight] counts the iterations started and not yet completed;
    [failed] holds the first error, if any. *)
Fixpoint eachLimitFrom {St A} (f : A -> M St unit) (inFlight : nat)
    (failed : option Error) (l : list A) : M St unit :=
  fun s =>
    match l, inFlight with
    | x :: xs, S n =>
        match f x s with
        | (Done _, s1) =>
            eachLimitFrom f (match failed with Some _ => n | None => S n end)
                          failed xs s1
        | (Failed e, s1) =>
            eachLimitFrom f n (Some (default e failed)) xs s1
        | (Thrown e, s1) => (Thrown e, s1)
        end
    | _, _ =>
        (match failed with Some e => Failed e | None => Done tt end, s)
    end.

Definition asyncEachLimit {St A} (limit : nat) (f : A -> M St unit)
    (l : list A) : M St unit :=
  eachLimitFrom f limit None l.

(** [async.eachSeries] / [async.waterfall]: the next step starts only when
    the previous one succeeded. *)
Fixpoint eachSeries {S A} (f : A -> M S unit) (l : list A) : M S unit :=
  match l with
  | [] => ret tt
  | x :: xs => bind (f x) (fun _ => eachSeries f xs)
  end.

(* ===================================================================== *)
(** ** Data shared by the producer and the reader *)
(* ===================================================================== *)

(** An entry of a log record, [{type?, bucket?, key?, value?}]; [None] is
    [undefined].  In the snapshot phase the reader passes an entry where a
    record is expected and reads [db] off it, hence the [e_db] field. *)
Record LogEntry : Type := {
  e_db : option string;
  e_type : option string;
  e_bucket : option string;
  e_key : option string;
  e_value : option string
}.

(** A record of the tail log, [{db?, entries}]. *)
Record LogRecord : Type := {
  db : option string;
  entries : list LogEntry
}.

(** The object handed to [ext.filter]. *)
Record Event : Type := {
  ev_type : option string;
  ev_bucket : option string;
  ev_key : option string;
  ev_value : option string
}.

(** The [info] header of a log response; [None] is [null] (or absent). *)
Record Info : Type := {
  info_start : option Z;
  info_end : option Z;
  info_cseq : option Z;
  info_prune : option Z
}.

(** A finite record stream, by the events it has to emit: ['data'] once
    per record, then ['end'] or ['error']. *)
Inductive StreamEnd : Type :=
| Ends
| Breaks (e : Error).

Record Stream : Type := {
  records : list LogRecord;
  ending : StreamEnd
}.

(** The [log] field of a log response. *)
Inductive JsLog : Type :=
| LogUndefined                       (* the property is absent *)
| LogNull
| LogArray (l : list LogEntry)       (* snapshot: an in-memory list *)
| LogStream (s : Stream)             (* a stream with no other listener *)
| LogPiped (s : Stream).             (* tail: the parser's stream, which
                                        getRaftLog has piped into its
                                        ListRecordStream *)

Record LogRes : Type := {
  info : Info;
  log : JsLog
}.

#[global] Instance LogEntry_eq_dec : EqDecision LogEntry.
Proof. solve_decision. Defined.
#[global] Instance LogRecord_eq_dec : EqDecision LogRecord.
Proof. solve_decision. Defined.
#[global] Instance Event_eq_dec : EqDecision Event.
Proof. solve_decision. Defined.

(** arsenal's [constants.usersBucket] and [constants.metastoreBucket]; the
    reader spells both out as literals. *)
Definition usersBucket : string := "users..bucket".
Definition metastoreBucket : string := "metastore".

(* ===================================================================== *)
(** ** IngestionProducer (with RaftLogEntry.createPutEntry) *)
(* ===================================================================== *)

Module Producer.

(** [{res, objectKey, bucketName}] as built in
    [_getBucketObjectsMetadata]; [res] is [JSON.stringify] of the
    metadata the source returned, [None] when it returned none. *)
Record ObjectMd : Type := {
  res : option string;
  objectKey : string;
  bucketName : string
}.

(** RaftLogEntry.createPutEntry *)
Definition createPutEntry (objectMd : ObjectMd) (bucketPrefix : string)
  : LogEntry :=
  {| e_db := None;
     e_type := Some "put";
     e_bucket := Some (bucketPrefix +:+ "-" +:+ bucketName objectMd);
     e_key := Some (objectKey objectMd);
     e_value := res objectMd |}.

(** The producer object: the fields the modelled methods read or write. *)
Record State : Type := {
  _targetZenkoBucket : string;
  resLog : list LogEntry
}.

(** [new IngestionProducer(sourceConfig, ...)]: [resLog] starts empty. *)
Definition new (name : string) : State :=
  {| _targetZenkoBucket := name; resLog := [] |}.

(** What the log-read request does first: its read stream raises an
    error (with the HTTP status code, when there is one), or the parser
    reaches the header; [body] is what the parser has to emit after the
    header.  The callback of [getRaftLog] fires on that first event; the
    error listeners of the record stream are removed once the header has
    arrived. *)
Inductive Response : Type :=
| ErrorFirst (statusCode : option Z)
| HeaderFirst (header : Info) (body : Stream).

(** *** ListRecordStream *)

(** _transform: [entry.type = entry.type || 'put'], assigned to the
    entries of the record itself, which is then pushed. *)
Definition _transform (itemObj : LogRecord) : LogRecord :=
  {| db := db itemObj;
     entries :=
       (fun entry =>
          {| e_db := e_db entry;
             e_type := if Js.truthy (e_type entry) then e_type entry
                       else Some "put";
             e_bucket := e_bucket entry;
             e_key := e_key entry;
             e_value := e_value entry |}) <$> entries itemObj |}.

(** The constructor passes [{ objectMode: true }] and nothing else, so
    the record stream has Node's default high-water mark for object
    streams, 16 objects, on its writable and on its readable side. *)
Definition highWaterMark : nat := 16.

(** [jsonResponse.pipe(recordStream)], seen from a listener added to
    [jsonResponse] after the pipe.  Every record is written to the
    record stream before that listener receives it.  Nothing reads from
    the record stream: it transforms the records it is written until its
    readable side is full, [highWaterMark] of them; the following ones
    wait, untransformed, on its writable side; and when that side is
    full too the write returns false and the pipe pauses
    [jsonResponse], which nothing resumes.  The listener receives the
    records written up to there, the first [highWaterMark] of them with
    their types set, and nothing after the pause: neither a record nor
    ['end'].  A record written while the readable side is full is
    held back before it is transformed, as the Transform of the Node
    releases of the repository's time does it. *)
Definition pipedRecords (recs : list LogRecord) : list LogRecord :=
  (_transform <$> take highWaterMark recs)
  ++ take highWaterMark (drop highWaterMark recs).

Definition pausesSource (recs : list LogRecord) : bool :=
  bool_decide (2 * highWaterMark <= length recs)%nat.

Section Source.

(** The source cluster: [ringReader.getObjectList] gives the keys of
    [data.Contents] or an error; [ringReader.getObjectMetadata] gives
    the error, if any, and the stringified data. *)
Variable getObjectList : string -> Outcome (list string).
Variable getObjectMetadata : string -> string -> option Error * option string.

(** _getBucketObjects: one [{bucket, objects}] per listed bucket,
    nothing for the two special containers. *)
Definition _getBucketObjects (bucketList : list string)
  : M State (list (option (string * list string))) :=
  asyncMap (fun bucketInfo =>
    if bool_decide (bucketInfo = usersBucket)
       || bool_decide (bucketInfo = metastoreBucket)
    then ret None
    else fun s =>
      match getObjectList bucketInfo with
      | Done contents => (Done (Some (bucketInfo, contents)), s)
      | Failed e => (Failed e, s)
      | Thrown e => (Thrown e, s)
      end) bucketList.

(** _createAndPushEntry: appends one put entry per object to
    [this.resLog]. *)
Definition _createAndPushEntry (objectMds : list ObjectMd) : M State unit :=
  if (0 <? Z.of_nat (length objectMds))
  then eachSeries (fun objectMd =>
         modify (fun s =>
           {| _targetZenkoBucket := _targetZenkoBucket s;
              resLog := resLog s
                        ++ [createPutEntry objectMd (_targetZenkoBucket s)] |}))
         objectMds
  else ret tt.

(** _getBucketObjectsMetadata: a metadata error is logged and the
    object is kept, with whatever data came back. *)
Definition _getBucketObjectsMetadata
    (bucketObjectList : list (option (string * list string)))
  : M State unit :=
  eachSeries (fun bucket =>
    match bucket with
    | None => ret tt
    | Some (name, objects) =>
        (objectMDs <- asyncMap (fun key =>
             ret {| res := snd (getObjectMetadata name key);
                    objectKey := key;
                    bucketName := name |}) objects ;;
         _createAndPushEntry objectMDs)%js
    end) bucketObjectList.

(** snapshot(bucketName, done): [done(err, this.resLog)]. *)
Definition snapshot (bucketName : string) : M State (list LogEntry) :=
  (bucketList <- _getBucketObjects [bucketName] ;;
   _getBucketObjectsMetadata bucketList ;;;
   s <- get ;;
   ret (resLog s))%js.

End Source.

(** getRaftLog: the callback fires on the first of the two events.  An
    error with status 404 or 416 resolves to an [info] with null bounds
    and no [log] property; any other error is reported as
    [errors.InternalError]; a header resolves to its [info] and to
    [jsonResponse], the parser's stream, which is piped into the record
    stream on the last line of the function. *)
Definition getRaftLog (response : Response) : Outcome LogRes :=
  match response with
  | ErrorFirst statusCode =>
      if bool_decide (statusCode = Some 404)
      then Done {| info := {| info_start := None; info_end := None;
                              info_cseq := None; info_prune := None |};
                   log := LogUndefined |}
      else if bool_decide (statusCode = Some 416)
      then Done {| info := {| info_start := None; info_end := None;
                              info_cseq := None; info_prune := None |};
                   log := LogUndefined |}
      else Failed InternalError
  | HeaderFirst header body =>
      Done {| info := header; log := LogPiped body |}
  end.

End Producer.

(* ===================================================================== *)
(** ** IngestionReader *)
(* ===================================================================== *)

Module Reader.

(** The init (snapshot) state.  [cseq] is the extra field the publish
    phase looks for. *)
Record InitState : Type := {
  isStatusComplete : bool;
  versionMarker : option string;
  keyMarker : option string;
  cseq : option Z
}.

(** A bus message as an extension stages it. *)
Record Message : Type := {
  m_key : string;
  m_message : string
}.

#[global] Instance Message_eq_dec : EqDecision Message.
Proof. solve_decision. Defined.

(** [batchState], created by [processLogEntries]. *)
Record BatchState : Type := {
  logRes : option LogRes;                          (* null until read *)
  nbLogRecordsRead : Z;
  nbLogEntriesRead : Z;
  publishedEntries : Z;
  entriesToPublish : gmap string (list Message);
  initState : option InitState;                    (* undefined in tail *)
  nextLogOffset : option Z                         (* undefined until staged *)
}.

(** The reader object together with what it talks to: the Coordinator
    nodes it owns, its producer and the observable effects of a batch. *)
Record State : Type := {
  logOffset : Z;                                   (* this.logOffset *)
  _batchInProgress : bool;
  batchState : BatchState;
  zkNodes : gmap string (option string);           (* init nodes: path -> data *)
  zkLogOffset : Z;                                 (* the integer node *)
  logOffsetWrites : list Z;                        (* values written to it *)
  filterCalls : list Event;                        (* ext.filter arguments *)
  sentBatches : list (list Message);               (* producer.send arguments *)
  _iProducer : Producer.State                      (* this._iProducer *)
}.

Definition newBatchState : BatchState :=
  {| logRes := None; nbLogRecordsRead := 0; nbLogEntriesRead := 0;
     publishedEntries := 0; entriesToPublish := ∅; initState := None;
     nextLogOffset := None |}.

(** Field updates. *)
Definition withBatch (f : BatchState -> BatchState) (st : State) : State :=
  {| logOffset := logOffset st; _batchInProgress := _batchInProgress st;
     batchState := f (batchState st); zkNodes := zkNodes st;
     zkLogOffset := zkLogOffset st; logOffsetWrites := logOffsetWrites st;
     filterCalls := filterCalls st; sentBatches := sentBatches st;
     _iProducer := _iProducer st |}.

Definition setLogRes (v : option LogRes) (b : BatchState) : BatchState :=
  {| logRes := v; nbLogRecordsRead := nbLogRecordsRead b;
     nbLogEntriesRead := nbLogEntriesRead b;
     publishedEntries := publishedEntries b;
     entriesToPublish := entriesToPublish b; initState := initState b;
     nextLogOffset := nextLogOffset b |}.

Definition setInitState (v : option InitState) (b : BatchState) : BatchState :=
  {| logRes := logRes b; nbLogRecordsRead := nbLogRecordsRead b;
     nbLogEntriesRead := nbLogEntriesRead b;
     publishedEntries := publishedEntries b;
     entriesToPublish := entriesToPublish b; initState := v;
     nextLogOffset := nextLogOffset b |}.

Definition setNextLogOffset (v : option Z) (b : BatchState) : BatchState :=
  {| logRes := logRes b; nbLogRecordsRead := nbLogRecordsRead b;
     nbLogEntriesRead := nbLogEntriesRead b;
     publishedEntries := publishedEntries b;
     entriesToPublish := entriesToPublish b; initState := initState b;
     nextLogOffset := v |}.

Definition setPublishedEntries (v : Z) (b : BatchState) : BatchState :=
  {| logRes := logRes b; nbLogRecordsRead := nbLogRecordsRead b;
     nbLogEntriesRead := nbLogEntriesRead b;
     publishedEntries := v;
     entriesToPublish := entriesToPublish b; initState := initState b;
     nextLogOffset := nextLogOffset b |}.

Definition setEntriesToPublish (v : gmap string (list Message))
    (b : BatchState) : BatchState :=
  {| logRes := logRes b; nbLogRecordsRead := nbLogRecordsRead b;
     nbLogEntriesRead := nbLogEntriesRead b;
     publishedEntries := publishedEntries b;
     entriesToPublish := v; initState := initState b;
     nextLogOffset := nextLogOffset b |}.

(** [logStats.nbLogRecordsRead += 1] and [logStats.nbLogEntriesRead += 1] *)
Definition incrRecordsRead (b : BatchState) : BatchState :=
  {| logRes := logRes b; nbLogRecordsRead := nbLogRecordsRead b + 1;
     nbLogEntriesRead := nbLogEntriesRead b;
     publishedEntries := publishedEntries b;
     entriesToPublish := entriesToPublish b; initState := initState b;
     nextLogOffset := nextLogOffset b |}.

Definition incrEntriesRead (b : BatchState) : BatchState :=
  {| logRes := logRes b; nbLogRecordsRead := nbLogRecordsRead b;
     nbLogEntriesRead := nbLogEntriesRead b + 1;
     publishedEntries := publishedEntries b;
     entriesToPublish := entriesToPublish b; initState := initState b;
     nextLogOffset := nextLogOffset b |}.

Definition setLogOffset (v : Z) (st : State) : State :=
  {| logOffset := v; _batchInProgress := _batchInProgress st;
     batchState := batchState st; zkNodes := zkNodes st;
     zkLogOffset := zkLogOffset st; logOffsetWrites := logOffsetWrites st;
     filterCalls := filterCalls st; sentBatches := sentBatches st;
     _iProducer := _iProducer st |}.

Definition setBatchInProgress (v : bool) (st : State) : State :=
  {| logOffset := logOffset st; _batchInProgress := v;
     batchState := batchState st; zkNodes := zkNodes st;
     zkLogOffset := zkLogOffset st; logOffsetWrites := logOffsetWrites st;
     filterCalls := filterCalls st; sentBatches := sentBatches st;
     _iProducer := _iProducer st |}.

Definition setZkNodes (v : gmap string (option string)) (st : State) : State :=
  {| logOffset := logOffset st; _batchInProgress := _batchInProgress st;
     batchState := batchState st; zkNodes := v;
     zkLogOffset := zkLogOffset st; logOffsetWrites := logOffsetWrites st;
     filterCalls := filterCalls st; sentBatches := sentBatches st;
     _iProducer := _iProducer st |}.

Definition storeLogOffset (v : Z) (st : State) : State :=
  {| logOffset := logOffset st; _batchInProgress := _batchInProgress st;
     batchState := batchState st; zkNodes := zkNodes st;
     zkLogOffset := v; logOffsetWrites := logOffsetWrites st ++ [v];
     filterCalls := filterCalls st; sentBatches := sentBatches st;
     _iProducer := _iProducer st |}.

Definition recordFilterCall (ev : Event) (st : State) : State :=
  {| logOffset := logOffset st; _batchInProgress := _batchInProgress st;
     batchState := batchState st; zkNodes := zkNodes st;
     zkLogOffset := zkLogOffset st; logOffsetWrites := logOffsetWrites st;
     filterCalls := filterCalls st ++ [ev]; sentBatches := sentBatches st;
     _iProducer := _iProducer st |}.

Definition recordSend (entries : list Message) (st : State) : State :=
  {| logOffset := logOffset st; _batchInProgress := _batchInProgress st;
     batchState := batchState st; zkNodes := zkNodes st;
     zkLogOffset := zkLogOffset st; logOffsetWrites := logOffsetWrites st;
     filterCalls := filterCalls st;
     sentBatches := sentBatches st ++ [entries];
     _iProducer := _iProducer st |}.

Definition setProducer (v : Producer.State) (st : State) : State :=
  {| logOffset := logOffset st; _batchInProgress := _batchInProgress st;
     batchState := batchState st; zkNodes := zkNodes st;
     zkLogOffset := zkLogOffset st; logOffsetWrites := logOffsetWrites st;
     filterCalls := filterCalls st; sentBatches := sentBatches st;
     _iProducer := v |}.

(** An extension's [filter]: the messages it stages for an event, each
    with the key of the batch handle it is pushed under. *)
Definition Extension : Type := Event -> list (string * Message).

(** [handle[k].push(m)], creating the list on first use. *)
Definition pushEntry (h : gmap string (list Message)) (km : string * Message)
  : gmap string (list Message) :=
  <[fst km := default [] (h !! fst km) ++ [snd km]]> h.

(** The calls a reader makes to the Coordinator. *)
Inductive CoordinatorCall : Type :=
| GetData (path : string)
| Mkdirp (path : string)
| SetData (path : string)
| WriteLogOffset.

(** What a batch cycle meets outside the reader: whether the Coordinator
    answers each call (a batch makes each of them once at most), the
    source cluster as the producer queries it, and the bus producer. *)
Record Env : Type := {
  coordinatorUp : CoordinatorCall -> bool;
  getObjectList : string -> Outcome (list string);
  getObjectMetadata : string -> string -> option Error * option string;
  raftLogResponse : Z -> Z -> option Z -> Producer.Response;
  sendResult : list Message -> option Error
}.

Section Instance.

(** The fields fixed by the constructor and by [setup]. *)
Variable bucket : string.                 (* this.bucket: source bucket *)
Variable _targetZenkoBucket : string.     (* bucketdConfig.name *)
Variable bucketInitPath : string.
Variable raftId : Z.
Variable _extensions : list Extension.
(** arsenal's [VersioningConstants.VersionId.Separator]. *)
Variable VID_SEP : string.

(** *** The Coordinator client, as far as the reader uses it *)

Definition getData (env : Env) (path : string) : M State (option string) :=
  fun st =>
    if coordinatorUp env (GetData path)
    then match zkNodes st !! path with
         | Some data => (Done data, st)
         | None => (Failed NO_NODE, st)
         end
    else (Failed CoordinatorError, st).

Definition mkdirp (env : Env) (path : string) : M State unit :=
  fun st =>
    if coordinatorUp env (Mkdirp path)
    then match zkNodes st !! path with
         | Some _ => (Done tt, st)
         | None => (Done tt, setZkNodes (<[path := None]> (zkNodes st)) st)
         end
    else (Failed CoordinatorError, st).

Definition setData (env : Env) (path data : string) : M State unit :=
  fun st =>
    if coordinatorUp env (SetData path)
    then match zkNodes st !! path with
         | Some _ =>
             (Done tt, setZkNodes (<[path := Some data]> (zkNodes st)) st)
         | None => (Failed NO_NODE, st)
         end
    else (Failed CoordinatorError, st).

(** *** Init state *)

Definition getInitIngestionNodes : list string :=
  ["isStatusComplete"; "versionMarker"; "keyMarker"].

Definition initPath (pathNode : string) : string :=
  bucketInitPath +:+ "/" +:+ pathNode.

(** The iteratee of [async.map] in [_readInitState]: the node's data,
    or [undefined] after creating a node that did not exist. *)
Definition readInitNode (env : Env) (pathNode : string)
  : M State (option string) :=
  let path := initPath pathNode in
  fun st =>
    match getData env path st with
    | (Failed e, st') =>
        if bool_decide (e ≠ NO_NODE)
        then (Failed e, st')
        else (mkdirp env path ;;; ret None)%js st'
    | (Done data, st') => (Done data, st')
    | (Thrown e, st') => (Thrown e, st')
    end.

Definition _readInitState (env : Env) : M State InitState :=
  (data <- asyncMap (readInitNode env) getInitIngestionNodes ;;
   match data with
   | [isStatusComplete_; versionMarker_; keyMarker_] =>
       ret {| isStatusComplete :=
                Js.strictEq isStatusComplete_ (Some "true");
              versionMarker := versionMarker_;
              keyMarker := keyMarker_;
              cseq := None |}
   | _ => throw TypeError
   end)%js.

(** [(initState[pathNode] || 'null').toString()] *)
Definition initNodeData (initState_ : InitState) (pathNode : string)
  : string :=
  if bool_decide (pathNode = "isStatusComplete")
  then if isStatusComplete initState_ then "true" else "null"
  else if bool_decide (pathNode = "versionMarker")
  then if Js.truthy (versionMarker initState_)
       then default "null" (versionMarker initState_) else "null"
  else if bool_decide (pathNode = "keyMarker")
  then if Js.truthy (keyMarker initState_)
       then default "null" (keyMarker initState_) else "null"
  else "null".

Definition _writeInitState (env : Env) (initState_ : option InitState)
  : M State unit :=
  match initState_ with
  | None => ret tt
  | Some ist =>
      asyncEach (fun pathNode =>
        setData env (initPath pathNode) (initNodeData ist pathNode))
        getInitIngestionNodes
  end.

(** *** Reading records *)

(** [this._iProducer.snapshot(this.bucket, initState, (err, res) =>
    ...)].  IngestionProducer.snapshot takes [(bucketName, done)]: its
    [done] is the init state, and the function passed third is never
    looked at.  The producer lists the bucket and fills its [resLog];
    its last step, [done(err, this.resLog)], calls an object and
    raises a TypeError, after a failed listing as after a successful
    one. *)
Definition callSnapshot (env : Env) : M State unit :=
  fun st =>
    match Producer.snapshot (getObjectList env) (getObjectMetadata env)
            bucket (_iProducer st) with
    | (Thrown e, producer) => (Thrown e, setProducer producer st)
    | (_, producer) => (Thrown TypeError, setProducer producer st)
    end.

Definition _processReadRecords (maxRead : option Z) (env : Env)
  : M State unit :=
  (initState_ <- _readInitState env ;;
   if isStatusComplete initState_
   then
     st <- get ;;
     match Producer.getRaftLog
             (raftLogResponse env raftId (logOffset st) maxRead) with
     | Done data => modify (withBatch (setLogRes (Some data)))
     | Failed e => fail e
     | Thrown e => throw e
     end
   else callSnapshot env)%js.

(** *** Preparing entries *)

(** [this._extensions.forEach(ext => ext.filter(ev))] *)
Definition callFilters (ev : Event) : M State unit :=
  eachSeries (fun ext : Extension =>
    modify (fun st =>
      recordFilterCall ev
        (withBatch (fun b =>
           setEntriesToPublish
             (foldl pushEntry (entriesToPublish b) (ext ev)) b) st)))
    _extensions.

(** [entry.key.split(sep)]: a TypeError when the key is undefined. *)
Definition splitKey (key : option string) (sep : string)
  : M State (list string) :=
  match key with
  | Some k => ret (Js.split sep k)
  | None => throw TypeError
  end.

(** _processLogEntry(batchState, record, entry); of [record] only
    [record.db] is read. *)
Definition _processLogEntry (record_db : option string) (entry : LogEntry)
  : M State unit :=
  if bool_decide (e_key entry = None) && bool_decide (e_type entry = None)
  then ret tt
  else if negb (Js.truthy record_db)
  then callFilters {| ev_type := e_type entry;
                      ev_bucket := e_bucket entry;
                      ev_key := e_key entry;
                      ev_value := e_value entry |}
  else
    (kd <- (if Js.strictEq record_db (Some "users..bucket")
            then
              keySplit <- splitKey (e_key entry) "..|.." ;;
              ret (Some (Js.head keySplit +:+ "..|.." +:+ _targetZenkoBucket),
                   None)
            else if Js.strictEq record_db (Some "metastore")
            then
              keySplit <- splitKey (e_key entry) "/" ;;
              ret (Some (Js.head keySplit +:+ "/" +:+ _targetZenkoBucket),
                   None)
            else
              ret (if Js.strictEq record_db (e_key entry)
                   then Some _targetZenkoBucket else None,
                   Some _targetZenkoBucket)) ;;
     let key := match fst kd with Some k => Some k | None => e_key entry end in
     let db_ := match snd kd with Some d => Some d | None => record_db end in
     callFilters {| ev_type := e_type entry;
                    ev_bucket := db_;
                    ev_key := key;
                    ev_value := e_value entry |})%js.

(** _isVersionedLogKey: [key.split(VID_SEP)[1] !== undefined] *)
Definition _isVersionedLogKey (key : option string) : M State bool :=
  (parts <- splitKey key VID_SEP ;;
   ret (bool_decide (is_Some (parts !! 1%nat))))%js.

(** Modelled from the spec: [_setEntryBatch] and [_unsetEntryBatch]
    belong to LogReader, which is not among the sources.  The spec has
    the reader hand the batch handle to every extension before it
    iterates and take it back afterwards; an extension's pushes go to
    that handle.  Here the pushes are applied to [entriesToPublish] by
    [callFilters], so the two calls leave the batch as it is. *)
Definition _setEntryBatch : M State unit := ret tt.
Definition _unsetEntryBatch : M State unit := ret tt.

(** The ['data'] listener of the tail phase. *)
Definition onData (record : LogRecord) : M State unit :=
  (modify (withBatch incrRecordsRead) ;;;
   _setEntryBatch ;;;
   eachSeries (fun entry =>
     modify (withBatch incrEntriesRead) ;;;
     if Js.strictEq (db record) (Some bucket)
     then _processLogEntry (db record) entry
     else ret tt) (entries record) ;;;
   _unsetEntryBatch)%js.

Definition _processPrepareEntries : M State unit :=
  (st <- get ;;
   match logRes (batchState st) with
   | None => throw TypeError
   | Some logRes_ =>
       match log logRes_ with
       | LogUndefined | LogNull => ret tt
       | log_ =>
           match initState (batchState st) with
           | Some _ =>
               _setEntryBatch ;;;
               match log_ with
               | LogArray l =>
                   eachSeries (fun entry =>
                     versioned <- _isVersionedLogKey (e_key entry) ;;
                     (if versioned : bool
                      then modify (withBatch incrRecordsRead)
                      else ret tt) ;;;
                     modify (withBatch incrEntriesRead) ;;;
                     _processLogEntry (e_db entry) entry) l
               | _ => throw TypeError
               end ;;;
               _unsetEntryBatch
           | None =>
               match info_start (info logRes_) with
               | None => ret tt
               | Some _ =>
                   match log_ with
                   | LogStream s =>
                       eachSeries onData (records s) ;;;
                       match ending s with
                       | Ends => ret tt
                       | Breaks e => fail e
                       end
                   | LogPiped s =>
                       (* the listeners of getRaftLog come first: the
                          pipe, and an ['error'] listener that emits
                          the error on the record stream, which has
                          no listener for it any more *)
                       eachSeries onData
                         (Producer.pipedRecords (records s)) ;;;
                       if Producer.pausesSource (records s)
                       then throw Stalled
                       else match ending s with
                            | Ends => ret tt
                            | Breaks e => throw e
                            end
                   | _ => throw TypeError
                   end
               end
           end
       end
   end)%js.

(** *** Publishing *)

(** _publishMetrics only talks to the metrics producer; it touches
    neither the batch nor the progress. *)
Definition _publishMetrics : M State unit := ret tt.

Definition _processPublishEntries (env : Env) : M State unit :=
  (st <- get ;;
   let b := batchState st in
   (* if (initState && initState.cseq) *)
   match initState b with
   | Some ist =>
       match cseq ist with
       | Some c =>
           if bool_decide (c = 0) then ret tt
           else modify (withBatch (setNextLogOffset (Some c)))
       | None => ret tt
       end
   | None => ret tt
   end ;;;
   (* if (!initState) *)
   match initState b with
   | None =>
       match logRes b with
       | Some logRes_ =>
           modify (withBatch (setNextLogOffset
             (Some (Js.addNullable (info_start (info logRes_))
                                   (nbLogRecordsRead b)))))
       | None => throw TypeError
       end
   | Some _ => ret tt
   end ;;;
   (* const entries = entriesToPublish[this._targetZenkoBucket];
      entries.length *)
   match entriesToPublish b !! _targetZenkoBucket with
   | None => throw TypeError
   | Some entries_ =>
       if bool_decide (length entries_ = 0%nat) then ret tt
       else
         modify (recordSend entries_) ;;;
         match sendResult env entries_ with
         | Some e => fail e
         | None =>
             modify (withBatch
               (setPublishedEntries (Z.of_nat (length entries_)))) ;;;
             _publishMetrics
         end
   end)%js.

(** *** Checkpoint *)

(** Modelled from the spec: [_writeLogOffset] belongs to LogReader,
    which is not among the sources.  The spec's progress store keeps
    [logOffset] in an integer node of the Coordinator, and its
    [writeLogOffset] "writes only when strictly increasing".  The call
    site hands over no value: what is offered to the node is the
    reader's current [logOffset], and it is written when it is
    greater than what the node holds. *)
Definition _writeLogOffset (env : Env) : M State unit :=
  fun st =>
    if zkLogOffset st <? logOffset st
    then if coordinatorUp env WriteLogOffset
         then (Done tt, storeLogOffset (logOffset st) st)
         else (Failed CoordinatorError, st)
    else (Done tt, st).

Definition _processSaveLogOffset (env : Env) : M State unit :=
  (st <- get ;;
   _writeInitState env (initState (batchState st)) ;;;
   st <- get ;;
   match nextLogOffset (batchState st) with
   | Some next =>
       if bool_decide (next ≠ logOffset st)
       then
         (if logOffset st <? next
          then modify (setLogOffset next)
          else ret tt) ;;;
         _writeLogOffset env
       else ret tt
   | None => ret tt
   end)%js.

(** *** One batch cycle *)

Definition processLogEntries (maxRead : option Z) (env : Env)
  : M State unit :=
  fun st =>
    let st0 := withBatch (fun _ => newBatchState)
                 (setBatchInProgress true st) in
    match (_processReadRecords maxRead env ;;;
           _processPrepareEntries ;;;
           _processPublishEntries env ;;;
           _processSaveLogOffset env)%js st0 with
    | (Done _, st1) => (Done tt, setBatchInProgress false st1)
    | (Failed e, st1) => (Failed e, setBatchInProgress false st1)
    | (Thrown e, st1) => (Thrown e, st1)
    end.

(** A sequence of batch cycles, each in its own environment, whatever
    the outcome of each. *)
Fixpoint runBatches (maxRead : option Z) (envs : list Env) (st : State)
  : State :=
  match envs with
  | [] => st
  | env :: envs' =>
      runBatches maxRead envs' (snd (processLogEntries maxRead env st))
  end.

(** The same sequence, cycle by cycle: the state each cycle started
    from, its outcome and the state it left. *)
Fixpoint batchSteps (maxRead : option Z) (envs : list Env) (st : State)
  : list (State * Outcome unit * State) :=
  match envs with
  | [] => []
  | env :: envs' =>
      let r := processLogEntries maxRead env st in
      (st, fst r, snd r) :: batchSteps maxRead envs' (snd r)
  end.

End Instance.

End Reader.

(* ===================================================================== *)
(** ** KafkaBacklogMetrics *)
(* ===================================================================== *)

Module Backlog.

Inductive OffsetType : Type := consumers | topic | snapshots.

(** A node below [<zkPath>/<topic>]:
    [<partition>/<offsetType>] or [<partition>/<offsetType>/<label>].
    Partition children are named by the decimal numeral the publisher
    wrote; the model keeps the number. *)
Record ZkPath : Type := {
  z_topic : string;
  z_partition : Z;
  z_type : OffsetType;
  z_label : option string
}.

(** The content of an offset node as [_readOffset] classifies it: JSON
    for an integer, JSON for something else, or not JSON.  The publisher
    writes [offset.toString()], which reads back as the same integer. *)
Inductive NodeData : Type :=
| Offset (n : Z)
| NotAnInteger
| Malformed.

#[global] Instance OffsetType_eq_dec : EqDecision OffsetType.
Proof. solve_decision. Defined.
#[global] Instance ZkPath_eq_dec : EqDecision ZkPath.
Proof. solve_decision. Defined.
#[global] Instance NodeData_eq_dec : EqDecision NodeData.
Proof. solve_decision. Defined.

(** The Coordinator subtree: its offset nodes, whether the service
    answers, and the offsets written so far, in the order the writes were
    issued.  The Coordinator lists the children of a node in an order of
    its own: [partitionOrder] and [labelOrder] rearrange a list of
    children into the order in which it hands them out. *)
Record Store : Type := {
  nodes : list (ZkPath * NodeData);
  available : bool;
  writes : list (ZkPath * Z);
  partitionOrder : list Z -> list Z;
  labelOrder : list string -> list string
}.

Fixpoint lookupNode (path : ZkPath) (l : list (ZkPath * NodeData))
  : option NodeData :=
  match l with
  | [] => None
  | (p, d) :: l' => if decide (p = path) then Some d else lookupNode path l'
  end.

Fixpoint setNode (path : ZkPath) (data : NodeData)
    (l : list (ZkPath * NodeData)) : list (ZkPath * NodeData) :=
  match l with
  | [] => [(path, data)]
  | (p, d) :: l' =>
      if decide (p = path) then (p, data) :: l'
      else (p, d) :: setNode path data l'
  end.

(** [zookeeper.getData] *)
Definition getData (path : ZkPath) (st : Store) : Outcome NodeData :=
  if available st
  then match lookupNode path (nodes st) with
       | Some d => Done d
       | None => Failed NO_NODE
       end
  else Failed CoordinatorError.

(** The partitions that have a node below [<zkPath>/<topic>]. *)
Definition partitionsOf (topic_ : string) (st : Store) : list Z :=
  remove_dups
    (z_partition <$> filter (fun p => z_topic p = topic_) (fst <$> nodes st)).

(** The labels that have a node below [<partition>/<offsetType>]. *)
Definition labelsOf (topic_ : string) (partition : Z) (ty : OffsetType)
    (st : Store) : list string :=
  omap (fun p =>
          if bool_decide (z_topic p = topic_ ∧ z_partition p = partition
                          ∧ z_type p = ty)
          then z_label p else None) (fst <$> nodes st).

(** [zookeeper.getChildren] on [<zkPath>/<topic>]: the partitions, in the
    order of the Coordinator. *)
Definition getPartitions (topic_ : string) (st : Store) : Outcome (list Z) :=
  if available st
  then match partitionsOf topic_ st with
       | [] => Failed NO_NODE
       | ps => Done (partitionOrder st ps)
       end
  else Failed CoordinatorError.

(** [zookeeper.getChildren] on [<partition>/<offsetType>]: the labels,
    in the order of the Coordinator. *)
Definition getLabels (topic_ : string) (partition : Z) (ty : OffsetType)
    (st : Store) : Outcome (list string) :=
  if available st
  then match labelsOf topic_ partition ty st with
       | [] => Failed NO_NODE
       | ls => Done (labelOrder st ls)
       end
  else Failed CoordinatorError.

(** [zookeeper.setOrCreate] *)
Definition setOrCreate (path : ZkPath) (offset : Z) : M Store unit :=
  fun st =>
    if available st
    then (Done tt,
          {| nodes := setNode path (Offset offset) (nodes st);
             available := available st;
             writes := writes st ++ [(path, offset)];
             partitionOrder := partitionOrder st;
             labelOrder := labelOrder st |})
    else (Failed CoordinatorError, st).

(** _getOffsetZkPath: the label is appended only when it is truthy. *)
Definition _getOffsetZkPath (topic_ : string) (partition : Z)
    (offsetType : OffsetType) (label : option string) : ZkPath :=
  {| z_topic := topic_; z_partition := partition; z_type := offsetType;
     z_label := if Js.truthy label then label else None |}.

Definition _publishOffset (topic_ : string) (partition offset : Z)
    (offsetType : OffsetType) (label : option string) : M Store unit :=
  setOrCreate (_getOffsetZkPath topic_ partition offsetType label) offset.

Definition _readOffset (topic_ : string) (partition : Z)
    (offsetType : OffsetType) (label : option string) (st : Store)
  : Outcome Z :=
  match getData (_getOffsetZkPath topic_ partition offsetType label) st with
  | Failed e =>
      if bool_decide (e = NO_NODE) then Failed NoNodeError
      else Failed InternalError
  | Thrown e => Thrown e
  | Done Malformed => Failed InternalError
  | Done NotAnInteger => Failed InternalError
  | Done (Offset n) => Done n
  end.

(** The outcome of [async.mapLimit] over reads, all of them issued: the
    results in order, or the first error. *)
Fixpoint mapOutcomes {A B} (f : A -> Outcome B) (l : list A)
  : Outcome (list B) :=
  match l with
  | [] => Done []
  | x :: xs =>
      match f x with
      | Done b =>
          match mapOutcomes f xs with
          | Done bs => Done (b :: bs)
          | Failed e => Failed e
          | Thrown e => Thrown e
          end
      | Failed e => Failed e
      | Thrown e => Thrown e
      end
  end.

Definition _readAllOffsets (topic_ : string) (partition : Z)
    (offsetType : OffsetType) (st : Store) : Outcome (list (string * Z)) :=
  match getLabels topic_ partition offsetType st with
  | Failed e =>
      if bool_decide (e = NO_NODE) then Done [] else Failed e
  | Thrown e => Thrown e
  | Done labels =>
      mapOutcomes (fun label =>
        match _readOffset topic_ partition offsetType (Some label) st with
        | Done offset => Done (label, offset)
        | Failed e => Failed e
        | Thrown e => Thrown e
        end) labels
  end.

(** *** Publishing the backlog *)

(** An element of [consumer.position()]. *)
Record TopicPartition : Type := {
  tp_topic : string;
  tp_partition : Z;
  tp_offset : option Z
}.

(** The kafka consumer: [position()] ([None] when it throws) and
    [queryWatermarkOffsets] (the high offset, [None] on error). *)
Record Consumer : Type := {
  position : option (list TopicPartition);
  highOffset : string -> Z -> option Z
}.

Definition _getLatestTopicOffset (kafkaClient : Consumer) (topic_ : string)
    (partition : Z) : M Store Z :=
  match highOffset kafkaClient topic_ partition with
  | Some off => ret off
  | None => fail InternalError
  end.

(** The iteratee of [async.eachLimit] in [publishConsumerBacklog].  The
    two tasks of [async.parallel] are started in array order: the
    consumer group offset, then the topic offset. *)
Definition publishPartition (consumer : Consumer) (topic_ : string)
    (groupId : option string) (p : TopicPartition) : M Store unit :=
  (topicOffset <- _getLatestTopicOffset consumer topic_ (tp_partition p) ;;
   asyncEach (fun task : M Store unit => task)
     [ _publishOffset topic_ (tp_partition p)
         (default 0 (tp_offset p)) consumers groupId;
       _publishOffset topic_ (tp_partition p)
         topicOffset topic None ])%js.

Definition publishConsumerBacklog (consumer : Consumer) (topic_ : string)
    (groupId : option string) : M Store unit :=
  match position consumer with
  | None => ret tt
  | Some positions =>
      let consumerOffsets :=
        filter (fun p => tp_topic p = topic_ ∧ is_Some (tp_offset p))
               positions in
      asyncEachLimit 10 (publishPartition consumer topic_ groupId)
                     consumerOffsets
  end.

(** The writes issued for one assigned partition, in order. *)
Definition partitionWrites (consumer : Consumer) (topic_ : string)
    (groupId : option string) (p : TopicPartition) : list (ZkPath * Z) :=
  match highOffset consumer topic_ (tp_partition p) with
  | Some topicOffset =>
      [ (_getOffsetZkPath topic_ (tp_partition p) consumers groupId,
         default 0 (tp_offset p));
        (_getOffsetZkPath topic_ (tp_partition p) topic None,
         topicOffset) ]
  | None => []
  end.

(** The assigned partitions whose iteration is started, while the
    Coordinator answers: an iteration then fails exactly when the high
    watermark of its partition cannot be read.  [failed] says whether an
    iteration has failed so far. *)
Fixpoint startedFrom (consumer : Consumer) (topic_ : string)
    (inFlight : nat) (failed : bool) (l : list TopicPartition)
  : list TopicPartition :=
  match l, inFlight with
  | p :: ps, S n =>
      let failed' :=
        failed
        || negb (bool_decide
                   (is_Some (highOffset consumer topic_ (tp_partition p)))) in
      p :: startedFrom consumer topic_ (if failed' then n else S n) failed' ps
  | _, _ => []
  end.

(** The writes of this call: those that [m] adds to the store. *)
Definition issuedBy (m : M Store unit) (st : Store) : list (ZkPath * Z) :=
  drop (length (writes st)) (writes (snd (m st))).

(** *** Checking consumer offsets *)

Record CheckInfo : Type := {
  ci_topic : string;
  ci_partition : Z;
  ci_groupId : string;
  ci_consumerOffset : Z;
  ci_lag : Z;
  ci_maxLag : Z;
  ci_snapshotName : option string;
  ci_snapshotOffset : option Z;
  ci_topicOffset : option Z
}.

#[global] Instance CheckInfo_eq_dec : EqDecision CheckInfo.
Proof. solve_decision. Defined.

Section Check.

Variable st : Store.
Variable topic_ : string.
Variable groupId : option string.
Variable maxLag : Z.
Variable snapshotName : option string.

(** The body of [consumerOffsets.forEach] for one consumer group;
    the state is the closure variable [checkInfo]. *)
Definition examine (partitionNumber targetOffset : Z)
    (checkInfo : option CheckInfo) (consumerOffsetInfo : string * Z)
  : option CheckInfo :=
  let lag := targetOffset - snd consumerOffsetInfo in
  let lag := if lag <? 0 then 0 else lag in
  let info :=
    {| ci_topic := topic_;
       ci_partition := partitionNumber;
       ci_groupId := fst consumerOffsetInfo;
       ci_consumerOffset := snd consumerOffsetInfo;
       ci_lag := lag;
       ci_maxLag := maxLag;
       ci_snapshotName := if Js.truthy snapshotName then snapshotName else None;
       ci_snapshotOffset := if Js.truthy snapshotName then Some targetOffset else None;
       ci_topicOffset := if Js.truthy snapshotName then None else Some targetOffset |} in
  if (maxLag <? lag) && bool_decide (checkInfo = None)
  then Some info
  else checkInfo.

(** First step of the waterfall: the offset of one consumer group,
    wrapped as a one-element list, or the offsets of all groups. *)
Definition readConsumerOffsets (partition : Z)
  : Outcome (list (string * Z)) :=
  if Js.truthy groupId
  then match _readOffset topic_ partition consumers groupId st with
       | Done offset => Done [(default "" groupId, offset)]
       | Failed e => Failed e
       | Thrown e => Thrown e
       end
  else _readAllOffsets topic_ partition consumers st.

(** Second step: the snapshot offset or the latest topic offset. *)
Definition readTargetOffset (partition : Z) : Outcome Z :=
  if Js.truthy snapshotName
  then _readOffset topic_ partition snapshots snapshotName st
  else _readOffset topic_ partition topic None st.

(** One iteration of [async.eachSeries] over the partitions. *)
Definition checkPartition (partition : Z) : M (option CheckInfo) unit :=
  fun checkInfo =>
    match readConsumerOffsets partition with
    | Failed e => (Failed e, checkInfo)
    | Thrown e => (Thrown e, checkInfo)
    | Done consumerOffsets =>
        match readTargetOffset partition with
        | Failed e => (Failed e, checkInfo)
        | Thrown e => (Thrown e, checkInfo)
        | Done targetOffset =>
            let checkInfo' :=
              foldl (examine partition targetOffset) checkInfo
                    consumerOffsets in
            match checkInfo' with
            | Some _ => (Failed CheckConditionError, checkInfo')
            | None => (Done tt, checkInfo')
            end
        end
    end.

(** _checkConsumerOffsetsGeneric: [Done None] is [cb()],
    [Done (Some info)] is [cb(null, checkInfo)]. *)
Definition _checkConsumerOffsetsGeneric : Outcome (option CheckInfo) :=
  match getPartitions topic_ st with
  | Failed e =>
      if bool_decide (e = NO_NODE) then Done None else Failed e
  | Thrown e => Thrown e
  | Done partitions =>
      match eachSeries checkPartition partitions None with
      | (Failed e, checkInfo) =>
          if bool_decide (e = CheckConditionError) then Done checkInfo
          else if bool_decide (e = NoNodeError) then Done None
          else Failed e
      | (Thrown e, _) => Thrown e
      | (Done _, _) => Done None
      end
  end.

End Check.

Definition checkConsumerLag (st : Store) (topic_ : string)
    (groupId : option string) (maxLag : Z) : Outcome (option CheckInfo) :=
  _checkConsumerOffsetsGeneric st topic_ groupId maxLag None.

Definition checkConsumerProgress (st : Store) (topic_ : string)
    (groupId : option string) (snapshotName : option string)
  : Outcome (option CheckInfo) :=
  _checkConsumerOffsetsGeneric st topic_ groupId 0 snapshotName.

(** *** The lag check in the words of the specification

    For each partition, [lag = max(0, topicOffset - consumerOffset)];
    the answer is the first partition whose lag exceeds [maxLag], else
    success.  A row is one (partition, consumer group) pair with the two
    offsets read for it. *)
Record Row : Type := {
  r_partition : Z;
  r_groupId : string;
  r_consumerOffset : Z;
  r_topicOffset : Z
}.

Definition lagOf (r : Row) : Z :=
  Z.max 0 (r_topicOffset r - r_consumerOffset r).

Definition firstLagging (maxLag : Z) (rows : list Row) : option Row :=
  List.find (fun r => maxLag <? lagOf r) rows.

(** The rows of one partition, given what was read for it. *)
Definition rowsOf (partition : Z) (read : list (string * Z) * Z) : list Row :=
  (fun c => {| r_partition := partition; r_groupId := fst c;
               r_consumerOffset := snd c; r_topicOffset := snd read |})
    <$> fst read.

(** The [checkInfo] reported for a lagging row. *)
Definition infoOf (topic_ : string) (maxLag : Z) (r : Row) : CheckInfo :=
  {| ci_topic := topic_;
     ci_partition := r_partition r;
     ci_groupId := r_groupId r;
     ci_consumerOffset := r_consumerOffset r;
     ci_lag := lagOf r;
     ci_maxLag := maxLag;
     ci_snapshotName := None;
     ci_snapshotOffset := None;
     ci_topicOffset := Some (r_topicOffset r) |}.

End Backlog.

(* ===================================================================== *)
(** ** Observations used in the statements about the reader *)
(* ===================================================================== *)

Module ReaderSpec.
Import Reader.

(** The durable progress of a reader and the trace of its writes. *)
Definition progress (s : State) : Z * Z * list Z :=
  (logOffset s, zkLogOffset s, logOffsetWrites s).

(** What the prepare phase never touches. *)
Definition prepareFrame (s : State) :=
  (progress s, _batchInProgress s, zkNodes s, sentBatches s,
   logRes (batchState s), initState (batchState s),
   nextLogOffset (batchState s), publishedEntries (batchState s),
   _iProducer s).

(** Everything but the init nodes. *)
Definition offNodes (s : State) :=
  (progress s, _batchInProgress s, batchState s, filterCalls s,
   sentBatches s, _iProducer s).

(** [s'] can follow [s] in the life of a reader: neither the in-memory
    offset nor the offset node has gone back, the node is not ahead of
    the reader unless it was to begin with, and the values written to
    the node in between are strictly increasing, from above what the
    node held up to what it holds. *)
Definition advances (s s' : State) : Prop :=
  logOffset s <= logOffset s'
  /\ zkLogOffset s <= zkLogOffset s'
  /\ (zkLogOffset s <= logOffset s -> zkLogOffset s' <= logOffset s')
  /\ exists ws,
      logOffsetWrites s' = logOffsetWrites s ++ ws
      /\ StronglySorted Z.lt ws
      /\ forall w, w ∈ ws -> zkLogOffset s < w <= zkLogOffset s'.

(** The reader holds the offset that its node holds, as it does once
    [setup] has read the node. *)
Definition inStep (s : State) : Prop := zkLogOffset s = logOffset s.

(** What a batch cycle from [s] to [s'] did to the offset node: nothing;
    or one write, of the offset the cycle staged, which is strictly
    greater than the [logOffset] the cycle started from. *)
Definition writesOnlyForward (s s' : State) : Prop :=
  (logOffsetWrites s' = logOffsetWrites s /\ zkLogOffset s' = zkLogOffset s)
  \/ exists n,
       nextLogOffset (batchState s') = Some n
       /\ logOffset s < n
       /\ logOffsetWrites s' = logOffsetWrites s ++ [n]
       /\ zkLogOffset s' = n.

(** [sep] matches at no position inside [p], when [p] is followed by
    [rest]. *)
Fixpoint noMatchWithin (sep p rest : string) : bool :=
  match p with
  | EmptyString => true
  | String a p' =>
      negb (String.prefix sep (String a p' +:+ rest))
      && noMatchWithin sep p' rest
  end.

(** [p] is the first piece of [k] cut at [sep]: [k] is [p] followed by
    nothing, or by a text that starts with [sep], and [sep] matches at no
    position inside [p]. *)
Definition firstPiece (sep k p : string) : Prop :=
  exists rest,
    k = p +:+ rest
    /\ (rest = EmptyString \/ String.prefix sep rest = true)
    /\ noMatchWithin sep p rest = true.




End ReaderSpec.

(* ===================================================================== *)
(** ** Observations used in the statements about the producer *)
(* ===================================================================== *)

Module ProducerSpec.
Import Producer.

(** The metadata object that [_getBucketObjectsMetadata] builds for a
    listed key: an error of the metadata request does not show in it. *)
Definition objectMdOf
    (getObjectMetadata : string -> string -> option Error * option string)
    (name key : string) : ObjectMd :=
  {| res := snd (getObjectMetadata name key);
     objectKey := key; bucketName := name |}.

(** The put entries of the listed keys of a bucket. *)
Definition entriesOf
    (getObjectMetadata : string -> string -> option Error * option string)
    (target bucket : string) (keys : list string) : list LogEntry :=
  (fun key =>
     {| e_db := None; e_type := Some "put";
        e_bucket := Some (target +:+ "-" +:+ bucket);
        e_key := Some key;
        e_value := snd (getObjectMetadata bucket key) |}) <$> keys.

(** Running [m] with [pre] in front of [resLog] gives the same outcome
    and the same state with [pre] in front. *)
Definition appends {A} (m : M State A) : Prop :=
  forall t pre r,
    m {| _targetZenkoBucket := t; resLog := pre ++ r |}
    = (fst (m {| _targetZenkoBucket := t; resLog := r |}),
       {| _targetZenkoBucket :=
            _targetZenkoBucket
              (snd (m {| _targetZenkoBucket := t; resLog := r |}));
          resLog :=
            pre ++ resLog (snd (m {| _targetZenkoBucket := t; resLog := r |})) |}).

End ProducerSpec.

(* ===================================================================== *)
(** ** Concrete scenarios *)
(* ===================================================================== *)

Module Scenario.
Import Reader.

(** A source bucket "bucket1" holding the single object "object1". *)
Definition oneObjectList (b : string) : Outcome (list string) :=
  Done ["object1"].
Definition oneObjectMetadata (b k : string) : option Error * option string :=
  (None, Some "{}").

(** The reader of source bucket "bucket1", ingesting into "zenko". *)
Definition initPathBase : string := "/ingestion/zenko/init".
Definition separator : string := String (Ascii.ascii_of_nat 0) EmptyString.

(** An extension that stages every event it is shown under the target
    bucket of the reader. *)
Definition stageAll : Extension :=
  fun ev =>
    [("zenko",
      {| m_key := default "" (ev_bucket ev) +:+ "/" +:+ default "" (ev_key ev);
         m_message := default "" (ev_value ev) |})].

(** One batch cycle of that reader. *)
Definition batch : option Z -> Env -> M State unit :=
  processLogEntries "bucket1" "zenko" initPathBase 1 [stageAll] separator.

Definition putEntry (key : string) : LogEntry :=
  {| e_db := None; e_type := Some "put"; e_bucket := Some "zenko";
     e_key := Some key; e_value := Some "{}" |}.

Definition logEntry (key : string) : LogEntry :=
  {| e_db := None; e_type := Some "put"; e_bucket := None;
     e_key := Some key; e_value := Some "{}" |}.

Definition logRecord (db_ key : string) : LogRecord :=
  {| db := Some db_; entries := [logEntry key] |}.

(** A reader that has never run, with its offset at [n]. *)
Definition freshReader (n : Z) : State :=
  {| logOffset := n; _batchInProgress := false;
     batchState := newBatchState; zkNodes := ∅; zkLogOffset := n;
     logOffsetWrites := []; filterCalls := []; sentBatches := [];
     _iProducer := Producer.new "zenko" |}.

(** A reader whose snapshot is marked complete, with its offset at [n]. *)
Definition tailingReader (n : Z) : State :=
  {| logOffset := n; _batchInProgress := false;
     batchState := newBatchState;
     zkNodes := {[ initPath initPathBase "isStatusComplete" := Some "true";
                   initPath initPathBase "versionMarker" := Some "null";
                   initPath initPathBase "keyMarker" := Some "null" ]};
     zkLogOffset := n;
     logOffsetWrites := []; filterCalls := []; sentBatches := [];
     _iProducer := Producer.new "zenko" |}.

(** The Coordinator answers every call. *)
Definition allUp : CoordinatorCall -> bool := fun _ => true.

(** The cold start: the source bucket holds "object1", and its log has
    nothing to read yet. *)
Definition snapshotEnv : Env :=
  {| coordinatorUp := allUp;
     getObjectList := oneObjectList;
     getObjectMetadata := oneObjectMetadata;
     raftLogResponse := fun _ _ _ => Producer.ErrorFirst None;
     sendResult := fun _ => None |}.

(** Three records at offsets 7, 8 and 9 of the tail log. *)
Definition threeRecords : list LogRecord :=
  [logRecord "bucket1" "a"; logRecord "bucket1" "b"; logRecord "bucket1" "c"].

Definition tailEnv : Env :=
  {| coordinatorUp := allUp;
     getObjectList := oneObjectList;
     getObjectMetadata := oneObjectMetadata;
     raftLogResponse := fun _ _ _ =>
       Producer.HeaderFirst
         {| info_start := Some 7; info_end := None;
            info_cseq := Some 10; info_prune := Some 1 |}
         {| records := threeRecords; ending := Ends |};
     sendResult := fun _ => None |}.

(** The source answers 416: nothing new to read. *)
Definition rangeEnv : Env :=
  {| coordinatorUp := allUp;
     getObjectList := oneObjectList;
     getObjectMetadata := oneObjectMetadata;
     raftLogResponse := fun _ _ _ => Producer.ErrorFirst (Some 416);
     sendResult := fun _ => None |}.

Import Backlog.

(** Topic "T", partitions 0 and 1, high watermarks 100 and 200; group
    "G" stands at 90 and 195. *)
Definition consumerG : Consumer :=
  {| position :=
       Some [ {| tp_topic := "T"; tp_partition := 0; tp_offset := Some 90 |};
              {| tp_topic := "T"; tp_partition := 1; tp_offset := Some 195 |} ];
     highOffset := fun _ p => if p =? 0 then Some 100 else Some 200 |}.

Definition emptyStore : Store :=
  {| nodes := []; available := true; writes := [];
     partitionOrder := fun l => l; labelOrder := fun l => l |}.

Definition publishedStore : Store :=
  snd (publishConsumerBacklog consumerG "T" (Some "G") emptyStore).

(** Later: group "G" has moved to 150 on partition 0, whose high
    watermark is now 200. *)
Definition consumerLater : Consumer :=
  {| position :=
       Some [ {| tp_topic := "T"; tp_partition := 0; tp_offset := Some 150 |} ];
     highOffset := fun _ _ => Some 200 |}.

(** Group "H" has published an offset for partition 1 only. *)
Definition partialStore : Store :=
  {| nodes :=
       [ (_getOffsetZkPath "T" 0 topic None, Offset 100);
         (_getOffsetZkPath "T" 1 consumers (Some "H"), Offset 100);
         (_getOffsetZkPath "T" 1 topic None, Offset 200) ];
     available := true;
     writes := [];
     partitionOrder := fun l => l;
     labelOrder := fun l => l |}.

End Scenario.

(* ===================================================================== *)
(** ** RaftLogEntry: the two bucket entries, and the producer's parser *)
(* ===================================================================== *)

Module RaftLogEntry.

(** The [res] argument of [createPutBucketEntry], through the two
    properties it reads. *)
Record BucketRes : Type := {
  _owner : string;
  _creationDate : string
}.

(** The [bucket] argument of [createPutBucketMdEntry]: its [_name] and
    the text [bucket.serialize()] returns. *)
Record BucketMd : Type := {
  _name : string;
  serialize : string
}.

(** createPutBucketEntry *)
Definition createPutBucketEntry (bucket : string) (res : BucketRes)
    (bucketPrefix : string) : LogEntry :=
  {| e_db := None;
     e_type := Some "put";
     e_bucket := Some usersBucket;
     e_key := Some (_owner res +:+ "..|.." +:+ bucketPrefix +:+ "-" +:+ bucket);
     e_value := Some (_creationDate res) |}.

(** createPutBucketMdEntry *)
Definition createPutBucketMdEntry (bucket : BucketMd) (bucketPrefix : string)
  : LogEntry :=
  {| e_db := None;
     e_type := Some "put";
     e_bucket := Some (bucketPrefix +:+ "-" +:+ _name bucket);
     e_key := Some (bucketPrefix +:+ "-" +:+ _name bucket);
     e_value := Some (serialize bucket) |}.

(** arsenal's [constants.splitter]. *)
Definition splitter : string := "..|..".

(** IngestionProducer._parseBucketName: [bucketKey.split(splitter)[1]],
    [None] for [undefined]. *)
Definition _parseBucketName (bucketKey : string) : option string :=
  Js.split splitter bucketKey !! 1%nat.

End RaftLogEntry.

(* ===================================================================== *)
(** ** IngestionReader: the Coordinator paths of a reader *)
(* ===================================================================== *)

Module ReaderPaths.

(** The constructor: [zkBasePath] and [bucketInitPath], from the
    [zookeeperPath] of the ingestion configuration and the name of the
    target bucket. *)
Definition zkBasePath (ingestionPath target : string) : string :=
  ingestionPath +:+ "/" +:+ target.

Definition bucketInitPath (ingestionPath target : string) : string :=
  zkBasePath ingestionPath target +:+ "/init".

(** [setup]: [logId] and [pathToLogOffset]; [raftId] is the decimal text
    of the raft session id, as the template literal renders it. *)
Definition logId (raftId : string) : string := "raft_" +:+ raftId.

Definition pathToLogOffset (ingestionPath target raftId : string) : string :=
  zkBasePath ingestionPath target
    +:+ "/logState/" +:+ logId raftId +:+ "/logOffset".

(** The nodes a reader reads and writes: its offset node and its three
    init nodes. *)
Definition readerPaths (ingestionPath target raftId : string) : list string :=
  pathToLogOffset ingestionPath target raftId
    :: (Reader.initPath (bucketInitPath ingestionPath target)
          <$> Reader.getInitIngestionNodes).

End ReaderPaths.

(* ===================================================================== *)
(** ** KafkaBacklogMetrics.snapshotTopicOffsets *)
(* ===================================================================== *)

Module BacklogSnapshot.
Import Backlog.

(** An element of [res.topics] in the answer of [getMetadata]: the name
    of the topic and the ids of its partitions. *)
Record TopicMetadata : Type := {
  t_name : string;
  t_partitions : list Z
}.

(** The iteratee of [async.each]: the high watermark of the partition,
    then its node under [snapshots/<snapshotName>]. *)
Definition snapshotPartition (kafkaClient : Consumer) (topic_ : string)
    (snapshotName : option string) (partition : Z) : M Store unit :=
  (topicOffset <- _getLatestTopicOffset kafkaClient topic_ partition ;;
   _publishOffset topic_ partition topicOffset snapshots snapshotName)%js.

(** snapshotTopicOffsets; [metadata] is what [kafkaClient.getMetadata]
    hands to its callback, [None] when it reports an error. *)
Definition snapshotTopicOffsets (kafkaClient : Consumer)
    (metadata : option (list TopicMetadata)) (topic_ : string)
    (snapshotName : option string) : M Store unit :=
  match metadata with
  | None => fail InternalError
  | Some topics =>
      match List.find (fun t => bool_decide (t_name t = topic_)) topics with
      | None => ret tt
      | Some topicMd =>
          asyncEach (snapshotPartition kafkaClient topic_ snapshotName)
                    (t_partitions topicMd)
      end
  end.

End BacklogSnapshot.

(* ===================================================================== *)
(** ** Observations used in the statements about the backlog metrics *)
(* ===================================================================== *)

Module BacklogSpec.
Import Backlog.

(** The nodes after the writes [ws], applied in order. *)
Definition applyWrites (l : list (ZkPath * NodeData))
    (ws : list (ZkPath * Z)) : list (ZkPath * NodeData) :=
  foldl (fun l w => setNode (fst w) (Offset (snd w)) l) l ws.

(** [m] changes the store only through offset writes: those it adds to
    the list of writes, all of which satisfy [P]. *)
Definition writesOnly (P : ZkPath * Z -> Prop) (m : M Store unit) : Prop :=
  forall st,
    exists ws,
      writes (snd (m st)) = writes st ++ ws
      /\ nodes (snd (m st)) = applyWrites (nodes st) ws
      /\ available (snd (m st)) = available st
      /\ Forall P ws.

(** What a reported [checkInfo] says is what the store holds: the
    consumer offset of its group and the target offset of its partition
    are the ones stored, and its lag is their difference, clamped below
    at zero, and exceeds [maxLag]. *)
Definition genuine (st : Store) (topic_ : string) (maxLag : Z)
    (snapshotName : option string) (ci : CheckInfo) : Prop :=
  exists targetOffset,
    _readOffset topic_ (ci_partition ci) consumers (Some (ci_groupId ci)) st
      = Done (ci_consumerOffset ci)
    /\ readTargetOffset st topic_ snapshotName (ci_partition ci)
       = Done targetOffset
    /\ ci_lag ci = Z.max 0 (targetOffset - ci_consumerOffset ci)
    /\ maxLag < ci_lag ci
    /\ ci_topic ci = topic_
    /\ ci_maxLag ci = maxLag.

(** Every node of the store holds an integer. *)
Definition wellFormed (st : Store) : Prop :=
  forall path d, lookupNode path (nodes st) = Some d -> exists n, d = Offset n.

(** The [checkInfo] reported for a row that is behind a snapshot; the
    target offset of the row is the snapshot offset. *)
Definition progressInfo (topic_ : string) (snapshotName : option string)
    (r : Row) : CheckInfo :=
  {| ci_topic := topic_;
     ci_partition := r_partition r;
     ci_groupId := r_groupId r;
     ci_consumerOffset := r_consumerOffset r;
     ci_lag := lagOf r;
     ci_maxLag := 0;
     ci_snapshotName := snapshotName;
     ci_snapshotOffset := Some (r_topicOffset r);
     ci_topicOffset := None |}.

(** The row of an assigned partition: the position of the consumer
    against the high watermark of the partition. *)
Definition rowOfPosition (consumer : Consumer) (topic_ : string)
    (groupId : option string) (p : TopicPartition) : Row :=
  {| r_partition := tp_partition p;
     r_groupId := default "" groupId;
     r_consumerOffset := default 0 (tp_offset p);
     r_topicOffset := default 0 (highOffset consumer topic_ (tp_partition p)) |}.

(** The nodes below a topic, in creation order. *)
Definition topicKeys (topic_ : string) (l : list (ZkPath * NodeData))
  : list ZkPath :=
  filter (fun p => z_topic p = topic_) (fst <$> l).

(** The two nodes that [publishConsumerBacklog] writes for an assigned
    partition. *)
Definition consumerPath (topic_ : string) (groupId : option string)
    (p : TopicPartition) : ZkPath :=
  _getOffsetZkPath topic_ (tp_partition p) consumers groupId.
Definition topicPath (topic_ : string) (p : TopicPartition) : ZkPath :=
  _getOffsetZkPath topic_ (tp_partition p) topic None.

End BacklogSpec.

(* ===================================================================== *)
(** ** Observations used in the statements about the prepare phase *)
(* ===================================================================== *)

Module PrepareSpec.
Import Reader.

(** The entries [_processLogEntry] hands on: all but those that have
    neither a key nor a type. *)
Definition passedOn (e : LogEntry) : bool :=
  negb (bool_decide (e_key e = None) && bool_decide (e_type e = None)).

(** The event built for an entry of a tail record whose [db] is an
    ordinary bucket: the target bucket stands for the source bucket, in
    [bucket] and in a key that names the bucket itself. *)
Definition tailEvent (target : string) (rdb : option string) (e : LogEntry)
  : Event :=
  {| ev_type := e_type e;
     ev_bucket := Some target;
     ev_key := if Js.strictEq rdb (e_key e) then Some target else e_key e;
     ev_value := e_value e |}.

(** The events of a run of tail records, in stream order: those of the
    records of the source bucket. *)
Definition tailEvents (bucket target : string) (recs : list LogRecord)
  : list Event :=
  flat_map (fun r =>
    if Js.strictEq (db r) (Some bucket)
    then tailEvent target (db r)
           <$> List.filter passedOn (entries r)
    else []) recs.

(** The event built for an entry of a snapshot list: the entry as it
    is. *)
Definition snapshotEvent (e : LogEntry) : Event :=
  {| ev_type := e_type e; ev_bucket := e_bucket e;
     ev_key := e_key e; ev_value := e_value e |}.

(** The calls of [ext.filter] for a list of events: each event is shown
    to every extension in turn before the next one is. *)
Definition filterTrace (exts : list Extension) (evs : list Event)
  : list Event :=
  flat_map (fun ev => (fun _ : Extension => ev) <$> exts) evs.

(** What the extensions stage for these events, in that order. *)
Definition stagedBy (exts : list Extension) (evs : list Event)
  : list (string * Message) :=
  flat_map (fun ev => flat_map (fun ext : Extension => ext ev) exts) evs.

(** The messages staged under the key [k], in order. *)
Definition stagedUnder (k : string) (kms : list (string * Message))
  : list Message :=
  snd <$> List.filter (fun km => bool_decide (fst km = k)) kms.

(** What a piece of the prepare phase adds to a batch. *)
Record Delta : Type := {
  d_calls : list Event;                  (* calls of [ext.filter] *)
  d_staged : list (string * Message);    (* pushes to the batch handle *)
  d_entries : Z;                         (* added to nbLogEntriesRead *)
  d_records : Z                          (* added to nbLogRecordsRead *)
}.

Definition noDelta : Delta :=
  {| d_calls := []; d_staged := []; d_entries := 0; d_records := 0 |}.

Definition addDelta (a b : Delta) : Delta :=
  {| d_calls := d_calls a ++ d_calls b;
     d_staged := d_staged a ++ d_staged b;
     d_entries := d_entries a + d_entries b;
     d_records := d_records a + d_records b |}.

(** [s'] is [s] with [d] added, and nothing else changed. *)
Definition extends (d : Delta) (s s' : State) : Prop :=
  filterCalls s' = filterCalls s ++ d_calls d
  /\ entriesToPublish (batchState s')
     = foldl pushEntry (entriesToPublish (batchState s)) (d_staged d)
  /\ nbLogEntriesRead (batchState s')
     = nbLogEntriesRead (batchState s) + d_entries d
  /\ nbLogRecordsRead (batchState s')
     = nbLogRecordsRead (batchState s) + d_records d
  /\ ReaderSpec.prepareFrame s' = ReaderSpec.prepareFrame s.

(** [m] always succeeds and adds [d]. *)
Definition adds (m : M State unit) (d : Delta) : Prop :=
  forall s, exists s', m s = (Done tt, s') /\ extends d s s'.

Definition sumDelta (ds : list Delta) : Delta := foldr addDelta noDelta ds.

(** What the events of a list add: the calls and the pushes. *)
Definition eventsDelta (exts : list Extension) (evs : list Event)
    (nEntries nRecords : Z) : Delta :=
  {| d_calls := filterTrace exts evs; d_staged := stagedBy exts evs;
     d_entries := nEntries; d_records := nRecords |}.

(** The separator [sep] occurs in [s]. *)
Fixpoint occursIn (sep s : string) : bool :=
  String.prefix sep s
  || match s with
     | EmptyString => false
     | String _ s' => occursIn sep s'
     end.

(** The entries of a snapshot list that count as records: those whose
    key holds the version separator. *)
Definition versionedEntries (sep : string) (l : list LogEntry)
  : list LogEntry :=
  List.filter (fun e => match e_key e with
                        | Some k => occursIn sep k
                        | None => false
                        end) l.

(** No character of [s] is [c]. *)
Fixpoint lacks (c : Ascii.ascii) (s : string) : bool :=
  match s with
  | EmptyString => true
  | String a s' => negb (bool_decide (a = c)) && lacks c s'
  end.

End PrepareSpec.

(* ===================================================================== *)
(** ** Observations used in the statements about the init nodes *)
(* ===================================================================== *)

Module InitSpec.

(** The nodes once [path] has been read: as they were, with an empty
    node at [path] if there was none. *)
Definition ensureNode (zk : gmap string (option string)) (path : string)
  : gmap string (option string) :=
  match zk !! path with
  | Some _ => zk
  | None => <[path := None]> zk
  end.

End InitSpec.

(* ===================================================================== *)
(** ** Further scenarios *)
(* ===================================================================== *)

Module MoreScenarios.
Import Reader Scenario.

(** The bus producer refuses every batch. *)
Definition refusingEnv : Env :=
  {| coordinatorUp := allUp;
     getObjectList := oneObjectList;
     getObjectMetadata := oneObjectMetadata;
     raftLogResponse := raftLogResponse tailEnv;
     sendResult := fun _ => Some SendError |}.

(** The Coordinator does not answer. *)
Definition downEnv : Env :=
  {| coordinatorUp := fun _ => false;
     getObjectList := oneObjectList;
     getObjectMetadata := oneObjectMetadata;
     raftLogResponse := raftLogResponse tailEnv;
     sendResult := fun _ => None |}.

(** The Coordinator answers every call but the write of the offset
    node. *)
Definition noOffsetWriteEnv : Env :=
  {| coordinatorUp := fun c =>
       match c with WriteLogOffset => false | _ => true end;
     getObjectList := oneObjectList;
     getObjectMetadata := oneObjectMetadata;
     raftLogResponse := raftLogResponse tailEnv;
     sendResult := fun _ => None |}.

(** A source bucket with the objects "a" and "b"; the metadata of "b"
    cannot be fetched. *)
Definition twoObjectList (b : string) : Outcome (list string) :=
  Done ["a"; "b"].
Definition secondMetadataFails (b k : string) : option Error * option string :=
  if bool_decide (k = "b") then (Some InternalError, None)
  else (None, Some "{}").

(** A source whose listing fails. *)
Definition failingList (b : string) : Outcome (list string) :=
  Failed InternalError.

(** The header of the response in [tailEnv]. *)
Definition tailHeader : Info :=
  {| info_start := Some 7; info_end := None;
     info_cseq := Some 10; info_prune := Some 1 |}.

(** The source answers with 32 records, as many as the record stream
    takes before the pipe pauses the response. *)
Definition longTailEnv : Env :=
  {| coordinatorUp := allUp;
     getObjectList := oneObjectList;
     getObjectMetadata := oneObjectMetadata;
     raftLogResponse := fun _ _ _ =>
       Producer.HeaderFirst tailHeader
         {| records := replicate 32 (logRecord "bucket1" "a");
            ending := Ends |};
     sendResult := fun _ => None |}.

(** The reader of [Scenario] with a batch that holds the three records
    of [tailEnv] on a stream of their own; and with a batch that holds a
    snapshot list of one entry and the init state reached. *)
Definition tailRead : State :=
  withBatch (fun _ =>
    setLogRes
      (Some {| info := tailHeader;
               log := LogStream {| records := threeRecords;
                                   ending := Ends |} |})
      newBatchState) (tailingReader 7).
Definition snapshotRead : State :=
  withBatch (fun _ =>
    setInitState
      (Some {| isStatusComplete := true; versionMarker := None;
               keyMarker := None; cseq := Some 7 |})
      (setLogRes
         (Some {| info := {| info_start := Some 1; info_end := None;
                             info_cseq := None; info_prune := None |};
                  log := LogArray [putEntry "object1"] |})
         newBatchState)) (freshReader 0).

Import Backlog BacklogSnapshot.

(** The metadata of a cluster with topic "T": partitions 0 and 1. *)
Definition topicsT : list TopicMetadata :=
  [ {| t_name := "other"; t_partitions := [0] |};
    {| t_name := "T"; t_partitions := [0; 1] |} ].

(** The positions of [consumerG]. *)
Definition positionsG : list TopicPartition :=
  [ {| tp_topic := "T"; tp_partition := 0; tp_offset := Some 90 |};
    {| tp_topic := "T"; tp_partition := 1; tp_offset := Some 195 |} ].

(** [publishedStore] after a snapshot "S" of topic "T": the snapshot
    offsets are 100 and 200, and group "G" stands at 90 and 195. *)
Definition snapshotStore : Store :=
  snd (snapshotTopicOffsets consumerG (Some topicsT) "T" (Some "S")
         publishedStore).

End MoreScenarios.

(* ===================================================================== *)
(** * Properties *)
(* ===================================================================== *)

(** ** Reasoning about callback-style code *)

Section Keeps.
Context {S X : Type} (g : S -> X).

(** Every run of [m], whatever its outcome, leaves the projection [g] of
    the state as it was. *)
Definition keeps {A} (m : M S A) : Prop :=
  forall s o s', m s = (o, s') -> g s' = g s.

Lemma keeps_ret {A} (a : A) : keeps (ret a).
Proof. intros s o s' [= _ <-]. reflexivity. Qed.

Lemma keeps_fail {A} e : keeps (@fail S A e).
Proof. intros s o s' [= _ <-]. reflexivity. Qed.

Lemma keeps_throw {A} e : keeps (@throw S A e).
Proof. intros s o s' [= _ <-]. reflexivity. Qed.

Lemma keeps_get : keeps (@get S).
Proof. intros s o s' [= _ <-]. reflexivity. Qed.

Lemma keeps_modify f : (forall s, g (f s) = g s) -> keeps (modify f).
Proof. intros H s o s' [= _ <-]. apply H. Qed.

Lemma keeps_bind {A B} (m : M S A) (k : A -> M S B) :
  keeps m -> (forall a, keeps (k a)) -> keeps (bind m k).
Proof.
  intros Hm Hk s o s'. unfold bind.
  destruct (m s) as [[a|e|e] s1] eqn:E; intros H.
  - rewrite (Hk _ _ _ _ H). eapply Hm, E.
  - injection H as _ <-. eapply Hm, E.
  - injection H as _ <-. eapply Hm, E.
Qed.

Lemma keeps_eachSeries {A} (f : A -> M S unit) l :
  (forall x, keeps (f x)) -> keeps (eachSeries f l).
Proof.
  intros Hf. induction l as [|x l IH]; cbn [eachSeries].
  - apply keeps_ret.
  - apply keeps_bind; [apply Hf | intros _; exact IH].
Qed.

Lemma keeps_asyncMap {A B} (f : A -> M S B) l :
  (forall x, keeps (f x)) -> keeps (asyncMap f l).
Proof.
  intros Hf. induction l as [|x l IH]; intros s o s'; cbn [asyncMap].
  - intros [= _ <-]. reflexivity.
  - destruct (f x s) as [[b|e|e] s1] eqn:E.
    + destruct (asyncMap f l s1) as [[bs|e|e] s2] eqn:E2;
        intros [= _ <-]; rewrite (IH _ _ _ E2); eapply Hf, E.
    + destruct (asyncMap f l s1) as [[bs|e'|e'] s2] eqn:E2;
        intros [= _ <-]; rewrite (IH _ _ _ E2); eapply Hf, E.
    + intros [= _ <-]. eapply Hf, E.
Qed.

Lemma keeps_asyncEach {A} (f : A -> M S unit) l :
  (forall x, keeps (f x)) -> keeps (asyncEach f l).
Proof.
  intros Hf. unfold asyncEach.
  apply keeps_bind; [apply keeps_asyncMap, Hf | intros _; apply keeps_ret].
Qed.

Lemma keeps_eachLimitFrom {A} (f : A -> M S unit) l n failed :
  (forall x, keeps (f x)) -> keeps (eachLimitFrom f n failed l).
Proof.
  intros Hf. revert n failed.
  induction l as [|x l IH]; intros n failed s o s'; cbn [eachLimitFrom].
  - destruct n; intros [= _ <-]; reflexivity.
  - destruct n as [|n]; [intros [= _ <-]; reflexivity|].
    destruct (f x s) as [[b|e|e] s1] eqn:E.
    + intros H. rewrite (IH _ _ _ _ _ H). eapply Hf, E.
    + intros H. rewrite (IH _ _ _ _ _ H). eapply Hf, E.
    + intros [= _ <-]. eapply Hf, E.
Qed.

Lemma keeps_asyncEachLimit {A} limit (f : A -> M S unit) l :
  (forall x, keeps (f x)) -> keeps (asyncEachLimit limit f l).
Proof. apply keeps_eachLimitFrom. Qed.

End Keeps.

Lemma keeps_weaken {S X Y A} (g : S -> X) (h : S -> Y) (m : M S A) :
  (forall s s', g s' = g s -> h s' = h s) -> keeps g m -> keeps h m.
Proof. intros Hgh Hm s o s' H. apply Hgh. eapply Hm, H. Qed.

(** Decompose a [keeps] goal along the structure of the code. *)
Ltac keeps_split :=
  repeat first
    [ apply keeps_ret | apply keeps_fail | apply keeps_throw | apply keeps_get
    | apply keeps_bind; [|intros ?]
    | apply keeps_eachSeries; intros ?
    | apply keeps_asyncEach; intros ?
    | apply keeps_asyncEachLimit; intros ?
    | apply keeps_asyncMap; intros ?
    | match goal with
      | |- keeps _ (match ?x with _ => _ end) => destruct x
      end ].

(** Inversion of a successful [bind]. *)
Lemma bind_Done {S A B} (m : M S A) (k : A -> M S B) s b s' :
  bind m k s = (Done b, s') ->
  exists a s1, m s = (Done a, s1) /\ k a s1 = (Done b, s').
Proof.
  unfold bind. destruct (m s) as [[a|e|e] s1]; [eauto|discriminate..].
Qed.

(** ** String splitting *)

Module JsFacts.
Import Js.

Lemma split_from_nonempty sep skip s : split_from sep skip s <> [].
Proof.
  revert skip. induction s as [|a s IH]; intros skip; cbn [split_from].
  - discriminate.
  - destruct skip; [|apply IH].
    destruct (String.prefix sep (String a s)); [discriminate|].
    destruct (split_from sep 0 s) eqn:E; discriminate.
Qed.

(** After a match, the characters still to be skipped are exactly the
    rest of the separator. *)
Lemma split_from_skip sep t r :
  split_from sep (String.length t) (t +:+ r) = split_from sep 0 r.
Proof.
  induction t as [|a t IH]; cbn [String.length String.append split_from].
  - reflexivity.
  - exact IH.
Qed.

Lemma length_append t r :
  String.length (t +:+ r) = (String.length t + String.length r)%nat.
Proof.
  induction t as [|a t IH]; [reflexivity|].
  change (S (String.length (t +:+ r))
          = S (String.length t + String.length r)).
  rewrite IH. reflexivity.
Qed.

Lemma join_cons_head sep a p ps :
  join sep (String a p :: ps) = String a (join sep (p :: ps)).
Proof. destruct ps; reflexivity. Qed.

Lemma join_cons_empty sep ps :
  ps <> [] -> join sep (EmptyString :: ps) = sep +:+ join sep ps.
Proof. destruct ps; [contradiction|reflexivity]. Qed.

Lemma prefix_app sep s :
  String.prefix sep s = true -> exists r, s = sep +:+ r.
Proof.
  revert sep. induction s as [|b s IH]; intros [|a sep];
    cbn [String.prefix].
  - intros _. exists EmptyString. reflexivity.
  - discriminate.
  - intros _. exists (String b s). reflexivity.
  - destruct (Ascii.ascii_dec a b) as [->|]; [|discriminate].
    intros H. destruct (IH _ H) as [r ->]. exists r. reflexivity.
Qed.

(** The first piece is the text before the first place where the
    separator matches: the key is that piece followed by nothing, or by
    a remainder that starts with the separator. *)
Lemma split_head_spec sep k :
  exists rest,
    k = head (split sep k) +:+ rest
    /\ (rest = EmptyString \/ String.prefix sep rest = true).
Proof.
  unfold split. induction k as [|a k IH]; cbn [split_from].
  - exists EmptyString. split; [reflexivity|left; reflexivity].
  - destruct (String.prefix sep (String a k)) eqn:E.
    + exists (String a k). split; [reflexivity|right; exact E].
    + destruct IH as (rest & Hk & Hrest).
      destruct (split_from sep 0 k) as [|p ps] eqn:Es.
      { exfalso. eapply split_from_nonempty, Es. }
      exists rest. split; [|exact Hrest].
      cbn [head hd] in *.
      change (String a k = String a (p +:+ rest)). rewrite <- Hk.
      reflexivity.
Qed.

(** The first piece of a split is the first piece of the string: the
    text before the first place where the separator matches. *)
Lemma split_head_is_first sep k :
  ReaderSpec.firstPiece sep k (head (split sep k)).
Proof.
  unfold split, ReaderSpec.firstPiece.
  induction k as [|a k IH]; cbn [split_from].
  - exists EmptyString. split_and!; [reflexivity|left; reflexivity|reflexivity].
  - destruct (String.prefix sep (String a k)) eqn:E.
    + exists (String a k). split_and!; [reflexivity|right; exact E|reflexivity].
    + destruct IH as (rest & Hk & Hrest & Hno).
      destruct (split_from sep 0 k) as [|p ps] eqn:Es.
      { exfalso. eapply split_from_nonempty, Es. }
      cbn [head hd] in *. exists rest.
      assert (String a k = String a p +:+ rest) as Hk'
        by (change (String a k = String a (p +:+ rest)); congruence).
      split_and!; [exact Hk'|exact Hrest|].
      cbn [ReaderSpec.noMatchWithin]. rewrite <- Hk', E, Hno. reflexivity.
Qed.


(** Joining the pieces with the separator gives the string back. *)
Lemma join_split sep s :
  sep <> EmptyString -> join sep (split sep s) = s.
Proof.
  intros Hsep. unfold split.
  remember (String.length s) as n eqn:Hn.
  revert s Hn. induction n as [n IH] using lt_wf_ind. intros s Hn.
  destruct s as [|a s]; [reflexivity|]. cbn [split_from].
  destruct (String.prefix sep (String a s)) eqn:E.
  - destruct (prefix_app _ _ E) as [r Hr].
    destruct sep as [|b t]; [contradiction|].
    change (String a s = String b (t +:+ r)) in Hr.
    injection Hr as Ha Hs. subst b s.
    cbn [String.length]. rewrite Nat.sub_succ, Nat.sub_0_r.
    rewrite split_from_skip.
    assert (join (String a t) (split_from (String a t) 0 r) = r) as Hj.
    { eapply IH; [|reflexivity]. subst n. cbn [String.length].
      rewrite length_append. lia. }
    rewrite join_cons_empty by apply split_from_nonempty.
    rewrite Hj. reflexivity.
  - assert (join sep (split_from sep 0 s) = s) as Hj.
    { eapply IH; [|reflexivity]. subst n. cbn [String.length]. lia. }
    destruct (split_from sep 0 s) as [|p ps] eqn:Es.
    { exfalso. eapply split_from_nonempty, Es. }
    rewrite join_cons_head, Hj. reflexivity.
Qed.

End JsFacts.

(** ** The ingestion producer *)

Module ProducerFacts.
Import Producer ProducerSpec.

(** C7 (amended). A log read whose transport answers 404 or 416 is not
    an error: the call resolves with [{info: {start: null, end: null}}],
    an object without a [log] property, and no record has been
    delivered; any other transport error is reported as a failure. *)
Theorem getRaftLog_not_found_is_empty statusCode :
  (statusCode = Some 404 \/ statusCode = Some 416 ->
   getRaftLog (ErrorFirst statusCode)
   = Done {| info := {| info_start := None; info_end := None;
                        info_cseq := None; info_prune := None |};
             log := LogUndefined |})
  /\ (statusCode <> Some 404 -> statusCode <> Some 416 ->
      getRaftLog (ErrorFirst statusCode) = Failed InternalError).
Proof.
  split.
  - intros [-> | ->]; reflexivity.
  - intros H4 H6. unfold getRaftLog.
    rewrite (bool_decide_eq_false_2 _ H4), (bool_decide_eq_false_2 _ H6).
    reflexivity.
Qed.

Lemma getRaftLog_not_found_is_empty_witness :
  getRaftLog (ErrorFirst (Some 416))
  = Done {| info := {| info_start := None; info_end := None;
                       info_cseq := None; info_prune := None |};
            log := LogUndefined |}
  /\ getRaftLog (ErrorFirst (Some 500)) = Failed InternalError.
Proof.
  split.
  - apply (getRaftLog_not_found_is_empty (Some 416)). right. reflexivity.
  - apply (getRaftLog_not_found_is_empty (Some 500)); discriminate.
Defined.

(** The value resolved on a 404 is not the one with [log: null]. *)
Lemma getRaftLog_404_has_no_log :
  ~ (forall statusCode,
       statusCode = Some 404 \/ statusCode = Some 416 ->
       getRaftLog (ErrorFirst statusCode)
       = Done {| info := {| info_start := None; info_end := None;
                            info_cseq := None; info_prune := None |};
                 log := LogNull |}).
Proof.
  intros H. specialize (H (Some 404) (or_introl eq_refl)). discriminate H.
Qed.

(** *** Two snapshots in a row *)

(** C6. On the producer of a reader, the second snapshot of an
    unchanged bucket does not return the events of the first: [resLog]
    is never reset, so the second call returns the first list followed
    by the same events again. *)
Theorem snapshot_twice_accumulates :
  let entry := {| e_db := None; e_type := Some "put";
                  e_bucket := Some "zenko-bucket1";
                  e_key := Some "object1"; e_value := Some "{}" |} in
  exists p1 p2,
    snapshot Scenario.oneObjectList Scenario.oneObjectMetadata "bucket1" (new "zenko")
      = (Done [entry], p1)
    /\ snapshot Scenario.oneObjectList Scenario.oneObjectMetadata "bucket1" p1
      = (Done [entry; entry], p2)
    /\ ~ [entry] ≡ₚ [entry; entry].
Proof.
  intros entry. eexists _, _. split; [reflexivity|].
  split; [reflexivity|].
  intros H. apply Permutation_length in H. discriminate H.
Qed.

(** *** The snapshot only ever appends to [resLog] *)

Lemma appends_ret {A} (a : A) : appends (ret a).
Proof. intros t pre r. reflexivity. Qed.

Lemma appends_bind {A B} (m : M State A) (k : A -> M State B) :
  appends m -> (forall a, appends (k a)) -> appends (bind m k).
Proof.
  intros Hm Hk t pre r. unfold bind. rewrite Hm.
  destruct (m {| _targetZenkoBucket := t; resLog := r |})
    as [[a|e|e] [t1 r1]]; cbn [fst snd _targetZenkoBucket resLog];
    [|reflexivity..].
  rewrite Hk. reflexivity.
Qed.

Lemma appends_eachSeries {A} (f : A -> M State unit) l :
  (forall x, appends (f x)) -> appends (eachSeries f l).
Proof.
  intros Hf. induction l as [|x l IH]; cbn [eachSeries].
  - apply appends_ret.
  - apply appends_bind; [apply Hf | intros _; exact IH].
Qed.

Lemma appends_asyncMap {A B} (f : A -> M State B) l :
  (forall x, appends (f x)) -> appends (asyncMap f l).
Proof.
  intros Hf. induction l as [|x l IH]; intros t pre r; cbn [asyncMap].
  - reflexivity.
  - rewrite Hf.
    destruct (f x {| _targetZenkoBucket := t; resLog := r |})
      as [[b|e|e] [t1 r1]]; cbn [fst snd _targetZenkoBucket resLog];
      [| |reflexivity]; rewrite IH;
      destruct (asyncMap f l {| _targetZenkoBucket := t1; resLog := r1 |})
        as [[bs|e'|e'] [t2 r2]]; reflexivity.
Qed.

Section Source.
Variable getObjectList : string -> Outcome (list string).
Variable getObjectMetadata : string -> string -> option Error * option string.

Lemma snapshot_body_appends bucketName :
  appends (bind (_getBucketObjects getObjectList [bucketName])
                (_getBucketObjectsMetadata getObjectMetadata)).
Proof.
  apply appends_bind.
  - unfold _getBucketObjects. apply appends_asyncMap. intros b.
    destruct (_ || _); [apply appends_ret|].
    intros t pre r. destruct (getObjectList b); reflexivity.
  - intros bucketList. unfold _getBucketObjectsMetadata.
    apply appends_eachSeries. intros [[name objects]|];
      [|apply appends_ret].
    apply appends_bind.
    + apply appends_asyncMap. intros key. apply appends_ret.
    + intros objectMDs. unfold _createAndPushEntry.
      destruct (_ <? _); [|apply appends_ret].
      apply appends_eachSeries. intros objectMd t pre r.
      unfold modify. cbn. rewrite app_assoc. reflexivity.
Qed.

Lemma snapshot_body_keeps_target bucketName :
  keeps _targetZenkoBucket
    (bind (_getBucketObjects getObjectList [bucketName])
          (_getBucketObjectsMetadata getObjectMetadata)).
Proof.
  unfold _getBucketObjects, _getBucketObjectsMetadata,
    _createAndPushEntry.
  keeps_split; try (apply keeps_modify; intros []; reflexivity).
  intros s o s'. destruct (getObjectList _); intros [= _ <-]; reflexivity.
Qed.

Lemma metadata_of_all name keys (s : State) :
  asyncMap (fun key =>
      ret {| res := snd (getObjectMetadata name key);
             objectKey := key; bucketName := name |}) keys s
  = (Done (objectMdOf getObjectMetadata name <$> keys), s).
Proof.
  induction keys as [|k keys IH]; [reflexivity|].
  cbn [asyncMap fmap list_fmap]. unfold ret at 1. rewrite IH.
  reflexivity.
Qed.

Lemma push_all mds s :
  eachSeries (fun objectMd =>
      modify (fun s =>
        {| _targetZenkoBucket := _targetZenkoBucket s;
           resLog := resLog s
                     ++ [createPutEntry objectMd (_targetZenkoBucket s)] |}))
    mds s
  = (Done tt,
     {| _targetZenkoBucket := _targetZenkoBucket s;
        resLog := resLog s
                  ++ ((fun md => createPutEntry md (_targetZenkoBucket s))
                        <$> mds) |}).
Proof.
  revert s. induction mds as [|md mds IH]; intros s.
  - cbn. rewrite app_nil_r. destruct s; reflexivity.
  - cbn [eachSeries fmap list_fmap]. unfold bind, modify at 1.
    rewrite IH. cbn [_targetZenkoBucket resLog].
    rewrite <- app_assoc. reflexivity.
Qed.

Lemma createAndPushEntry_all mds s :
  _createAndPushEntry mds s
  = (Done tt,
     {| _targetZenkoBucket := _targetZenkoBucket s;
        resLog := resLog s
                  ++ ((fun md => createPutEntry md (_targetZenkoBucket s))
                        <$> mds) |}).
Proof.
  unfold _createAndPushEntry. destruct mds as [|md mds].
  - cbn. rewrite app_nil_r. destruct s; reflexivity.
  - cbn [length]. rewrite (proj2 (Z.ltb_lt _ _)) by lia.
    apply push_all.
Qed.

(** A snapshot, by what the listing of the bucket answers. *)
Lemma snapshot_run bucket s :
  bucket <> usersBucket ->
  bucket <> metastoreBucket ->
  snapshot getObjectList getObjectMetadata bucket s
  = match getObjectList bucket with
    | Done keys =>
        (Done (resLog s ++ entriesOf getObjectMetadata (_targetZenkoBucket s) bucket keys),
         {| _targetZenkoBucket := _targetZenkoBucket s;
            resLog := resLog s
                      ++ entriesOf getObjectMetadata (_targetZenkoBucket s) bucket keys |})
    | Failed e => (Failed e, s)
    | Thrown e => (Thrown e, s)
    end.
Proof.
  intros Hu Hm.
  unfold snapshot, _getBucketObjects, _getBucketObjectsMetadata.
  unfold bind at 1. cbn [asyncMap].
  rewrite (bool_decide_eq_false_2 _ Hu), (bool_decide_eq_false_2 _ Hm).
  cbn [orb]. destruct (getObjectList bucket) as [keys|e|e];
    [|reflexivity..].
  unfold bind at 1. cbn [eachSeries]. unfold bind at 1 2.
  rewrite metadata_of_all, createAndPushEntry_all.
  unfold ret at 1. unfold bind, get, ret. cbn [resLog].
  unfold entriesOf. rewrite <- list_fmap_compose. reflexivity.
Qed.

(** The snapshot of one of the two special containers lists nothing
    and appends nothing. *)
Lemma snapshot_special bucket s :
  bucket = usersBucket \/ bucket = metastoreBucket ->
  snapshot getObjectList getObjectMetadata bucket s = (Done (resLog s), s).
Proof.
  intros H. unfold snapshot, _getBucketObjects, _getBucketObjectsMetadata.
  unfold bind at 1. cbn [asyncMap].
  assert (bool_decide (bucket = usersBucket)
          || bool_decide (bucket = metastoreBucket) = true) as ->.
  { destruct H as [-> | ->]; reflexivity. }
  reflexivity.
Qed.

(** A snapshot raises an exception only if the listing does. *)
Lemma snapshot_calls_back bucket s e :
  fst (snapshot getObjectList getObjectMetadata bucket s) = Thrown e ->
  getObjectList bucket = Thrown e.
Proof.
  destruct (decide (bucket = usersBucket)) as [Hu|Hu];
    [rewrite snapshot_special by (left; exact Hu); discriminate|].
  destruct (decide (bucket = metastoreBucket)) as [Hm|Hm];
    [rewrite snapshot_special by (right; exact Hm); discriminate|].
  rewrite (snapshot_run bucket s Hu Hm).
  destruct (getObjectList bucket); cbn [fst]; congruence.
Qed.

(** Whatever the source holds: a second successful snapshot on the
    same producer returns the list of the first one twice over. *)
Lemma snapshot_again_doubles name bucketName l1 p1 l2 p2 :
  snapshot getObjectList getObjectMetadata bucketName (new name)
    = (Done l1, p1) ->
  snapshot getObjectList getObjectMetadata bucketName p1
    = (Done l2, p2) ->
  l2 = l1 ++ l1.
Proof.
  unfold snapshot. intros H1 H2.
  apply bind_Done in H1 as (bl1 & sa1 & G1 & H1).
  apply bind_Done in H1 as (u1 & s1 & M1 & R1).
  apply bind_Done in H2 as (bl2 & sa2 & G2 & H2).
  apply bind_Done in H2 as (u2 & s2 & M2 & R2).
  injection R1 as <- <-. injection R2 as <- <-.
  set (body := bind (_getBucketObjects getObjectList [bucketName])
                    (_getBucketObjectsMetadata getObjectMetadata)).
  assert (body (new name) = (Done u1, s1)) as B1
    by (unfold body, bind; rewrite G1; exact M1).
  assert (body s1 = (Done u2, s2)) as B2
    by (unfold body, bind; rewrite G2; exact M2).
  pose proof (snapshot_body_keeps_target bucketName _ _ _ B1) as T1.
  cbn in T1.
  pose proof (snapshot_body_appends bucketName name (resLog s1) []) as A.
  fold body in A. rewrite app_nil_r in A.
  destruct s1 as [t1 r1]. cbn in T1. subst t1.
  cbn [resLog] in *. rewrite B2 in A.
  unfold new in B1. rewrite B1 in A. cbn in A.
  destruct u1, u2. injection A as ->. reflexivity.
Qed.
End Source.

End ProducerFacts.

(** ** The ingestion reader *)

Module ReaderFacts.
Import Reader ReaderSpec.

Ltac by_fields :=
  intros;
  repeat match goal with s : State |- _ => destruct s end;
  repeat match goal with b : BatchState |- _ => destruct b end;
  reflexivity.

Ltac keeps_walk :=
  keeps_split; try (apply keeps_modify; by_fields).

Lemma initPath_inj base a b : initPath base a = initPath base b -> a = b.
Proof.
  unfold initPath. intros H.
  apply (inj (String.app base)) in H.
  apply (inj (String.app "/")) in H. exact H.
Qed.

Lemma initPath_ne base a b : a <> b -> initPath base a <> initPath base b.
Proof. intros H E. apply H. eapply initPath_inj; eauto. Qed.

Section InitState.
Variable base : string.
Variable env : Env.
Hypothesis up : forall c, coordinatorUp env c = true.

(** Reading one init node never fails while the Coordinator answers:
    an absent node is created empty and read as [undefined]. *)
Lemma readInitNode_up n st :
  readInitNode base env n st =
    (Done (default None (zkNodes st !! initPath base n)),
     match zkNodes st !! initPath base n with
     | Some _ => st
     | None => setZkNodes (<[initPath base n := None]> (zkNodes st)) st
     end).
Proof.
  unfold readInitNode, getData, mkdirp, bind, ret. rewrite up.
  destruct (zkNodes st !! initPath base n) eqn:E; cbn; [reflexivity|].
  rewrite ?up, ?E. reflexivity.
Qed.

Lemma readInitState_total st :
  exists r st', _readInitState base env st = (Done r, st')
    /\ isStatusComplete r
       = bool_decide (zkNodes st !! initPath base "isStatusComplete" = Some (Some "true"))
    /\ versionMarker r = default None (zkNodes st !! initPath base "versionMarker")
    /\ keyMarker r = default None (zkNodes st !! initPath base "keyMarker")
    /\ cseq r = None
    /\ logOffset st' = logOffset st /\ zkLogOffset st' = zkLogOffset st
    /\ batchState st' = batchState st.
Proof.
  assert (initPath base "isStatusComplete" <> initPath base "versionMarker")
    as Hsv by (apply initPath_ne; discriminate).
  assert (initPath base "isStatusComplete" <> initPath base "keyMarker")
    as Hsk by (apply initPath_ne; discriminate).
  assert (initPath base "versionMarker" <> initPath base "keyMarker")
    as Hvk by (apply initPath_ne; discriminate).
  unfold _readInitState, bind, getInitIngestionNodes. cbn [asyncMap].
  rewrite !readInitNode_up.
  destruct st as [lo bp bs zk zlo ws fc sb ip]; cbn [zkNodes].
  destruct (zk !! initPath base "isStatusComplete") as [dS|] eqn:ES;
    destruct (zk !! initPath base "versionMarker") as [dV|] eqn:EV;
    destruct (zk !! initPath base "keyMarker") as [dK|] eqn:EK;
    cbn;
    repeat (first [ rewrite ES | rewrite EV | rewrite EK
                  | rewrite lookup_insert_ne by congruence
                  | progress cbn ]);
    eexists _, _; (split; [reflexivity|]); cbn;
    (split; [|done]);
    unfold Js.strictEq; apply bool_decide_ext; naive_solver.
Qed.

Lemma setData_up p d st :
  is_Some (zkNodes st !! p) ->
  setData env p d st = (Done tt, setZkNodes (<[p := Some d]> (zkNodes st)) st).
Proof. intros [x Hx]. unfold setData. rewrite up, Hx. reflexivity. Qed.

(** Writing an init state over existing nodes succeeds and stores the
    three texts. *)
Lemma writeInitState_up ist st :
  (forall n, n ∈ getInitIngestionNodes -> is_Some (zkNodes st !! initPath base n)) ->
  _writeInitState base env (Some ist) st =
    (Done tt,
     setZkNodes
       (<[initPath base "keyMarker" := Some (initNodeData ist "keyMarker")]>
         (<[initPath base "versionMarker" := Some (initNodeData ist "versionMarker")]>
           (<[initPath base "isStatusComplete" := Some (initNodeData ist "isStatusComplete")]>
              (zkNodes st)))) st).
Proof.
  intros Hex.
  assert (initPath base "isStatusComplete" <> initPath base "versionMarker")
    as Hsv by (apply initPath_ne; discriminate).
  assert (initPath base "isStatusComplete" <> initPath base "keyMarker")
    as Hsk by (apply initPath_ne; discriminate).
  assert (initPath base "versionMarker" <> initPath base "keyMarker")
    as Hvk by (apply initPath_ne; discriminate).
  pose proof (Hex "isStatusComplete" ltac:(unfold getInitIngestionNodes; set_solver)) as HS.
  pose proof (Hex "versionMarker" ltac:(unfold getInitIngestionNodes; set_solver)) as HV.
  pose proof (Hex "keyMarker" ltac:(unfold getInitIngestionNodes; set_solver)) as HK.
  unfold _writeInitState, asyncEach, bind, getInitIngestionNodes.
  cbn [asyncMap].
  rewrite (setData_up _ _ st HS).
  rewrite setData_up
    by (destruct st; cbn; rewrite lookup_insert_ne by congruence; exact HV).
  rewrite setData_up
    by (destruct st; cbn; rewrite !lookup_insert_ne by congruence; exact HK).
  destruct st; reflexivity.
Qed.
End InitState.

Section Instance.
Variable bucket : string.
Variable target : string.
Variable base : string.
Variable raftId : Z.
Variable exts : list Extension.
Variable VID_SEP : string.

(** *** Coordinator calls only touch the init nodes *)

Lemma getData_keeps env p : keeps offNodes (getData env p).
Proof.
  intros s o s'. unfold getData.
  destruct (coordinatorUp env _); [destruct (zkNodes s !! p)|];
    intros [= _ <-]; reflexivity.
Qed.

Lemma mkdirp_keeps env p : keeps offNodes (mkdirp env p).
Proof.
  intros s o s'. unfold mkdirp.
  destruct (coordinatorUp env _); [destruct (zkNodes s !! p)|];
    intros [= _ <-]; destruct s; reflexivity.
Qed.

Lemma setData_keeps env p d : keeps offNodes (setData env p d).
Proof.
  intros s o s'. unfold setData.
  destruct (coordinatorUp env _); [destruct (zkNodes s !! p)|];
    intros [= _ <-]; destruct s; reflexivity.
Qed.

Lemma readInitNode_keeps env n : keeps offNodes (readInitNode base env n).
Proof.
  intros s o s'. unfold readInitNode.
  destruct (getData env (initPath base n) s) as [[d|e|e] s1] eqn:E.
  - intros [= _ <-]. eapply getData_keeps, E.
  - destruct (bool_decide (e <> NO_NODE)).
    + intros [= _ <-]. eapply getData_keeps, E.
    + intros H. transitivity (offNodes s1); [|eapply getData_keeps, E].
      eapply (keeps_bind offNodes);
        [apply mkdirp_keeps | intros ?; apply keeps_ret | exact H].
  - intros [= _ <-]. eapply getData_keeps, E.
Qed.

Lemma readInitState_keeps env : keeps offNodes (_readInitState base env).
Proof.
  unfold _readInitState. keeps_walk. apply readInitNode_keeps.
Qed.

Lemma writeInitState_keeps env ist :
  keeps offNodes (_writeInitState base env ist).
Proof.
  unfold _writeInitState. keeps_walk. apply setData_keeps.
Qed.

(** *** The prepare phase *)

Lemma callFilters_keeps ev : keeps prepareFrame (callFilters exts ev).
Proof. unfold callFilters. keeps_walk. Qed.

Lemma processLogEntry_keeps rdb entry :
  keeps prepareFrame (_processLogEntry target exts rdb entry).
Proof.
  unfold _processLogEntry, splitKey. keeps_walk;
    apply callFilters_keeps.
Qed.



Lemma onData_keeps record :
  keeps prepareFrame (onData bucket target exts record).
Proof.
  unfold onData, _setEntryBatch, _unsetEntryBatch. keeps_walk.
  apply processLogEntry_keeps.
Qed.

Lemma processPrepareEntries_keeps :
  keeps prepareFrame (_processPrepareEntries bucket target exts VID_SEP).
Proof.
  unfold _processPrepareEntries, _setEntryBatch, _unsetEntryBatch,
    _isVersionedLogKey, splitKey.
  keeps_walk; first [apply processLogEntry_keeps | apply onData_keeps].
Qed.

(** *** The read phase *)

(** With the snapshot marked complete the reader tails the log: the
    outcome is that of [getRaftLog] at [startSeq = logOffset]. *)
Lemma processReadRecords_tail env maxRead st :
  (forall c, coordinatorUp env c = true) ->
  zkNodes st !! initPath base "isStatusComplete" = Some (Some "true") ->
  exists st1,
    offNodes st1 = offNodes st /\
    _processReadRecords bucket base raftId maxRead env st =
      match Producer.getRaftLog
              (raftLogResponse env raftId (logOffset st) maxRead) with
      | Done data => (Done tt, withBatch (setLogRes (Some data)) st1)
      | Failed e => (Failed e, st1)
      | Thrown e => (Thrown e, st1)
      end.
Proof.
  intros up Hs.
  destruct (readInitState_total base env up st)
    as (r & st1 & Hr & Hc & _).
  pose proof (readInitState_keeps env _ _ _ Hr) as Hk.
  exists st1. split; [exact Hk|].
  unfold _processReadRecords, bind. rewrite Hr, Hc.
  rewrite bool_decide_eq_true_2 by exact Hs.
  unfold get.
  assert (logOffset st1 = logOffset st) as ->
    by (unfold offNodes, progress in Hk; congruence).
  destruct (Producer.getRaftLog _); reflexivity.
Qed.

(** The call of the producer's snapshot never comes back: the
    producer is left as its snapshot leaves it, the rest of the reader
    as it was. *)
Lemma callSnapshot_throws env st :
  exists e,
    callSnapshot bucket env st
    = (Thrown e,
       setProducer
         (snd (Producer.snapshot (getObjectList env) (getObjectMetadata env)
                 bucket (_iProducer st))) st)
    /\ ((forall e', getObjectList env bucket <> Thrown e') ->
        e = TypeError).
Proof.
  unfold callSnapshot.
  destruct (Producer.snapshot _ _ bucket (_iProducer st))
    as [[l|e|e] p] eqn:E; cbn [snd].
  - exists TypeError. auto.
  - exists TypeError. auto.
  - exists e. split; [reflexivity|]. intros H. exfalso. apply (H e).
    eapply ProducerFacts.snapshot_calls_back. rewrite E. reflexivity.
Qed.

Lemma callSnapshot_keeps env :
  keeps (fun s => (progress s, _batchInProgress s, batchState s,
                   zkNodes s, filterCalls s, sentBatches s))
        (callSnapshot bucket env).
Proof.
  intros s o s'. unfold callSnapshot.
  destruct (Producer.snapshot _ _ bucket (_iProducer s)) as [[l|e|e] p];
    intros [= _ <-]; destruct s; reflexivity.
Qed.

(** Otherwise it calls the producer's snapshot. *)
Lemma processReadRecords_snapshot env maxRead st :
  (forall c, coordinatorUp env c = true) ->
  zkNodes st !! initPath base "isStatusComplete" <> Some (Some "true") ->
  exists st1,
    offNodes st1 = offNodes st /\
    _processReadRecords bucket base raftId maxRead env st
    = callSnapshot bucket env st1.
Proof.
  intros up Hs.
  destruct (readInitState_total base env up st)
    as (r & st1 & Hr & Hc & _).
  pose proof (readInitState_keeps env _ _ _ Hr) as Hk.
  exists st1. split; [exact Hk|].
  unfold _processReadRecords, bind. rewrite Hr, Hc.
  rewrite bool_decide_eq_false_2 by exact Hs. reflexivity.
Qed.

(** *** What the reader receives of a piped stream *)

Lemma pipedRecords_length recs :
  Producer.pausesSource recs = false ->
  length (Producer.pipedRecords recs) = length recs.
Proof.
  unfold Producer.pausesSource, Producer.pipedRecords. intros H.
  apply bool_decide_eq_false in H.
  rewrite length_app, length_fmap, !length_take, length_drop. lia.
Qed.

(** *** Counting records in the tail phase *)



(** *** The publish phase stages an offset before it looks at the
    entries *)


Lemma processPublishEntries_snapshot env s o s' ist c :
  initState (batchState s) = Some ist ->
  cseq ist = Some c -> c <> 0 ->
  _processPublishEntries target env s = (o, s') ->
  nextLogOffset (batchState s') = Some c.
Proof.
  intros Hi Hc Hz. unfold _processPublishEntries, bind, get.
  rewrite Hi, Hc. rewrite bool_decide_eq_false_2 by exact Hz.
  unfold ret, modify, throw, fail.
  destruct (entriesToPublish (batchState s) !! target) as [entries_|];
    [|intros [= _ <-]; destruct s as [? ? [] ? ? ? ? ? ?]; reflexivity].
  destruct (bool_decide (length entries_ = 0%nat));
    [intros [= _ <-]; destruct s as [? ? [] ? ? ? ? ? ?]; reflexivity|].
  destruct (sendResult env entries_);
    intros [= _ <-]; destruct s as [? ? [] ? ? ? ? ? ?]; reflexivity.
Qed.

(** The publish phase changes neither the progress, nor the init
    nodes, nor the init state of the batch. *)
Lemma processPublishEntries_keeps env :
  keeps (fun s => (progress s, zkNodes s, _batchInProgress s,
                   initState (batchState s)))
        (_processPublishEntries target env).
Proof. unfold _processPublishEntries, _publishMetrics. keeps_walk. Qed.


(** *** The checkpoint *)

Lemma advances_refl s : advances s s.
Proof.
  split_and!; [lia|lia|auto|]. exists [].
  rewrite app_nil_r. split_and!; [reflexivity|constructor|].
  intros w Hw. inversion Hw.
Qed.

Lemma advances_trans a b c : advances a b -> advances b c -> advances a c.
Proof.
  intros (H1 & H2 & H3 & ws1 & Hw1 & Hs1 & Hb1)
         (H4 & H5 & H6 & ws2 & Hw2 & Hs2 & Hb2).
  split_and!; [lia|lia|auto|].
  exists (ws1 ++ ws2). rewrite Hw2, Hw1, app_assoc.
  split_and!; [reflexivity| |].
  - apply StronglySorted_app_2; [|assumption..].
    intros x1 x2 Hx1 Hx2. specialize (Hb1 _ Hx1).
    specialize (Hb2 _ Hx2). lia.
  - intros w [Hw|Hw]%elem_of_app;
      [specialize (Hb1 _ Hw) | specialize (Hb2 _ Hw)]; lia.
Qed.

Lemma advances_same s s' : progress s' = progress s -> advances s s'.
Proof.
  unfold progress. intros [= H1 H2 H3].
  split_and!; [lia|lia|lia|]. exists [].
  rewrite app_nil_r. split_and!; [congruence|constructor|].
  intros w Hw. inversion Hw.
Qed.

(** What the checkpoint does to the progress, case by case: nothing;
    the reader's offset is raised to the staged one, which the node
    already holds or exceeds; it is raised and the write fails; it is
    raised and written; or the staged offset is below the reader's,
    which is written to a node that was behind it. *)
Lemma processSaveLogOffset_cases env s o s' :
  _processSaveLogOffset base env s = (o, s') ->
  batchState s' = batchState s
  /\ ((progress s' = progress s
       /\ (o = Done tt ->
           forall n, nextLogOffset (batchState s) = Some n ->
                     n <> logOffset s ->
                     n < logOffset s <= zkLogOffset s))
      \/ exists n,
           nextLogOffset (batchState s) = Some n
           /\ ((logOffset s < n /\ logOffset s' = n
                /\ zkLogOffset s' = zkLogOffset s
                /\ logOffsetWrites s' = logOffsetWrites s
                /\ ((o = Done tt /\ n <= zkLogOffset s)
                    \/ (o = Failed CoordinatorError
                        /\ zkLogOffset s < n
                        /\ coordinatorUp env WriteLogOffset = false)))
               \/ (o = Done tt
                   /\ n <> logOffset s
                   /\ logOffset s' = Z.max (logOffset s) n
                   /\ zkLogOffset s < Z.max (logOffset s) n
                   /\ zkLogOffset s' = Z.max (logOffset s) n
                   /\ logOffsetWrites s'
                      = logOffsetWrites s ++ [Z.max (logOffset s) n]))).
Proof.
  unfold _processSaveLogOffset, bind, get.
  destruct (_writeInitState base env (initState (batchState s)) s)
    as [[[]|e|e] s1] eqn:E;
    pose proof (writeInitState_keeps env _ _ _ _ E) as Hk;
    unfold offNodes, progress in Hk;
    assert (batchState s1 = batchState s) as Hb by congruence;
    assert (logOffset s1 = logOffset s) as Hl by congruence;
    assert (zkLogOffset s1 = zkLogOffset s) as Hz by congruence;
    assert (logOffsetWrites s1 = logOffsetWrites s) as Hw by congruence;
    clear Hk E.
  2,3: intros [= <- <-]; split; [exact Hb|]; left;
       split; [unfold progress; congruence|discriminate].
  rewrite Hb, Hl.
  destruct (nextLogOffset (batchState s)) as [n|] eqn:En.
  2: { intros [= <- <-]. split; [exact Hb|]. left.
       split; [unfold progress; congruence|]. intros _ m Hm. discriminate. }
  destruct (bool_decide (n <> logOffset s)) eqn:Hne.
  2: { apply bool_decide_eq_false in Hne.
       assert (n = logOffset s) as ->
         by (destruct (decide (n = logOffset s)); tauto).
       intros [= <- <-]. split; [exact Hb|]. left.
       split; [unfold progress; congruence|].
       intros _ m [= <-] Hm. contradiction. }
  apply bool_decide_eq_true in Hne.
  unfold modify, ret, _writeLogOffset.
  destruct s1 as [lo1 bp1 bs1 zk1 zlo1 ws1 fc1 sb1 ip1].
  cbn [logOffset zkLogOffset logOffsetWrites batchState] in Hb, Hl, Hz, Hw.
  subst lo1 bs1 zlo1 ws1.
  destruct (Z.ltb_spec (logOffset s) n) as [Hlt|Hge];
    cbn [setLogOffset logOffset zkLogOffset].
  - destruct (Z.ltb_spec (zkLogOffset s) n) as [Hzl|Hzg];
      [destruct (coordinatorUp env WriteLogOffset) eqn:Hup|];
      intros [= <- <-]; (split; [reflexivity|]);
      cbn [logOffset zkLogOffset logOffsetWrites storeLogOffset progress];
      right; exists n; (split; [reflexivity|]).
    + right. rewrite Z.max_r by lia. split_and!; auto.
    + left. split_and!; auto.
    + left. split_and!; auto.
  - destruct (Z.ltb_spec (zkLogOffset s) (logOffset s)) as [Hzl|Hzg];
      [destruct (coordinatorUp env WriteLogOffset) eqn:Hup|];
      intros [= <- <-]; (split; [reflexivity|]);
      cbn [logOffset zkLogOffset logOffsetWrites storeLogOffset progress].
    + right. exists n. split; [reflexivity|]. right.
      rewrite Z.max_l by lia. split_and!; auto.
    + left. split; [reflexivity|discriminate].
    + left. split; [reflexivity|]. intros _ m [= <-] _. lia.
Qed.

Lemma processSaveLogOffset_advances env s o s' :
  _processSaveLogOffset base env s = (o, s') -> advances s s'.
Proof.
  intros H. apply processSaveLogOffset_cases in H as [_ H].
  destruct H as [[Hp _]|(n & Hn & [(Hlt & Hl & Hz & Hw & Ho)
                                  |(Ho & Hne & Hl & Hzl & Hz & Hw)])].
  - apply advances_same, Hp.
  - split_and!; [lia|lia| |].
    + intros Hle. destruct Ho as [[_ ?]|(_ & ? & _)]; lia.
    + exists []. rewrite app_nil_r. split_and!; [assumption|constructor|].
      intros w Hw'. inversion Hw'.
  - split_and!; [lia|lia|lia|].
    exists [Z.max (logOffset s) n]. split_and!; [assumption| |].
    + repeat constructor.
    + intros w Hw'. apply list_elem_of_singleton in Hw' as ->. lia.
Qed.

(** A checkpoint of a reader in step with its node writes the node
    only to raise it to a staged offset that is strictly greater than
    the reader's; when it completes, the reader is in step again. *)
Lemma processSaveLogOffset_inStep env s o s' :
  _processSaveLogOffset base env s = (o, s') ->
  inStep s ->
  writesOnlyForward s s' /\ (o = Done tt -> inStep s').
Proof.
  unfold inStep, writesOnlyForward. intros H Hin.
  apply processSaveLogOffset_cases in H as [Hb H]. rewrite Hb.
  destruct H as [[Hp Hd]|(n & Hn & [(Hlt & Hl & Hz & Hw & Ho)
                                   |(Ho & Hne & Hl & Hzl & Hz & Hw)])].
  - unfold progress in Hp. injection Hp as Hl Hz Hw.
    split; [left; auto|]. intros _. congruence.
  - split; [left; auto|]. intros ->.
    destruct Ho as [[_ ?]|[? _]]; [lia|discriminate].
  - assert (logOffset s < n) as Hlt by lia.
    rewrite Z.max_r in * by lia.
    split; [right; exists n; auto|]. intros _. congruence.
Qed.

(** *** A whole batch cycle *)

Lemma progress_of_offNodes s s' :
  offNodes s' = offNodes s -> progress s' = progress s.
Proof. unfold offNodes. congruence. Qed.

Lemma progress_of_prepareFrame s s' :
  prepareFrame s' = prepareFrame s -> progress s' = progress s.
Proof. unfold prepareFrame. congruence. Qed.

Lemma processReadRecords_keeps env maxRead :
  keeps progress (_processReadRecords bucket base raftId maxRead env).
Proof.
  unfold _processReadRecords. keeps_walk.
  - eapply keeps_weaken; [apply progress_of_offNodes|].
    apply readInitNode_keeps.
  - eapply keeps_weaken; [|apply callSnapshot_keeps].
    intros s s'. congruence.
Qed.

Lemma processPrepareEntries_keeps_progress :
  keeps progress (_processPrepareEntries bucket target exts VID_SEP).
Proof.
  eapply keeps_weaken; [apply progress_of_prepareFrame|].
  apply processPrepareEntries_keeps.
Qed.

Lemma processPublishEntries_keeps_progress env :
  keeps progress (_processPublishEntries target env).
Proof.
  eapply keeps_weaken; [|apply processPublishEntries_keeps].
  intros s s'. congruence.
Qed.

(** A batch cycle touches the progress in its checkpoint only: either
    it ends before, or it ends as its checkpoint does. *)
Lemma processLogEntries_checkpoint maxRead env s o s' :
  processLogEntries bucket target base raftId exts VID_SEP maxRead env s
    = (o, s') ->
  (o <> Done tt /\ progress s' = progress s)
  \/ exists s3 s4,
       progress s3 = progress s
       /\ _processSaveLogOffset base env s3 = (o, s4)
       /\ progress s' = progress s4
       /\ batchState s' = batchState s4.
Proof.
  unfold processLogEntries.
  set (s0 := withBatch _ (setBatchInProgress true s)).
  assert (progress s0 = progress s) as H0 by (destruct s; reflexivity).
  assert (forall v x, progress (setBatchInProgress v x) = progress x)
    as Hflag by (intros v []; reflexivity).
  assert (forall v x, batchState (setBatchInProgress v x) = batchState x)
    as Hflagb by (intros v []; reflexivity).
  unfold bind.
  destruct (_processReadRecords bucket base raftId maxRead env s0)
    as [[u|e|e] s1] eqn:E1;
    pose proof (processReadRecords_keeps env maxRead _ _ _ E1) as K1.
  2,3: intros [= <- <-]; left; rewrite ?Hflag;
       split; [discriminate|congruence].
  destruct (_processPrepareEntries bucket target exts VID_SEP s1)
    as [[u2|e|e] s2] eqn:E2;
    pose proof (processPrepareEntries_keeps_progress _ _ _ E2) as K2.
  2,3: intros [= <- <-]; left; rewrite ?Hflag;
       split; [discriminate|congruence].
  destruct (_processPublishEntries target env s2)
    as [[u3|e|e] s3] eqn:E3;
    pose proof (processPublishEntries_keeps_progress env _ _ _ E3) as K3.
  2,3: intros [= <- <-]; left; rewrite ?Hflag;
       split; [discriminate|congruence].
  destruct (_processSaveLogOffset base env s3) as [o4 s4] eqn:E4.
  intros H. right. exists s3, s4.
  split; [congruence|].
  destruct o4 as [[]|e|e]; injection H as <- <-;
    rewrite ?Hflag, ?Hflagb; auto.
Qed.

Lemma processLogEntries_advances maxRead env s o s' :
  processLogEntries bucket target base raftId exts VID_SEP maxRead env s
    = (o, s') ->
  advances s s'.
Proof.
  intros H.
  apply processLogEntries_checkpoint in H
    as [[_ Hp]|(s3 & s4 & P3 & Hsave & P4 & _)].
  - apply advances_same, Hp.
  - eapply advances_trans; [apply advances_same, P3|].
    eapply advances_trans;
      [eapply processSaveLogOffset_advances, Hsave|].
    apply advances_same, P4.
Qed.

Lemma runBatches_advances maxRead envs s :
  advances s
    (runBatches bucket target base raftId exts VID_SEP maxRead envs s).
Proof.
  revert s. induction envs as [|env envs IH]; intros s; cbn [runBatches].
  - apply advances_refl.
  - eapply advances_trans; [|apply IH].
    eapply processLogEntries_advances. apply surjective_pairing.
Qed.

Lemma processLogEntries_inStep maxRead env s o s' :
  processLogEntries bucket target base raftId exts VID_SEP maxRead env s
    = (o, s') ->
  inStep s ->
  writesOnlyForward s s' /\ (o = Done tt -> inStep s').
Proof.
  intros H Hin.
  apply processLogEntries_checkpoint in H
    as [[Ho Hp]|(s3 & s4 & P3 & Hsave & P4 & B4)].
  - unfold progress in Hp. injection Hp as Hl Hz Hw.
    split; [left; auto|]. intros ->. contradiction.
  - unfold progress in P3, P4. injection P3 as Hl3 Hz3 Hw3.
    injection P4 as Hl4 Hz4 Hw4.
    destruct (processSaveLogOffset_inStep env s3 o s4 Hsave) as [Hf Hd].
    { unfold inStep in *. congruence. }
    unfold inStep, writesOnlyForward in *.
    rewrite Hl4, Hz4, Hw4, B4, <- Hl3, <- Hz3, <- Hw3. auto.
Qed.

(** C2. Across any sequence of batch cycles, however each one ends,
    the reader's [logOffset] never goes back and neither does the
    offset node, to which strictly increasing values are written.  In
    a sequence of completed cycles of a reader that starts in step
    with its node, every cycle starts in step and ends in step, and it
    writes the node only when the offset it staged is strictly greater
    than the [logOffset] it started from. *)
Theorem logOffset_never_goes_back maxRead envs st :
  advances st
    (runBatches bucket target base raftId exts VID_SEP maxRead envs st)
  /\ (inStep st ->
      Forall (fun step => step.1.2 = Done tt)
        (batchSteps bucket target base raftId exts VID_SEP maxRead envs st) ->
      Forall (fun step =>
                inStep step.1.1 /\ inStep step.2
                /\ writesOnlyForward step.1.1 step.2)
        (batchSteps bucket target base raftId exts VID_SEP maxRead envs st)).
Proof.
  split; [apply runBatches_advances|].
  revert st. induction envs as [|env envs IH]; intros st Hin Hdone;
    cbn [batchSteps] in *; [constructor|].
  apply Forall_cons in Hdone as [Ho Hdone]. cbn [fst snd] in Ho.
  destruct (processLogEntries_inStep maxRead env st _ _
              (surjective_pairing _) Hin) as [Hf Hd].
  specialize (Hd Ho).
  constructor; [cbn [fst snd]; auto|].
  apply IH; assumption.
Qed.

(** C1. A batch cycle of a reader whose snapshot is not marked complete
    never reaches its checkpoint.  It calls the producer's snapshot,
    which lists the bucket and then raises an exception instead of
    handing anything back: no [initState] and no [cseq] reach the
    batch, no offset is staged, nothing is shown to the extensions or
    sent, the progress is as it was, and [_batchInProgress] stays
    set. *)
Theorem snapshot_batch_throws maxRead env st :
  (forall c, coordinatorUp env c = true) ->
  zkNodes st !! initPath base "isStatusComplete" <> Some (Some "true") ->
  exists e st',
    processLogEntries bucket target base raftId exts VID_SEP maxRead env st
      = (Thrown e, st')
    /\ ((forall e', getObjectList env bucket <> Thrown e') -> e = TypeError)
    /\ _iProducer st'
       = snd (Producer.snapshot (getObjectList env) (getObjectMetadata env)
                bucket (_iProducer st))
    /\ initState (batchState st') = None
    /\ logRes (batchState st') = None
    /\ nextLogOffset (batchState st') = None
    /\ progress st' = progress st
    /\ filterCalls st' = filterCalls st
    /\ sentBatches st' = sentBatches st
    /\ _batchInProgress st' = true.
Proof.
  intros up Hs. unfold processLogEntries.
  set (s0 := withBatch _ (setBatchInProgress true st)).
  destruct (processReadRecords_snapshot env maxRead s0 up)
    as (sa & Hk & Hrd).
  { subst s0. destruct st; exact Hs. }
  destruct (callSnapshot_throws env sa) as (e & Hcall & He).
  unfold bind at 1. rewrite Hrd, Hcall.
  exists e. eexists. split; [reflexivity|]. split; [exact He|].
  unfold offNodes, progress in Hk.
  destruct sa as [lo bp bs zk zlo ws fc sb ip].
  subst s0. destruct st as [lo0 bp0 bs0 zk0 zlo0 ws0 fc0 sb0 ip0].
  cbn in Hk |- *. injection Hk as -> -> -> -> -> -> -> ->.
  split_and!; reflexivity.
Qed.

(** C4. A tail-phase batch whose log read ends in a 404 or a 416 does
    not complete: the read and prepare phases pass, the publish phase
    stages [nextLogOffset = null + 0] and then reads the length of
    [entriesToPublish[target]], which nothing has created.  No event
    is published and the progress is unchanged, but the batch never
    calls back and [_batchInProgress] stays set. *)
Theorem empty_tail_batch_throws maxRead env st statusCode :
  (forall c, coordinatorUp env c = true) ->
  zkNodes st !! initPath base "isStatusComplete" = Some (Some "true") ->
  raftLogResponse env raftId (logOffset st) maxRead
    = Producer.ErrorFirst statusCode ->
  statusCode = Some 404 \/ statusCode = Some 416 ->
  exists st',
    processLogEntries bucket target base raftId exts VID_SEP maxRead env st
      = (Thrown TypeError, st')
    /\ progress st' = progress st
    /\ sentBatches st' = sentBatches st
    /\ filterCalls st' = filterCalls st
    /\ nextLogOffset (batchState st') = Some 0
    /\ _batchInProgress st' = true.
Proof.
  intros up Hs Hresp Hsc. unfold processLogEntries.
  set (s0 := withBatch _ (setBatchInProgress true st)).
  destruct (processReadRecords_tail env maxRead s0 up)
    as (sa & Hk & Hrd).
  { subst s0. destruct st; exact Hs. }
  assert (logOffset s0 = logOffset st) as Hlo
    by (subst s0; destruct st; reflexivity).
  rewrite Hlo, Hresp in Hrd.
  assert (Producer.getRaftLog (Producer.ErrorFirst statusCode)
          = Done {| info := {| info_start := None; info_end := None;
                               info_cseq := None; info_prune := None |};
                    log := LogUndefined |}) as Hg
    by (destruct Hsc as [-> | ->]; reflexivity).
  rewrite Hg in Hrd.
  unfold bind at 1. rewrite Hrd.
  unfold offNodes, progress in Hk.
  destruct sa as [lo bp bs zk zlo ws fc sb ip]. cbn in Hk.
  assert (bs = newBatchState) as ->
    by (subst s0; destruct st; cbn in Hk; congruence).
  eexists. split; [vm_compute; reflexivity|].
  clear Hg Hrd Hresp Hs. subst s0. destruct st; cbn in Hk |- *.
  injection Hk as ? ? ? ? ? ? ?. subst.
  split_and!; reflexivity.
Qed.

(** *** Rewriting tail records *)







End Instance.

(** C10. Writing the init state and reading it back: every falsy field
    ([isStatusComplete = false], an absent or empty marker) is stored as
    the text "null"; the read returns that text for the markers, not a
    null value, and returns [isStatusComplete = true] exactly when the
    stored text is "true". *)
Theorem init_state_write_then_read base env st ist :
  (forall c, coordinatorUp env c = true) ->
  (forall n, n ∈ getInitIngestionNodes ->
             is_Some (zkNodes st !! initPath base n)) ->
  exists st1 r,
    _writeInitState base env (Some ist) st = (Done tt, st1)
    /\ zkNodes st1 !! initPath base "isStatusComplete"
       = Some (Some (if isStatusComplete ist then "true" else "null"))
    /\ (Js.truthy (versionMarker ist) = false ->
        zkNodes st1 !! initPath base "versionMarker" = Some (Some "null"))
    /\ (Js.truthy (keyMarker ist) = false ->
        zkNodes st1 !! initPath base "keyMarker" = Some (Some "null"))
    /\ _readInitState base env st1 = (Done r, st1)
    /\ isStatusComplete r = isStatusComplete ist
    /\ versionMarker r = Some (initNodeData ist "versionMarker")
    /\ keyMarker r = Some (initNodeData ist "keyMarker")
    /\ (Js.truthy (versionMarker ist) = false -> versionMarker r = Some "null")
    /\ (Js.truthy (keyMarker ist) = false -> keyMarker r = Some "null")
    /\ (forall st0, exists r0 st0',
          _readInitState base env st0 = (Done r0, st0')
          /\ (isStatusComplete r0 = true <->
              zkNodes st0 !! initPath base "isStatusComplete"
                = Some (Some "true"))).
Proof.
  intros up Hex.
  assert (initPath base "isStatusComplete" <> initPath base "versionMarker")
    as Hsv by (apply initPath_ne; discriminate).
  assert (initPath base "isStatusComplete" <> initPath base "keyMarker")
    as Hsk by (apply initPath_ne; discriminate).
  assert (initPath base "versionMarker" <> initPath base "keyMarker")
    as Hvk by (apply initPath_ne; discriminate).
  rewrite (writeInitState_up base env up ist st Hex).
  remember (setZkNodes _ st) as st1 eqn:Hst1.
  assert (zkNodes st1 !! initPath base "isStatusComplete"
          = Some (Some (initNodeData ist "isStatusComplete"))) as LS.
  { rewrite Hst1. destruct st; cbn.
    rewrite !lookup_insert_ne by congruence. apply lookup_insert_eq. }
  assert (zkNodes st1 !! initPath base "versionMarker"
          = Some (Some (initNodeData ist "versionMarker"))) as LV.
  { rewrite Hst1. destruct st; cbn.
    rewrite lookup_insert_ne by congruence. apply lookup_insert_eq. }
  assert (zkNodes st1 !! initPath base "keyMarker"
          = Some (Some (initNodeData ist "keyMarker"))) as LK.
  { rewrite Hst1. destruct st; cbn. apply lookup_insert_eq. }
  clear Hst1.
  assert (_readInitState base env st1 =
          (Done {| isStatusComplete := isStatusComplete ist;
                   versionMarker := Some (initNodeData ist "versionMarker");
                   keyMarker := Some (initNodeData ist "keyMarker");
                   cseq := None |}, st1)) as HR.
  { unfold _readInitState, bind, getInitIngestionNodes. cbn [asyncMap].
    rewrite !(readInitNode_up base env up).
    rewrite LS. cbn [default]. rewrite LV. cbn [default]. rewrite LK.
    cbn [default]. unfold ret. do 2 f_equal.
    unfold initNodeData. cbn. destruct (isStatusComplete ist); reflexivity. }
  exists st1, {| isStatusComplete := isStatusComplete ist;
                 versionMarker := Some (initNodeData ist "versionMarker");
                 keyMarker := Some (initNodeData ist "keyMarker");
                 cseq := None |}.
  cbn [isStatusComplete versionMarker keyMarker].
  split_and!; try assumption; try reflexivity;
    try (intros Hf; rewrite ?LV, ?LK; unfold initNodeData; cbn;
         rewrite Hf; reflexivity).
  intros st0.
    destruct (readInitState_total base env up st0)
      as (r0 & st0' & Hr & Hs & _).
    exists r0, st0'. split; [exact Hr|]. rewrite Hs.
    apply bool_decide_eq_true.
Qed.

(** *** The theorems at concrete batches *)

Import Scenario.

(** The cold start of a reader of "bucket1", which holds "object1": the
    producer has listed the object, and the batch has thrown. *)
Lemma snapshot_batch_throws_witness :
  let r := batch None snapshotEnv (freshReader 1) in
  fst r = Thrown TypeError
  /\ Producer.resLog (_iProducer (snd r))
     = [ {| e_db := None; e_type := Some "put";
            e_bucket := Some "zenko-bucket1"; e_key := Some "object1";
            e_value := Some "{}" |} ]
  /\ nextLogOffset (batchState (snd r)) = None
  /\ progress (snd r) = progress (freshReader 1)
  /\ filterCalls (snd r) = []
  /\ sentBatches (snd r) = []
  /\ _batchInProgress (snd r) = true.
Proof.
  intros r.
  destruct (snapshot_batch_throws "bucket1" "zenko" initPathBase 1
              [stageAll] separator None snapshotEnv (freshReader 1))
    as (e & st' & Hrun & He & Hp & _ & _ & Hn & Hpr & Hf & Hs & Hb).
  - intros c. reflexivity.
  - vm_compute. discriminate.
  - assert (e = TypeError) as -> by (apply He; discriminate).
    subst r. unfold batch. rewrite Hrun. cbn [fst snd].
    rewrite Hp. split_and!; try assumption; reflexivity.
Defined.

(** Two batches of a tailing reader at offset 7, each answered with the
    three records that start at 7: the first writes 10, the second has
    nothing to write. *)
Lemma logOffset_never_goes_back_witness :
  let envs := [tailEnv; tailEnv] in
  advances (tailingReader 7)
    (runBatches "bucket1" "zenko" initPathBase 1 [stageAll] separator None
       envs (tailingReader 7))
  /\ Forall (fun step =>
               inStep step.1.1 /\ inStep step.2
               /\ writesOnlyForward step.1.1 step.2)
       (batchSteps "bucket1" "zenko" initPathBase 1 [stageAll] separator
          None envs (tailingReader 7)).
Proof.
  intros envs.
  destruct (logOffset_never_goes_back "bucket1" "zenko" initPathBase 1
              [stageAll] separator None envs (tailingReader 7))
    as [Ha Hf].
  split; [exact Ha|]. apply Hf.
  - reflexivity.
  - vm_compute. repeat constructor.
Defined.

Example two_tail_batches :
  logOffsetWrites
    (runBatches "bucket1" "zenko" initPathBase 1 [stageAll] separator None
       [tailEnv; tailEnv] (tailingReader 7)) = [10].
Proof. vm_compute. reflexivity. Qed.


(** The batch of a reader whose log read answers 416. *)
Lemma empty_tail_batch_throws_witness :
  exists st',
    batch None rangeEnv (tailingReader 7)
      = (Thrown TypeError, st')
    /\ progress st' = progress (tailingReader 7)
    /\ sentBatches st' = sentBatches (tailingReader 7)
    /\ filterCalls st' = filterCalls (tailingReader 7)
    /\ nextLogOffset (batchState st') = Some 0
    /\ _batchInProgress st' = true.
Proof.
  apply (empty_tail_batch_throws "bucket1" "zenko" initPathBase 1
           [stageAll] separator None rangeEnv (tailingReader 7) (Some 416)).
  - intros c. reflexivity.
  - vm_compute. reflexivity.
  - reflexivity.
  - right. reflexivity.
Defined.


Example users_bucket_record :
  ev_key <$> filterCalls
               (snd (onData "users..bucket" "zenko" [stageAll]
                       {| db := Some "users..bucket";
                          entries := [logEntry "owner1..|..bucket1"] |}
                       (tailingReader 7)))
  = [Some "owner1..|..zenko"].
Proof. vm_compute. reflexivity. Qed.


Lemma init_state_write_then_read_witness :
  let st := {| logOffset := 1; _batchInProgress := false;
               batchState := newBatchState;
               zkNodes := {[ "/i/init/isStatusComplete" := None;
                             "/i/init/versionMarker" := None;
                             "/i/init/keyMarker" := None ]};
               zkLogOffset := 1; logOffsetWrites := [];
               filterCalls := []; sentBatches := [];
               _iProducer := Producer.new "zenko" |} in
  let env := snapshotEnv in
  let ist := {| isStatusComplete := false; versionMarker := None;
                keyMarker := Some "k"; cseq := None |} in
  exists st1 r,
    _writeInitState "/i/init" env (Some ist) st = (Done tt, st1)
    /\ _readInitState "/i/init" env st1 = (Done r, st1)
    /\ versionMarker r = Some "null" /\ keyMarker r = Some "k"
    /\ isStatusComplete r = false.
Proof.
  intros st env ist.
  destruct (init_state_write_then_read "/i/init" env st ist) as
    (st1 & r & Hw & _ & _ & _ & Hr & Hs & Hv & Hk & _).
  - intros c. reflexivity.
  - intros n Hn. unfold getInitIngestionNodes in Hn.
    apply list_elem_of_In in Hn. cbn in Hn.
    destruct Hn as [<-|[<-|[<-|[]]]]; vm_compute; eauto.
  - exists st1, r. rewrite Hv, Hk, Hs. split_and!; try assumption; reflexivity.
Defined.
End ReaderFacts.

(** ** Backlog metrics *)

Module BacklogFacts.
Import Backlog.

(** *** Publishing *)

Lemma publishOffset_available topic_ partition offset ty label st :
  available st = true ->
  _publishOffset topic_ partition offset ty label st
  = (Done tt,
     {| nodes := setNode (_getOffsetZkPath topic_ partition ty label)
                         (Offset offset) (nodes st);
        available := true;
        writes := writes st
                  ++ [(_getOffsetZkPath topic_ partition ty label, offset)];
        partitionOrder := partitionOrder st;
        labelOrder := labelOrder st |}).
Proof.
  intros Hav. unfold _publishOffset, setOrCreate. rewrite Hav. reflexivity.
Qed.

(** While the Coordinator answers, the iteration for a partition fails
    exactly when its high watermark cannot be read, and issues the
    writes of [partitionWrites]. *)
Lemma publishPartition_available consumer topic_ groupId p st :
  available st = true ->
  exists st',
    publishPartition consumer topic_ groupId p st
    = (match highOffset consumer topic_ (tp_partition p) with
       | Some _ => Done tt
       | None => Failed InternalError
       end, st')
    /\ available st' = true
    /\ writes st' = writes st ++ partitionWrites consumer topic_ groupId p.
Proof.
  intros Hav. unfold publishPartition, partitionWrites, bind,
    _getLatestTopicOffset, asyncEach, bind.
  destruct (highOffset consumer topic_ (tp_partition p)) as [hw|].
  - unfold ret. cbn [asyncMap].
    rewrite (publishOffset_available _ _ _ _ _ st Hav).
    rewrite publishOffset_available by reflexivity.
    eexists. split; [reflexivity|]. cbn.
    rewrite <- app_assoc. split; reflexivity.
  - unfold fail. eexists. split; [reflexivity|].
    rewrite app_nil_r. split; [assumption|reflexivity].
Qed.

Lemma eachLimitFrom_writes consumer topic_ groupId l n failed st :
  available st = true ->
  exists o st',
    eachLimitFrom (publishPartition consumer topic_ groupId) n failed l st
    = (o, st')
    /\ available st' = true
    /\ (failed = None ->
        Forall (fun p => is_Some (highOffset consumer topic_ (tp_partition p)))
               (startedFrom consumer topic_ n false l) ->
        o = Done tt)
    /\ writes st'
       = writes st
         ++ flat_map (partitionWrites consumer topic_ groupId)
              (startedFrom consumer topic_ n
                 (match failed with Some _ => true | None => false end) l).
Proof.
  revert n failed st. induction l as [|p l IH]; intros n failed st Hav.
  - destruct n; cbn [eachLimitFrom startedFrom flat_map];
      eexists _, _; (split; [reflexivity|]); rewrite app_nil_r;
      (split_and!; [assumption| |reflexivity]);
      intros -> _; reflexivity.
  - destruct n as [|n]; cbn [eachLimitFrom startedFrom flat_map].
    { eexists _, _. split; [reflexivity|]. rewrite app_nil_r.
      split_and!; [assumption| |reflexivity]. intros -> _; reflexivity. }
    destruct (publishPartition_available consumer topic_ groupId p st Hav)
      as (st1 & E & Hav1 & Hw1).
    rewrite E.
    destruct (highOffset consumer topic_ (tp_partition p)) as [hw|] eqn:Ehw.
    + rewrite (bool_decide_eq_true_2 (is_Some (Some hw))) by eauto.
      cbn [negb]. rewrite orb_false_r.
      destruct (IH (match failed with Some _ => n | None => S n end)
                   failed st1 Hav1) as (o & st' & E' & Hav' & Hd & Hw').
      exists o, st'. split; [exact E'|]. split; [exact Hav'|]. split.
      * intros -> Hall. cbn [orb] in Hall.
        apply Forall_cons in Hall as [_ Hall]. apply Hd; auto.
      * rewrite Hw', Hw1, <- app_assoc.
        destruct failed; reflexivity.
    + rewrite (bool_decide_eq_false_2 (is_Some None))
        by (intros [? ?]; discriminate).
      cbn [negb]. rewrite orb_true_r.
      destruct (IH n (Some (default InternalError failed)) st1 Hav1)
        as (o & st' & E' & Hav' & _ & Hw').
      exists o, st'. split; [exact E'|]. split; [exact Hav'|]. split.
      * intros -> Hall. cbn [orb negb] in Hall.
        apply Forall_cons in Hall as [[? Hbad] _].
        rewrite Ehw in Hbad. discriminate.
      * rewrite Hw', Hw1, <- app_assoc. destruct failed; reflexivity.
Qed.

(** The iterations in flight are started whatever happens. *)
Lemma startedFrom_take consumer topic_ n failed l :
  take n l `prefix_of` startedFrom consumer topic_ n failed l.
Proof.
  revert n failed. induction l as [|p l IH]; intros n failed.
  - destruct n; apply prefix_nil.
  - destruct n as [|n]; [apply prefix_nil|].
    cbn [take startedFrom]. apply prefix_cons.
    destruct (failed || _).
    + apply IH.
    + etransitivity; [|apply IH].
      exists (drop n (take (S n) l)).
      rewrite <- (take_drop n (take (S n) l)) at 1.
      rewrite take_take, Nat.min_l by lia. reflexivity.
Qed.

Lemma startedFrom_prefix consumer topic_ n failed l :
  startedFrom consumer topic_ n failed l `prefix_of` l.
Proof.
  revert n failed. induction l as [|p l IH]; intros n failed.
  - destruct n; apply prefix_nil.
  - destruct n as [|n]; [apply prefix_nil|].
    cbn [startedFrom]. apply prefix_cons, IH.
Qed.

(** When every high watermark can be read, every assigned partition is
    started. *)
Lemma startedFrom_all consumer topic_ n l :
  Forall (fun p => is_Some (highOffset consumer topic_ (tp_partition p))) l ->
  startedFrom consumer topic_ (S n) false l = l.
Proof.
  induction 1 as [|p l Hp _ IH]; [reflexivity|].
  cbn [startedFrom]. rewrite bool_decide_eq_true_2 by exact Hp.
  cbn [negb orb]. rewrite IH. reflexivity.
Qed.

(** The writes of a partition, in the writes of a list of partitions. *)
Lemma partitionWrites_of consumer topic_ groupId n l :
  filter (fun w => z_partition w.1 = n)
         (flat_map (partitionWrites consumer topic_ groupId) l)
  = flat_map (partitionWrites consumer topic_ groupId)
             (filter (fun p => tp_partition p = n) l).
Proof.
  induction l as [|p l IH]; [reflexivity|].
  cbn [flat_map]. rewrite filter_app, IH.
  destruct (decide (tp_partition p = n)) as [Hp|Hp].
  - rewrite (filter_cons_True (fun p => tp_partition p = n)) by exact Hp.
    cbn [flat_map]. f_equal.
    unfold partitionWrites. destruct (highOffset _ _ _); [|reflexivity].
    rewrite filter_cons_True by exact Hp.
    rewrite filter_cons_True by exact Hp. reflexivity.
  - rewrite (filter_cons_False (fun p => tp_partition p = n)) by exact Hp.
    unfold partitionWrites at 1. destruct (highOffset _ _ _); [|reflexivity].
    rewrite filter_cons_False by exact Hp.
    rewrite filter_cons_False by exact Hp. reflexivity.
Qed.

(** The whole call, while the Coordinator answers. *)
Lemma publishConsumerBacklog_trace consumer topic_ groupId st positions :
  available st = true ->
  position consumer = Some positions ->
  let assigned :=
    filter (fun p => tp_topic p = topic_ ∧ is_Some (tp_offset p)) positions in
  available (snd (publishConsumerBacklog consumer topic_ groupId st)) = true
  /\ (Forall (fun p => is_Some (highOffset consumer topic_ (tp_partition p)))
             (startedFrom consumer topic_ 10 false assigned) ->
      fst (publishConsumerBacklog consumer topic_ groupId st) = Done tt)
  /\ writes (snd (publishConsumerBacklog consumer topic_ groupId st))
     = writes st
       ++ flat_map (partitionWrites consumer topic_ groupId)
            (startedFrom consumer topic_ 10 false assigned).
Proof.
  intros Hav Hpos assigned. unfold publishConsumerBacklog. rewrite Hpos.
  fold assigned. unfold asyncEachLimit.
  destruct (eachLimitFrom_writes consumer topic_ groupId assigned 10 None
              st Hav) as (o & st' & E & Hav' & Hd & Hw).
  rewrite E. cbn [fst snd]. auto.
Qed.

(** C8 (amended). While the Coordinator answers, the writes that
    [publishConsumerBacklog] issues for a partition are those of the
    iterations started for it, and an iteration whose high watermark
    could be read issues two writes, in this order: the offset of the
    consumer group, then the offset of the topic.  The iterations
    started are those of the first ten assigned partitions at least, and
    of all of them when every high watermark can be read.  Nothing makes
    the topic offset reach the Coordinator first. *)
Theorem publishConsumerBacklog_write_order consumer topic_ groupId st
    positions :
  available st = true ->
  position consumer = Some positions ->
  let assigned :=
    filter (fun p => tp_topic p = topic_ ∧ is_Some (tp_offset p)) positions in
  let started := startedFrom consumer topic_ 10 false assigned in
  take 10 assigned `prefix_of` started
  /\ started `prefix_of` assigned
  /\ (Forall (fun p => is_Some (highOffset consumer topic_ (tp_partition p)))
             assigned -> started = assigned)
  /\ writes (snd (publishConsumerBacklog consumer topic_ groupId st))
     = writes st ++ issuedBy (publishConsumerBacklog consumer topic_ groupId) st
  /\ forall n,
       filter (fun w => z_partition w.1 = n)
              (issuedBy (publishConsumerBacklog consumer topic_ groupId) st)
       = flat_map (partitionWrites consumer topic_ groupId)
                  (filter (fun p => tp_partition p = n) started).
Proof.
  intros Hav Hpos assigned started.
  destruct (publishConsumerBacklog_trace consumer topic_ groupId st positions
              Hav Hpos) as (_ & _ & Hw).
  fold assigned in Hw. fold started in Hw.
  assert (issuedBy (publishConsumerBacklog consumer topic_ groupId) st
          = flat_map (partitionWrites consumer topic_ groupId) started)
    as Hissued.
  { unfold issuedBy. rewrite Hw, drop_app_length. reflexivity. }
  split_and!.
  - apply startedFrom_take.
  - apply startedFrom_prefix.
  - apply startedFrom_all.
  - rewrite Hissued. exact Hw.
  - intros n. rewrite Hissued. apply partitionWrites_of.
Qed.

(** *** Checking the lag *)

Lemma find_app_split {A} (f : A -> bool) l1 l2 :
  List.find f (l1 ++ l2)
  = match List.find f l1 with
    | Some x => Some x
    | None => List.find f l2
    end.
Proof.
  induction l1 as [|x l1 IH]; [reflexivity|]. cbn.
  destruct (f x); [reflexivity|exact IH].
Qed.

(** [List.find] returns the first element that passes the test. *)
Lemma find_first {A} (f : A -> bool) l x :
  List.find f l = Some x ->
  exists pre post,
    l = pre ++ x :: post /\ f x = true
    /\ forall y, y ∈ pre -> f y = false.
Proof.
  induction l as [|a l IH]; [discriminate|]. cbn.
  destruct (f a) eqn:E.
  - intros [= ->]. exists [], l. split; [reflexivity|].
    split; [exact E|]. intros y Hy. inversion Hy.
  - intros H. destruct (IH H) as (pre & post & -> & Hx & Hpre).
    exists (a :: pre), post. split; [reflexivity|]. split; [exact Hx|].
    intros y [->|Hy]%elem_of_cons; auto.
Qed.

Lemma find_none {A} (f : A -> bool) l :
  List.find f l = None <-> forall y, y ∈ l -> f y = false.
Proof.
  induction l as [|a l IH]; cbn.
  - split; [intros _ y Hy; inversion Hy|reflexivity].
  - destruct (f a) eqn:E.
    + split; [discriminate|]. intros H.
      rewrite (H a) in E by apply list_elem_of_here. discriminate.
    + rewrite IH. split.
      * intros H y [->|Hy]%elem_of_cons; auto.
      * intros H y Hy. apply H. apply list_elem_of_further, Hy.
Qed.

Section Lag.
Variable st : Store.
Variable topic_ : string.
Variable groupId : option string.
Variable maxLag : Z.

(** Once [checkInfo] is set, later groups leave it alone. *)
Lemma examine_set p t ci cs :
  foldl (examine topic_ maxLag None p t) (Some ci) cs = Some ci.
Proof.
  induction cs as [|c cs IH]; [reflexivity|]. cbn [foldl].
  unfold examine at 2. cbn [bool_decide decide_rel].
  rewrite andb_false_r. exact IH.
Qed.

(** While it is unset, the loop over the groups of a partition finds
    the first group whose lag exceeds [maxLag]. *)
Lemma examine_unset p t cs :
  foldl (examine topic_ maxLag None p t) None cs
  = infoOf topic_ maxLag <$> firstLagging maxLag (rowsOf p (cs, t)).
Proof.
  induction cs as [|c cs IH]; [reflexivity|]. cbn [foldl].
  unfold firstLagging, rowsOf. cbn [fst snd fmap list_fmap List.find].
  unfold examine at 2. cbn [Js.truthy bool_decide decide_rel andb].
  unfold lagOf at 1. cbn [r_topicOffset r_consumerOffset].
  assert ((if t - c.2 <? 0 then 0 else t - c.2) = Z.max 0 (t - c.2)) as ->.
  { destruct (Z.ltb_spec (t - c.2) 0); lia. }
  rewrite andb_true_r.
  destruct (maxLag <? Z.max 0 (t - c.2)) eqn:E.
  - rewrite examine_set. reflexivity.
  - exact IH.
Qed.

Lemma checkPartition_readable p cs t :
  readConsumerOffsets st topic_ groupId p = Done cs ->
  readTargetOffset st topic_ None p = Done t ->
  checkPartition st topic_ groupId maxLag None p None
  = match firstLagging maxLag (rowsOf p (cs, t)) with
    | Some r => (Failed CheckConditionError, Some (infoOf topic_ maxLag r))
    | None => (Done tt, None)
    end.
Proof.
  intros Hc Ht. unfold checkPartition. rewrite Hc, Ht, examine_unset.
  destruct (firstLagging maxLag (rowsOf p (cs, t))); reflexivity.
Qed.

Lemma checkPartitions_readable partitions reads :
  Forall2 (fun p rd =>
             readConsumerOffsets st topic_ groupId p = Done rd.1
             /\ readTargetOffset st topic_ None p = Done rd.2)
          partitions reads ->
  eachSeries (checkPartition st topic_ groupId maxLag None) partitions None
  = match firstLagging maxLag
            (flat_map (fun pr => rowsOf pr.1 pr.2) (zip partitions reads)) with
    | Some r => (Failed CheckConditionError, Some (infoOf topic_ maxLag r))
    | None => (Done tt, None)
    end.
Proof.
  induction 1 as [|p [cs t] partitions reads [Hc Ht] _ IH];
    [reflexivity|].
  cbn [eachSeries zip zip_with flat_map fst snd]. unfold bind.
  rewrite (checkPartition_readable p cs t Hc Ht).
  unfold firstLagging in *. rewrite find_app_split.
  destruct (List.find _ (rowsOf p (cs, t))); [reflexivity|exact IH].
Qed.

(** X24. When every partition that the Coordinator lists for the topic
    has its consumer offset (or offsets) and its topic offset
    readable, [checkConsumerLag] answers as the specification words
    it: success exactly when no lag, clamped below at zero, exceeds
    [maxLag], and otherwise the information for the first row, in the
    order in which the partitions are listed, whose lag does. *)
Theorem checkConsumerLag_first_lagging partitions reads :
  getPartitions topic_ st = Done partitions ->
  Forall2 (fun p rd =>
             readConsumerOffsets st topic_ groupId p = Done rd.1
             /\ readTargetOffset st topic_ None p = Done rd.2)
          partitions reads ->
  let rows := flat_map (fun pr => rowsOf pr.1 pr.2) (zip partitions reads) in
  checkConsumerLag st topic_ groupId maxLag
  = Done (infoOf topic_ maxLag <$> firstLagging maxLag rows)
  /\ (checkConsumerLag st topic_ groupId maxLag = Done None <->
      forall r, r ∈ rows -> lagOf r <= maxLag)
  /\ (forall r, firstLagging maxLag rows = Some r ->
      exists pre post,
        rows = pre ++ r :: post /\ maxLag < lagOf r
        /\ forall r', r' ∈ pre -> lagOf r' <= maxLag).
Proof.
  intros Hp Hreads rows.
  assert (checkConsumerLag st topic_ groupId maxLag
          = Done (infoOf topic_ maxLag <$> firstLagging maxLag rows)) as Heq.
  { unfold checkConsumerLag, _checkConsumerOffsetsGeneric.
    rewrite Hp, (checkPartitions_readable partitions reads Hreads).
    fold rows. destruct (firstLagging maxLag rows); reflexivity. }
  split; [exact Heq|]. split.
  - rewrite Heq. unfold firstLagging.
    destruct (List.find _ rows) as [r|] eqn:E; cbn.
    + split; [discriminate|]. intros H.
      apply find_first in E as (pre & post & Hrows & Hr & _).
      apply Z.ltb_lt in Hr.
      specialize (H r). rewrite Hrows in H.
      specialize (H ltac:(apply elem_of_app; right; apply list_elem_of_here)).
      lia.
    + split; [|reflexivity]. intros _ r Hr.
      pose proof (proj1 (find_none _ rows) E r Hr) as E'.
      apply Z.ltb_ge in E'. exact E'.
  - intros r E. unfold firstLagging in E.
    apply find_first in E as (pre & post & Hrows & Hr & Hpre).
    exists pre, post. split; [exact Hrows|].
    split; [apply Z.ltb_lt, Hr|].
    intros r' Hr'. apply Z.ltb_ge, Hpre, Hr'.
Qed.

Lemma eachSeries_app {S A} (f : A -> M S unit) l1 l2 s :
  eachSeries f (l1 ++ l2) s
  = match eachSeries f l1 s with
    | (Done _, s1) => eachSeries f l2 s1
    | r => r
    end.
Proof.
  revert s. induction l1 as [|x l1 IH]; intros s; [reflexivity|].
  cbn [app eachSeries]. unfold bind.
  destruct (f x s) as [[u|e|e] s1]; [apply IH|reflexivity..].
Qed.

(** C9. [checkConsumerLag] does not look at every published
    partition.  At the first listed partition under which the group
    asked for has no offset node, the check ends and answers success,
    whatever the lag at the partitions listed after it. *)
Theorem missing_consumer_offset_ends_check pre p post reads :
  getPartitions topic_ st = Done (pre ++ p :: post) ->
  Forall2 (fun q rd =>
             readConsumerOffsets st topic_ groupId q = Done rd.1
             /\ readTargetOffset st topic_ None q = Done rd.2)
          pre reads ->
  (forall r, r ∈ flat_map (fun pr => rowsOf pr.1 pr.2) (zip pre reads) ->
             lagOf r <= maxLag) ->
  readConsumerOffsets st topic_ groupId p = Failed NoNodeError ->
  checkConsumerLag st topic_ groupId maxLag = Done None.
Proof.
  intros Hp Hreads Hlag Hmissing.
  unfold checkConsumerLag, _checkConsumerOffsetsGeneric.
  rewrite Hp, eachSeries_app, (checkPartitions_readable pre reads Hreads).
  assert (firstLagging maxLag
            (flat_map (fun pr => rowsOf pr.1 pr.2) (zip pre reads)) = None)
    as ->.
  { apply find_none. intros r Hr. apply Z.ltb_ge, Hlag, Hr. }
  cbn [eachSeries]. unfold bind, checkPartition. rewrite Hmissing.
  reflexivity.
Qed.

End Lag.

(** *** The theorems at concrete stores *)

Import Scenario.

(** Group "G" on partitions 0 and 1: for partition 0, the group's
    offset and then the topic's. *)
Lemma publishConsumerBacklog_write_order_witness :
  filter (fun w => z_partition w.1 = 0)
         (issuedBy (publishConsumerBacklog consumerG "T" (Some "G"))
                   emptyStore)
  = [ (_getOffsetZkPath "T" 0 consumers (Some "G"), 90);
      (_getOffsetZkPath "T" 0 topic None, 100) ].
Proof.
  rewrite (proj2 (proj2 (proj2 (proj2
             (publishConsumerBacklog_write_order consumerG "T" (Some "G")
                emptyStore
                [ {| tp_topic := "T"; tp_partition := 0;
                     tp_offset := Some 90 |};
                  {| tp_topic := "T"; tp_partition := 1;
                     tp_offset := Some 195 |} ]
                eq_refl eq_refl)))) 0).
  vm_compute. reflexivity.
Defined.

(** The topic offset is not written first: for partition 0 of group
    "G", the write of the topic's offset is the second of the call and
    the write of the group's offset the first. *)
Lemma consumer_offset_is_written_first :
  ~ (forall consumer topic_ groupId st positions p hw off,
       available st = true ->
       position consumer = Some positions ->
       p ∈ take 10 (filter (fun p => tp_topic p = topic_
                                     ∧ is_Some (tp_offset p)) positions) ->
       highOffset consumer topic_ (tp_partition p) = Some hw ->
       tp_offset p = Some off ->
       exists i j,
         (i < j)%nat
         /\ issuedBy (publishConsumerBacklog consumer topic_ groupId) st !! i
            = Some (_getOffsetZkPath topic_ (tp_partition p) topic None, hw)
         /\ issuedBy (publishConsumerBacklog consumer topic_ groupId) st !! j
            = Some (_getOffsetZkPath topic_ (tp_partition p) consumers groupId,
                    off)).
Proof.
  intros H.
  destruct (H consumerG "T" (Some "G") emptyStore
              [ {| tp_topic := "T"; tp_partition := 0; tp_offset := Some 90 |};
                {| tp_topic := "T"; tp_partition := 1; tp_offset := Some 195 |} ]
              {| tp_topic := "T"; tp_partition := 0; tp_offset := Some 90 |}
              100 90 eq_refl eq_refl)
    as (i & j & Hlt & Hi & Hj).
  - vm_compute. apply list_elem_of_here.
  - reflexivity.
  - reflexivity.
  - vm_compute in Hi, Hj.
    destruct i as [|[|[|[|i]]]]; try discriminate Hi.
    destruct j as [|[|[|[|j]]]]; try discriminate Hj.
    lia.
Qed.

(** Publishing again after the group moved to 150: between the two
    writes the store shows the group at 150 against a topic offset of
    100. *)
Lemma consumer_offset_seen_ahead_of_topic :
  exists mid final,
    _publishOffset "T" 0 150 consumers (Some "G") publishedStore
      = (Done tt, mid)
    /\ _publishOffset "T" 0 200 topic None mid = (Done tt, final)
    /\ publishConsumerBacklog consumerLater "T" (Some "G") publishedStore
       = (Done tt, final)
    /\ _readOffset "T" 0 consumers (Some "G") mid = Done 150
    /\ _readOffset "T" 0 topic None mid = Done 100.
Proof.
  eexists _, _. split; [vm_compute; reflexivity|].
  split; [vm_compute; reflexivity|].
  split; [vm_compute; reflexivity|].
  split; vm_compute; reflexivity.
Qed.

(** Topic "T" after group "G" published: partition 0 lags by 10. *)
Lemma checkConsumerLag_first_lagging_witness :
  checkConsumerLag publishedStore "T" (Some "G") 5
  = Done (Some {| ci_topic := "T"; ci_partition := 0; ci_groupId := "G";
                  ci_consumerOffset := 90; ci_lag := 10; ci_maxLag := 5;
                  ci_snapshotName := None; ci_snapshotOffset := None;
                  ci_topicOffset := Some 100 |}).
Proof.
  destruct (checkConsumerLag_first_lagging publishedStore "T" (Some "G") 5
              [0; 1] [([("G", 90)], 100); ([("G", 195)], 200)])
    as (Heq & _).
  - vm_compute. reflexivity.
  - repeat constructor.
  - rewrite Heq. vm_compute. reflexivity.
Defined.

(** Group "H" has no offset under partition 0: the check with
    [maxLag = 5] answers success, although "H" stands at 100 under
    partition 1, whose topic offset is 200. *)
Lemma missing_consumer_offset_ends_check_witness :
  checkConsumerLag partialStore "T" (Some "H") 5 = Done None
  /\ getPartitions "T" partialStore = Done [0; 1]
  /\ readConsumerOffsets partialStore "T" (Some "H") 1 = Done [("H", 100)]
  /\ readTargetOffset partialStore "T" None 1 = Done 200.
Proof.
  split.
  - apply (missing_consumer_offset_ends_check partialStore "T" (Some "H") 5
             [] 0 [1] []).
    + vm_compute. reflexivity.
    + constructor.
    + intros r Hr. inversion Hr.
    + vm_compute. reflexivity.
  - split_and!; vm_compute; reflexivity.
Defined.

End BacklogFacts.

(* ===================================================================== *)
(** * Further properties *)
(* ===================================================================== *)

(** ** Where a key is split *)

Module SplitFacts.
Import Js PrepareSpec JsFacts.

Lemma prefix_append sep r : String.prefix sep (sep +:+ r) = true.
Proof.
  induction sep as [|a sep IH].
  - destruct r; reflexivity.
  - change (String.prefix (String a sep) (String a (sep +:+ r)) = true).
    cbn [String.prefix]. destruct (Ascii.ascii_dec a a); [exact IH|done].
Qed.

Lemma prefix_nonempty_nil a sep : String.prefix (String a sep) "" = false.
Proof. reflexivity. Qed.

(** [occursIn] says what its name says. *)
Lemma occursIn_spec sep k :
  occursIn sep k = true <-> exists a c, k = a +:+ sep +:+ c.
Proof.
  split.
  - induction k as [|x k IH]; cbn [occursIn].
    + rewrite orb_false_r. intros H.
      destruct (prefix_app _ _ H) as [r Hr]. exists EmptyString, r. exact Hr.
    + intros [H|H]%orb_true_iff.
      * destruct (prefix_app _ _ H) as [r Hr]. exists EmptyString, r.
        exact Hr.
      * destruct (IH H) as (a & c & ->). exists (String x a), c.
        reflexivity.
  - intros (a & c & ->). induction a as [|x a IH].
    + change (occursIn sep (sep +:+ c) = true).
      destruct (sep +:+ c) eqn:E; cbn [occursIn]; rewrite <- E;
        rewrite prefix_append; reflexivity.
    + change (occursIn sep (String x (a +:+ sep +:+ c)) = true).
      cbn [occursIn]. rewrite IH. apply orb_true_r.
Qed.

(** The split has a second piece exactly when the separator occurs. *)
Lemma split_second_piece sep k :
  sep <> EmptyString ->
  bool_decide (is_Some (split sep k !! 1%nat)) = occursIn sep k.
Proof.
  intros Hsep. unfold split.
  induction k as [|x k IH]; cbn [split_from occursIn].
  - destruct sep; [contradiction|]. reflexivity.
  - destruct (String.prefix sep (String x k)) eqn:E; cbn [orb].
    + apply bool_decide_eq_true_2.
      destruct (split_from sep (String.length sep - 1) k) as [|p ps] eqn:Es.
      { exfalso. eapply split_from_nonempty, Es. }
      cbn. eauto.
    + rewrite <- IH.
      destruct (split_from sep 0 k) as [|p ps] eqn:Es.
      { exfalso. eapply split_from_nonempty, Es. }
      reflexivity.
Qed.

(** Without an occurrence of the separator the split is the string
    itself. *)
Lemma split_no_occurrence sep r :
  occursIn sep r = false -> split sep r = [r].
Proof.
  unfold split. induction r as [|x r IH]; cbn [split_from occursIn].
  - reflexivity.
  - intros [H1 H2]%orb_false_iff. rewrite H1, (IH H2). reflexivity.
Qed.

(** The first piece ends where the separator first matches: in front of
    its first character, when the text before has none. *)
Lemma split_at_first c t p r :
  lacks c p = true ->
  split (String c t) (p +:+ String c t +:+ r)
  = p :: split (String c t) r.
Proof.
  unfold split. induction p as [|a p IH]; intros Hp.
  - change (split_from (String c t) 0 (String c (t +:+ r))
            = "" :: split_from (String c t) 0 r).
    cbn [split_from].
    change (String c (t +:+ r)) with (String c t +:+ r).
    rewrite prefix_append. cbn [String.length].
    rewrite Nat.sub_succ, Nat.sub_0_r, split_from_skip. reflexivity.
  - cbn [lacks] in Hp. apply andb_true_iff in Hp as [Ha Hp].
    apply negb_true_iff, bool_decide_eq_false in Ha.
    change (split_from (String c t) 0
              (String a (p +:+ String c t +:+ r))
            = String a p :: split_from (String c t) 0 r).
    cbn [split_from String.prefix].
    destruct (Ascii.ascii_dec c a) as [->|_]; [contradiction|].
    rewrite (IH Hp). reflexivity.
Qed.

End SplitFacts.

(** ** The prepare phase, entry by entry *)

Module PrepareFacts.
Import Reader ReaderSpec PrepareSpec.

Lemma extends_refl s : extends noDelta s s.
Proof.
  unfold extends, noDelta. cbn. rewrite app_nil_r, !Z.add_0_r. done.
Qed.

Lemma extends_trans a b s1 s2 s3 :
  extends a s1 s2 -> extends b s2 s3 -> extends (addDelta a b) s1 s3.
Proof.
  intros (A1 & A2 & A3 & A4 & A5) (B1 & B2 & B3 & B4 & B5).
  unfold extends, addDelta. cbn.
  rewrite B1, A1, B2, A2, B3, A3, B4, A4, B5, A5, foldl_app, <- app_assoc.
  split_and!; try reflexivity; lia.
Qed.

Lemma adds_ret : adds (ret tt) noDelta.
Proof. intros s. exists s. split; [reflexivity|apply extends_refl]. Qed.

Lemma adds_bind (m k : M State unit) a b :
  adds m a -> adds k b -> adds (m ;;; k)%js (addDelta a b).
Proof.
  intros Hm Hk s. destruct (Hm s) as (s1 & E1 & X1).
  destruct (Hk s1) as (s2 & E2 & X2).
  exists s2. unfold bind. rewrite E1. split; [exact E2|].
  eapply extends_trans; eauto.
Qed.

(** Two descriptions of the same addition. *)
Lemma adds_same m d d' :
  d_calls d = d_calls d' -> d_staged d = d_staged d' ->
  d_entries d = d_entries d' -> d_records d = d_records d' ->
  adds m d -> adds m d'.
Proof.
  destruct d, d'. cbn. intros -> -> -> ->. exact id.
Qed.

Lemma adds_eachSeries {A} (f : A -> M State unit) (D : A -> Delta) l :
  (forall x, adds (f x) (D x)) ->
  adds (eachSeries f l) (sumDelta (D <$> l)).
Proof.
  intros Hf. induction l as [|x l IH]; cbn [eachSeries fmap list_fmap].
  - apply adds_ret.
  - apply (adds_bind _ _ _ _ (Hf x) IH).
Qed.

Lemma sumDelta_calls {A} (D : A -> Delta) l :
  d_calls (sumDelta (D <$> l)) = flat_map (fun x => d_calls (D x)) l.
Proof.
  induction l as [|x l IH]; [reflexivity|]. cbn. rewrite <- IH. reflexivity.
Qed.

Lemma sumDelta_staged {A} (D : A -> Delta) l :
  d_staged (sumDelta (D <$> l)) = flat_map (fun x => d_staged (D x)) l.
Proof.
  induction l as [|x l IH]; [reflexivity|]. cbn. rewrite <- IH. reflexivity.
Qed.

Lemma sumDelta_entries {A} (D : A -> Delta) l c :
  (forall x, d_entries (D x) = c) ->
  d_entries (sumDelta (D <$> l)) = c * Z.of_nat (length l).
Proof.
  intros H. induction l as [|x l IH]; [cbn; lia|].
  cbn [fmap list_fmap length sumDelta foldr addDelta d_entries].
  fold (sumDelta (D <$> l)). rewrite IH, H. lia.
Qed.

Lemma sumDelta_records {A} (D : A -> Delta) l c :
  (forall x, d_records (D x) = c) ->
  d_records (sumDelta (D <$> l)) = c * Z.of_nat (length l).
Proof.
  intros H. induction l as [|x l IH]; [cbn; lia|].
  cbn [fmap list_fmap length sumDelta foldr addDelta d_records].
  fold (sumDelta (D <$> l)). rewrite IH, H. lia.
Qed.

Lemma sumDelta_records_sum {A} (D : A -> Delta) l :
  d_records (sumDelta (D <$> l))
  = foldr (fun x n => d_records (D x) + n) 0 l.
Proof.
  induction l as [|x l IH]; [reflexivity|]. cbn. rewrite <- IH. reflexivity.
Qed.

Lemma versionedEntries_count sep l :
  foldr (fun x n => Z.of_nat (length (versionedEntries sep [x])) + n) 0 l
  = Z.of_nat (length (versionedEntries sep l)).
Proof.
  induction l as [|e l IH]; [reflexivity|].
  cbn [foldr]. rewrite IH. unfold versionedEntries. cbn [List.filter].
  destruct (match e_key e with Some k => occursIn sep k | None => false end);
    cbn [length]; lia.
Qed.

Lemma incrEntriesRead_adds :
  adds (modify (withBatch incrEntriesRead))
       {| d_calls := []; d_staged := []; d_entries := 1; d_records := 0 |}.
Proof.
  intros s. eexists. split; [reflexivity|].
  destruct s as [? ? [] ? ? ? ? ? ?]. unfold extends. cbn.
  rewrite app_nil_r, Z.add_0_r. done.
Qed.

Lemma incrRecordsRead_adds :
  adds (modify (withBatch incrRecordsRead))
       {| d_calls := []; d_staged := []; d_entries := 0; d_records := 1 |}.
Proof.
  intros s. eexists. split; [reflexivity|].
  destruct s as [? ? [] ? ? ? ? ? ?]. unfold extends. cbn.
  rewrite app_nil_r, Z.add_0_r. done.
Qed.

Section Instance.
Variable bucket : string.
Variable target : string.
Variable exts : list Extension.
Variable VID_SEP : string.

Lemma filter_step_adds (ext : Extension) ev :
  adds (modify (fun st =>
          recordFilterCall ev
            (withBatch (fun b =>
               setEntriesToPublish
                 (foldl pushEntry (entriesToPublish b) (ext ev)) b) st)))
       {| d_calls := [ev]; d_staged := ext ev;
          d_entries := 0; d_records := 0 |}.
Proof.
  intros s. eexists. split; [reflexivity|].
  destruct s as [? ? [] ? ? ? ? ? ?]. unfold extends. cbn.
  rewrite !Z.add_0_r. done.
Qed.

Lemma callFilters_adds_on (l : list Extension) ev :
  adds (eachSeries (fun ext : Extension =>
          modify (fun st =>
            recordFilterCall ev
              (withBatch (fun b =>
                 setEntriesToPublish
                   (foldl pushEntry (entriesToPublish b) (ext ev)) b) st)))
          l)
       (eventsDelta l [ev] 0 0).
Proof.
  eapply adds_same;
    [| | | |apply (adds_eachSeries _ _ l (fun ext => filter_step_adds ext ev))].
  - rewrite sumDelta_calls. cbn. rewrite app_nil_r.
    induction l; cbn; congruence.
  - rewrite sumDelta_staged. cbn. rewrite app_nil_r. reflexivity.
  - rewrite (sumDelta_entries _ _ 0) by reflexivity. reflexivity.
  - rewrite (sumDelta_records _ _ 0) by reflexivity. reflexivity.
Qed.

(** Every extension is shown the event, in the order of
    [_extensions], and stages what its [filter] pushes. *)
Lemma callFilters_adds ev :
  adds (callFilters exts ev) (eventsDelta exts [ev] 0 0).
Proof. apply callFilters_adds_on. Qed.

Lemma filterTrace_app evs1 evs2 :
  filterTrace exts (evs1 ++ evs2)
  = filterTrace exts evs1 ++ filterTrace exts evs2.
Proof. unfold filterTrace. apply flat_map_app. Qed.

Lemma stagedBy_app evs1 evs2 :
  stagedBy exts (evs1 ++ evs2) = stagedBy exts evs1 ++ stagedBy exts evs2.
Proof. unfold stagedBy. apply flat_map_app. Qed.

Lemma eventsDelta_add evs1 evs2 e1 r1 e2 r2 m :
  adds m (addDelta (eventsDelta exts evs1 e1 r1)
                   (eventsDelta exts evs2 e2 r2)) ->
  adds m (eventsDelta exts (evs1 ++ evs2) (e1 + e2) (r1 + r2)).
Proof.
  apply adds_same; cbn;
    [rewrite filterTrace_app|rewrite stagedBy_app| |]; reflexivity.
Qed.

(** *** Entries of an ordinary source bucket *)

Section Ordinary.
Hypothesis bucket_named : bucket <> EmptyString.
Hypothesis not_users : bucket <> "users..bucket".
Hypothesis not_metastore : bucket <> "metastore".

Lemma processLogEntry_ordinary entry :
  adds (_processLogEntry target exts (Some bucket) entry)
       (eventsDelta exts
          (if passedOn entry
           then [tailEvent target (Some bucket) entry] else [])
          0 0).
Proof.
  unfold _processLogEntry, passedOn.
  destruct (bool_decide (e_key entry = None)
            && bool_decide (e_type entry = None)); cbn [negb].
  { apply adds_ret. }
  assert (Js.truthy (Some bucket) = true) as ->
    by (destruct bucket; [contradiction|reflexivity]).
  cbn [negb].
  unfold Js.strictEq at 1.
  rewrite bool_decide_eq_false_2 by congruence.
  unfold Js.strictEq at 1.
  rewrite bool_decide_eq_false_2 by congruence.
  intros s. unfold bind at 1. unfold ret at 1.
  destruct (callFilters_adds (tailEvent target (Some bucket) entry) s)
    as (s' & E & X).
  exists s'. split; [|exact X].
  rewrite <- E. unfold tailEvent. cbn [fst snd].
  destruct (Js.strictEq (Some bucket) (e_key entry)); reflexivity.
Qed.

Lemma flat_map_compose {A B C} (g : B -> list C) (h : A -> list B) l :
  flat_map (fun x => flat_map g (h x)) l = flat_map g (flat_map h l).
Proof.
  induction l as [|x l IH]; [reflexivity|].
  cbn [flat_map]. rewrite flat_map_app, IH. reflexivity.
Qed.

Lemma entry_events (b : bool) (ev : LogEntry -> Event) l :
  flat_map (fun e => if b then if passedOn e then [ev e] else []
                     else []) l
  = if b then ev <$> List.filter passedOn l else [].
Proof.
  induction l as [|e l IH]; [destruct b; reflexivity|].
  cbn [flat_map List.filter]. rewrite IH.
  destruct b; [|reflexivity]. destruct (passedOn e); reflexivity.
Qed.

Lemma tailEvents_one record :
  tailEvents bucket target [record]
  = if Js.strictEq (db record) (Some bucket)
    then tailEvent target (db record)
           <$> List.filter passedOn (entries record)
    else [].
Proof. unfold tailEvents. cbn [flat_map]. apply app_nil_r. Qed.

Lemma onData_adds record :
  adds (onData bucket target exts record)
       (eventsDelta exts (tailEvents bucket target [record])
          (Z.of_nat (length (entries record))) 1).
Proof.
  unfold onData, _setEntryBatch, _unsetEntryBatch.
  set (D := fun entry : LogEntry =>
         eventsDelta exts
           (if Js.strictEq (db record) (Some bucket)
            then if passedOn entry
                 then [tailEvent target (db record) entry] else []
            else []) 1 0).
  assert (forall entry,
    adds (modify (withBatch incrEntriesRead) ;;;
          if Js.strictEq (db record) (Some bucket)
          then _processLogEntry target exts (db record) entry
          else ret tt)%js (D entry)) as Hentry.
  { intros entry. subst D. cbn beta.
    apply (eventsDelta_add [] _ 1 0 0 0).
    apply adds_bind.
    - apply incrEntriesRead_adds.
    - destruct (Js.strictEq (db record) (Some bucket)) eqn:E.
      + unfold Js.strictEq in E. apply bool_decide_eq_true in E.
        rewrite E. apply processLogEntry_ordinary.
      + apply adds_ret. }
  pose proof (adds_eachSeries _ D (entries record) Hentry) as Hloop.
  pose proof incrRecordsRead_adds as Hrec.
  eapply adds_same;
    [| | | |
     apply (adds_bind _ _ _ _ Hrec
              (adds_bind _ _ _ _ adds_ret
                 (adds_bind _ _ _ _ Hloop adds_ret)))].
  - cbn [addDelta d_calls eventsDelta noDelta app].
    rewrite !app_nil_r, sumDelta_calls. subst D.
    cbn [eventsDelta d_calls]. unfold filterTrace.
    rewrite flat_map_compose, entry_events, tailEvents_one.
    reflexivity.
  - cbn [addDelta d_staged eventsDelta noDelta app].
    rewrite !app_nil_r, sumDelta_staged. subst D.
    cbn [eventsDelta d_staged]. unfold stagedBy.
    rewrite flat_map_compose, entry_events, tailEvents_one.
    reflexivity.
  - cbn. rewrite (sumDelta_entries _ _ 1) by reflexivity. lia.
  - cbn. rewrite (sumDelta_records _ _ 0) by reflexivity. lia.
Qed.

Lemma eachSeries_onData_adds recs :
  adds (eachSeries (onData bucket target exts) recs)
       (eventsDelta exts (tailEvents bucket target recs)
          (Z.of_nat (length (flat_map entries recs)))
          (Z.of_nat (length recs))).
Proof.
  eapply adds_same;
    [| | | |apply (adds_eachSeries _ _ recs onData_adds)].
  - rewrite sumDelta_calls. cbn [eventsDelta d_calls].
    unfold filterTrace. rewrite flat_map_compose. f_equal.
    unfold tailEvents. apply flat_map_ext. intros r.
    cbn [flat_map]. apply app_nil_r.
  - rewrite sumDelta_staged. cbn [eventsDelta d_staged].
    unfold stagedBy. rewrite flat_map_compose. f_equal.
    unfold tailEvents. apply flat_map_ext. intros r.
    cbn [flat_map]. apply app_nil_r.
  - cbn [eventsDelta d_entries].
    induction recs as [|r l IH]; [reflexivity|].
    cbn [fmap list_fmap sumDelta foldr addDelta d_entries eventsDelta
         flat_map].
    fold (sumDelta ((fun record =>
            eventsDelta exts (tailEvents bucket target [record])
              (Z.of_nat (length (entries record))) 1) <$> l)).
    rewrite IH, length_app. lia.
  - rewrite (sumDelta_records _ _ 1) by reflexivity.
    cbn [eventsDelta d_records]. lia.
Qed.


(** The same on the stream that [getRaftLog] hands over: the reader
    receives the records as the pipe into the record stream leaves
    them, and hears of the end of the stream only if the pipe has
    not paused it; an error of the stream is raised there, and does
    not reach the reader. *)
Lemma piped_prepare_adds s hdr start recs fin :
  logRes (batchState s)
    = Some {| info := hdr;
              log := LogPiped {| records := recs; ending := fin |} |} ->
  initState (batchState s) = None ->
  info_start hdr = Some start ->
  exists s',
    _processPrepareEntries bucket target exts VID_SEP s
      = (if Producer.pausesSource recs then Thrown Stalled
         else match fin with Ends => Done tt | Breaks e => Thrown e end,
         s')
    /\ extends (eventsDelta exts
                  (tailEvents bucket target (Producer.pipedRecords recs))
                  (Z.of_nat (length (flat_map entries
                                       (Producer.pipedRecords recs))))
                  (Z.of_nat (length (Producer.pipedRecords recs)))) s s'.
Proof.
  intros Hlog Hinit Hstart.
  destruct (eachSeries_onData_adds (Producer.pipedRecords recs) s)
    as (s' & E & X).
  exists s'. split; [|exact X].
  unfold _processPrepareEntries, bind, get.
  rewrite Hlog. cbn [log info]. rewrite Hinit, Hstart.
  cbn [records ending]. rewrite E.
  destruct (Producer.pausesSource recs); [reflexivity|].
  destruct fin; reflexivity.
Qed.


End Ordinary.

(** *** Entries of a snapshot list *)

Lemma adds_eachSeries_Forall {A} (P : A -> Prop) (f : A -> M State unit)
    (D : A -> Delta) l :
  Forall P l ->
  (forall x, P x -> adds (f x) (D x)) ->
  adds (eachSeries f l) (sumDelta (D <$> l)).
Proof.
  intros Hl Hf. induction Hl as [|x l Hx _ IH];
    cbn [eachSeries fmap list_fmap].
  - apply adds_ret.
  - apply (adds_bind _ _ _ _ (Hf x Hx) IH).
Qed.

Lemma processLogEntry_snapshot entry :
  is_Some (e_key entry) -> Js.truthy (e_db entry) = false ->
  adds (_processLogEntry target exts (e_db entry) entry)
       (eventsDelta exts [snapshotEvent entry] 0 0).
Proof.
  intros [k Hk] Hdb. unfold _processLogEntry. rewrite Hk, Hdb.
  cbn [bool_decide decide_rel andb negb].
  rewrite bool_decide_eq_false_2 by discriminate. cbn [andb].
  rewrite <- Hk. apply callFilters_adds.
Qed.

Hypothesis separator_set : VID_SEP <> EmptyString.

Lemma isVersionedLogKey_occursIn k s :
  _isVersionedLogKey VID_SEP (Some k) s = (Done (occursIn VID_SEP k), s).
Proof.
  unfold _isVersionedLogKey, splitKey, bind, ret.
  rewrite SplitFacts.split_second_piece by exact separator_set.
  reflexivity.
Qed.

(** X6. A key counts as versioned exactly when the version separator
    occurs in it; asking changes nothing. *)
Theorem isVersionedLogKey_iff_separator k s :
  exists b,
    _isVersionedLogKey VID_SEP (Some k) s = (Done b, s)
    /\ (b = true <-> exists a c, k = a +:+ VID_SEP +:+ c).
Proof.
  exists (occursIn VID_SEP k). split.
  - apply isVersionedLogKey_occursIn.
  - apply SplitFacts.occursIn_spec.
Qed.

Lemma snapshot_entry_adds entry :
  is_Some (e_key entry) /\ Js.truthy (e_db entry) = false ->
  adds (versioned <- _isVersionedLogKey VID_SEP (e_key entry) ;;
        (if versioned : bool
         then modify (withBatch incrRecordsRead)
         else ret tt) ;;;
        modify (withBatch incrEntriesRead) ;;;
        _processLogEntry target exts (e_db entry) entry)%js
       (eventsDelta exts [snapshotEvent entry] 1
          (Z.of_nat (length (versionedEntries VID_SEP [entry])))).
Proof.
  intros [[k Hk] Hdb].
  assert (adds
    ((if occursIn VID_SEP k
      then modify (withBatch incrRecordsRead)
      else ret tt) ;;;
     modify (withBatch incrEntriesRead) ;;;
     _processLogEntry target exts (e_db entry) entry)%js
    (eventsDelta exts [snapshotEvent entry] 1
       (Z.of_nat (length (versionedEntries VID_SEP [entry]))))) as H.
  { assert (adds (if occursIn VID_SEP k
                  then modify (withBatch incrRecordsRead)
                  else ret tt)
              {| d_calls := []; d_staged := []; d_entries := 0;
                 d_records := if occursIn VID_SEP k then 1 else 0 |})
      as Hv.
    { destruct (occursIn VID_SEP k);
        [apply incrRecordsRead_adds|apply adds_ret]. }
    eapply adds_same;
      [| | | |
        apply (adds_bind _ _ _ _ Hv
                 (adds_bind _ _ _ _ incrEntriesRead_adds
                    (processLogEntry_snapshot entry
                       (ex_intro _ k Hk) Hdb)))].
    - reflexivity.
    - reflexivity.
    - reflexivity.
    - cbn. unfold versionedEntries. cbn [List.filter]. rewrite Hk.
      destruct (occursIn VID_SEP k); reflexivity. }
  intros s. destruct (H s) as (s' & E & X). exists s'.
  split; [|exact X]. rewrite <- E. unfold bind at 1.
  rewrite Hk, isVersionedLogKey_occursIn. reflexivity.
Qed.

Lemma snapshot_prepare_adds s info_ l ist :
  logRes (batchState s) = Some {| info := info_; log := LogArray l |} ->
  initState (batchState s) = Some ist ->
  Forall (fun e => is_Some (e_key e) /\ Js.truthy (e_db e) = false) l ->
  exists s',
    _processPrepareEntries bucket target exts VID_SEP s = (Done tt, s')
    /\ extends (eventsDelta exts (snapshotEvent <$> l)
                  (Z.of_nat (length l))
                  (Z.of_nat (length (versionedEntries VID_SEP l)))) s s'.
Proof.
  intros Hlog Hinit Hl.
  pose proof (adds_eachSeries_Forall _ _ _ l Hl snapshot_entry_adds)
    as Hloop.
  pose proof (adds_bind _ _ _ _ adds_ret
                (adds_bind _ _ _ _ Hloop adds_ret)) as Hall.
  destruct (Hall s) as (s' & E & C & P & NE & NR & F).
  cbn [addDelta noDelta d_calls d_staged d_entries d_records app]
    in C, P, NE, NR.
  rewrite app_nil_r in C, P. rewrite Z.add_0_r in NE, NR.
  exists s'. split.
  { unfold _processPrepareEntries. unfold bind at 1. unfold get.
    rewrite Hlog. cbn [log info]. rewrite Hinit.
    unfold _setEntryBatch, _unsetEntryBatch. exact E. }
  unfold extends. cbn [eventsDelta d_calls d_staged d_entries d_records].
  rewrite C, P, NE, NR.
  rewrite sumDelta_calls, sumDelta_staged,
    (sumDelta_entries _ _ 1) by reflexivity.
  cbn [eventsDelta d_calls d_staged].
  unfold filterTrace at 1, stagedBy at 1.
  rewrite !flat_map_compose.
  assert (flat_map (fun x => [snapshotEvent x]) l = snapshotEvent <$> l)
    as -> by (clear; induction l as [|x l' IH];
              [reflexivity|cbn [flat_map app]; rewrite IH; reflexivity]).
  split_and!; try reflexivity; [lia| |exact F]. f_equal.
  rewrite sumDelta_records_sum. cbn [eventsDelta d_records].
  apply versionedEntries_count.
Qed.

(** X8. The snapshot phase of [_processPrepareEntries] shows the
    extensions every entry of the list as it is -- type, bucket, key
    and value untouched -- in the order of the list, each entry to
    every extension in turn.  Every entry is counted as an entry, and
    those whose key holds the version separator as records as well.
    (The entries of a snapshot have a key and carry no [db].) *)
Theorem snapshot_prepare_passes_entries s info_ l ist :
  logRes (batchState s) = Some {| info := info_; log := LogArray l |} ->
  initState (batchState s) = Some ist ->
  Forall (fun e => is_Some (e_key e) /\ Js.truthy (e_db e) = false) l ->
  exists s',
    _processPrepareEntries bucket target exts VID_SEP s = (Done tt, s')
    /\ filterCalls s'
       = filterCalls s ++ filterTrace exts (snapshotEvent <$> l)
    /\ entriesToPublish (batchState s')
       = foldl pushEntry (entriesToPublish (batchState s))
               (stagedBy exts (snapshotEvent <$> l))
    /\ nbLogEntriesRead (batchState s')
       = nbLogEntriesRead (batchState s) + Z.of_nat (length l)
    /\ nbLogRecordsRead (batchState s')
       = nbLogRecordsRead (batchState s)
         + Z.of_nat (length (versionedEntries VID_SEP l)).
Proof.
  intros Hlog Hinit Hl.
  destruct (snapshot_prepare_adds s info_ l ist Hlog Hinit Hl)
    as (s' & E & C & P & NE & NR & _).
  exists s'. cbn in *. auto.
Qed.

End Instance.

(** *** The theorems at concrete batches *)

Import Scenario MoreScenarios.


(** The separator occurs in the key of a version, not in the key of
    the master. *)
Lemma isVersionedLogKey_iff_separator_witness :
  exists b,
    _isVersionedLogKey separator (Some ("object1" +:+ separator +:+ "v1"))
      tailRead = (Done b, tailRead)
    /\ (b = true <->
        exists a c,
          "object1" +:+ separator +:+ "v1" = a +:+ separator +:+ c).
Proof.
  apply (isVersionedLogKey_iff_separator separator ltac:(discriminate)).
Defined.

(** The snapshot of [snapshotEnv]: its one entry reaches the extension
    as it is, and counts as an entry only. *)
Lemma snapshot_prepare_passes_entries_witness :
  exists s',
    _processPrepareEntries "bucket1" "zenko" [stageAll] separator
      snapshotRead = (Done tt, s')
    /\ filterCalls s'
       = filterCalls snapshotRead
         ++ filterTrace [stageAll] (snapshotEvent <$> [putEntry "object1"])
    /\ entriesToPublish (batchState s')
       = foldl pushEntry (entriesToPublish (batchState snapshotRead))
               (stagedBy [stageAll] (snapshotEvent <$> [putEntry "object1"]))
    /\ nbLogEntriesRead (batchState s')
       = nbLogEntriesRead (batchState snapshotRead)
         + Z.of_nat (length [putEntry "object1"])
    /\ nbLogRecordsRead (batchState s')
       = nbLogRecordsRead (batchState snapshotRead)
         + Z.of_nat (length (versionedEntries separator
                               [putEntry "object1"])).
Proof.
  apply (snapshot_prepare_passes_entries "bucket1" "zenko" [stageAll]
           separator ltac:(discriminate) snapshotRead
           {| info_start := Some 1; info_end := None;
              info_cseq := None; info_prune := None |}
           [putEntry "object1"]
           {| isStatusComplete := true; versionMarker := None;
              keyMarker := None; cseq := Some 7 |}).
  - vm_compute. reflexivity.
  - vm_compute. reflexivity.
  - repeat constructor. exists "object1". reflexivity.
Defined.

End PrepareFacts.

(** ** Whole batches *)

Module BatchFacts.
Import Stdlib.Strings.Ascii.
Import Reader ReaderSpec PrepareSpec InitSpec.

(** *** Reading the init state *)

Lemma ensureNode_data zk p q :
  default None (ensureNode zk p !! q) = default None (zk !! q).
Proof.
  unfold ensureNode. destruct (zk !! p) eqn:E; [reflexivity|].
  destruct (decide (p = q)) as [->|Hne].
  - rewrite lookup_insert_eq, E. reflexivity.
  - rewrite lookup_insert_ne by exact Hne. reflexivity.
Qed.

Lemma ensureNode_keeps zk p q d :
  zk !! q = Some d -> ensureNode zk p !! q = Some d.
Proof.
  unfold ensureNode. intros H. destruct (zk !! p) eqn:E; [exact H|].
  rewrite lookup_insert_ne by congruence. exact H.
Qed.

Lemma ensureNode_there zk p : is_Some (ensureNode zk p !! p).
Proof.
  unfold ensureNode. destruct (zk !! p) eqn:E; [rewrite E; eauto|].
  rewrite lookup_insert_eq. eauto.
Qed.

Lemma ensureNode_same zk p : is_Some (zk !! p) -> ensureNode zk p = zk.
Proof. unfold ensureNode. intros [d ->]. reflexivity. Qed.

Lemma ensureNodes_data zk ps q :
  default None (foldl ensureNode zk ps !! q) = default None (zk !! q).
Proof.
  revert zk. induction ps as [|p ps IH]; intros zk; [reflexivity|].
  cbn [foldl]. rewrite IH. apply ensureNode_data.
Qed.

Lemma ensureNodes_keeps zk ps q d :
  zk !! q = Some d -> foldl ensureNode zk ps !! q = Some d.
Proof.
  revert zk. induction ps as [|p ps IH]; intros zk H; [exact H|].
  cbn [foldl]. apply IH, ensureNode_keeps, H.
Qed.

Lemma ensureNodes_there zk ps p :
  p ∈ ps -> is_Some (foldl ensureNode zk ps !! p).
Proof.
  revert zk. induction ps as [|q ps IH]; intros zk Hp; [inversion Hp|].
  cbn [foldl]. apply elem_of_cons in Hp as [->|Hp]; [|apply IH, Hp].
  destruct (ensureNode_there zk q) as [d Hd].
  rewrite (ensureNodes_keeps _ ps _ _ Hd). eauto.
Qed.

Lemma ensureNodes_same zk ps :
  (forall p, p ∈ ps -> is_Some (zk !! p)) -> foldl ensureNode zk ps = zk.
Proof.
  induction ps as [|q ps IH]; intros H; [reflexivity|].
  cbn [foldl]. rewrite ensureNode_same by (apply H; left).
  apply IH. intros p Hp. apply H. right. exact Hp.
Qed.

Section InitState.
Variable base : string.
Variable env : Env.
Hypothesis up : forall c, coordinatorUp env c = true.

Lemma readInitNodes_up l st :
  asyncMap (readInitNode base env) l st
  = (Done ((fun n => default None (zkNodes st !! initPath base n)) <$> l),
     setZkNodes (foldl ensureNode (zkNodes st) (initPath base <$> l)) st).
Proof.
  revert st. induction l as [|n l IH]; intros st.
  - destruct st; reflexivity.
  - cbn [asyncMap fmap list_fmap foldl].
    rewrite (ReaderFacts.readInitNode_up base env up).
    assert (match zkNodes st !! initPath base n with
            | Some _ => st
            | None => setZkNodes (<[initPath base n := None]> (zkNodes st)) st
            end
            = setZkNodes (ensureNode (zkNodes st) (initPath base n)) st)
      as ->.
    { unfold ensureNode.
      destruct (zkNodes st !! initPath base n); destruct st; reflexivity. }
    rewrite IH.
    assert ((fun m => default None
               (zkNodes (setZkNodes (ensureNode (zkNodes st)
                                       (initPath base n)) st)
                  !! initPath base m)) <$> l
            = (fun m => default None (zkNodes st !! initPath base m))
                <$> l) as ->.
    { apply list_fmap_ext. intros _ m _.
      destruct st; cbn [zkNodes setZkNodes]. apply ensureNode_data. }
    destruct st; reflexivity.
Qed.

Lemma readInitState_up_explicit st :
  _readInitState base env st
  = (Done {| isStatusComplete :=
               Js.strictEq
                 (default None
                    (zkNodes st !! initPath base "isStatusComplete"))
                 (Some "true");
             versionMarker :=
               default None (zkNodes st !! initPath base "versionMarker");
             keyMarker :=
               default None (zkNodes st !! initPath base "keyMarker");
             cseq := None |},
     setZkNodes (foldl ensureNode (zkNodes st)
                   (initPath base <$> getInitIngestionNodes)) st).
Proof.
  unfold _readInitState, bind. rewrite readInitNodes_up.
  unfold getInitIngestionNodes at 1. cbn [fmap list_fmap].
  reflexivity.
Qed.

(** X1. While the Coordinator answers, [_readInitState] succeeds and
    settles the init nodes: it creates the nodes that are missing,
    leaves the data of every existing node as it is, and touches
    nothing but the init nodes; read again, it gives the same answer
    and changes nothing. *)
Theorem readInitState_settles st :
  exists r st1,
    _readInitState base env st = (Done r, st1)
    /\ _readInitState base env st1 = (Done r, st1)
    /\ (forall n, n ∈ getInitIngestionNodes ->
                  is_Some (zkNodes st1 !! initPath base n))
    /\ (forall p d, zkNodes st !! p = Some d -> zkNodes st1 !! p = Some d)
    /\ offNodes st1 = offNodes st.
Proof.
  set (st1 := setZkNodes
                (foldl ensureNode (zkNodes st)
                   (initPath base <$> getInitIngestionNodes)) st).
  assert (forall n, n ∈ getInitIngestionNodes ->
                    is_Some (zkNodes st1 !! initPath base n)) as Hthere.
  { intros n Hn. subst st1. destruct st; cbn [zkNodes setZkNodes].
    apply ensureNodes_there. apply list_elem_of_fmap. eauto. }
  assert (asyncMap (readInitNode base env) getInitIngestionNodes st1
          = (Done ((fun n => default None (zkNodes st !! initPath base n))
                     <$> getInitIngestionNodes), st1)) as Hagain.
  { rewrite readInitNodes_up. f_equal.
    - f_equal. apply list_fmap_ext. intros _ n _.
      subst st1. destruct st; cbn [zkNodes setZkNodes].
      apply ensureNodes_data.
    - rewrite ensureNodes_same.
      + subst st1. destruct st; reflexivity.
      + intros p (n & -> & Hn)%list_elem_of_fmap. apply Hthere, Hn. }
  eexists _, st1. split_and!.
  - unfold _readInitState, bind. rewrite readInitNodes_up.
    unfold getInitIngestionNodes at 1. cbn [fmap list_fmap].
    reflexivity.
  - unfold _readInitState, bind. rewrite Hagain.
    unfold getInitIngestionNodes at 1. cbn [fmap list_fmap].
    reflexivity.
  - exact Hthere.
  - intros p d H. subst st1. destruct st; cbn [zkNodes setZkNodes] in *.
    apply ensureNodes_keeps, H.
  - subst st1. destruct st; reflexivity.
Qed.

End InitState.

(** *** Batches that do not complete *)

Lemma readInitState_down base env st :
  (forall c, coordinatorUp env c = false) ->
  _readInitState base env st = (Failed CoordinatorError, st).
Proof.
  intros down. unfold _readInitState, bind, getInitIngestionNodes.
  cbn [asyncMap]. unfold readInitNode, getData. rewrite !down.
  reflexivity.
Qed.

Section Instance.
Variable bucket : string.
Variable target : string.
Variable base : string.
Variable raftId : Z.
Variable exts : list Extension.
Variable VID_SEP : string.

(** X2. When the Coordinator does not answer, a batch fails at once
    with the Coordinator's error: the source is not asked for records,
    no extension is called, nothing is sent and no offset is written.
    The batch leaves the reader as it was, with an empty batch state
    and [_batchInProgress] cleared. *)
Theorem coordinator_down_fails_batch maxRead env st :
  (forall c, coordinatorUp env c = false) ->
  processLogEntries bucket target base raftId exts VID_SEP maxRead env st
  = (Failed CoordinatorError,
     withBatch (fun _ => newBatchState) (setBatchInProgress false st)).
Proof.
  intros down. unfold processLogEntries, _processReadRecords.
  unfold bind at 1 2. rewrite readInitState_down by exact down.
  destruct st; reflexivity.
Qed.

(** X3. A batch that does not complete -- its callback gets an error,
    or it throws -- has written nothing to the offset node.  The
    reader's own [logOffset] is as it was too, with one exception:
    when the error is that of the write of the offset node itself,
    [logOffset] has been raised to the staged offset before the write
    was tried and stays there, ahead of the node. *)
Theorem failed_batch_writes_no_offset maxRead env st o st' :
  processLogEntries bucket target base raftId exts VID_SEP maxRead env st
    = (o, st') ->
  o <> Done tt ->
  zkLogOffset st' = zkLogOffset st
  /\ logOffsetWrites st' = logOffsetWrites st
  /\ (logOffset st' = logOffset st
      \/ (o = Failed CoordinatorError
          /\ coordinatorUp env WriteLogOffset = false
          /\ nextLogOffset (batchState st') = Some (logOffset st')
          /\ logOffset st < logOffset st'
          /\ zkLogOffset st < logOffset st')).
Proof.
  intros H Ho.
  apply ReaderFacts.processLogEntries_checkpoint in H
    as [[_ Hp]|(s3 & s4 & P3 & Hsave & P4 & B4)].
  - unfold progress in Hp. injection Hp as Hl Hz Hw. auto.
  - unfold progress in P3, P4. injection P3 as Hl3 Hz3 Hw3.
    injection P4 as Hl4 Hz4 Hw4.
    apply ReaderFacts.processSaveLogOffset_cases in Hsave as [Hb Hsave].
    destruct Hsave
      as [[Hp _]
         |(n & Hn & [(Hlt & Hl & Hz & Hw & [[-> _]|(-> & Hzn & Hdown)])
                    |(-> & _)])];
      try contradiction.
    + unfold progress in Hp. injection Hp as Hl Hz Hw.
      split_and!; [congruence..|left; congruence].
    + split_and!; [congruence..|right].
      split_and!; [reflexivity|exact Hdown|congruence|lia|lia].
Qed.

(** *** The flag *)

Lemma writeLogOffset_keeps_flag env :
  keeps _batchInProgress (_writeLogOffset env).
Proof.
  intros s o s'. unfold _writeLogOffset.
  destruct (zkLogOffset s <? logOffset s);
    [destruct (coordinatorUp env WriteLogOffset)|];
    intros [= _ <-]; destruct s; reflexivity.
Qed.

Lemma flag_of_offNodes s s' :
  offNodes s' = offNodes s -> _batchInProgress s' = _batchInProgress s.
Proof. unfold offNodes. congruence. Qed.

Lemma flag_of_prepareFrame s s' :
  prepareFrame s' = prepareFrame s ->
  _batchInProgress s' = _batchInProgress s.
Proof. unfold prepareFrame. congruence. Qed.

Lemma phases_keep_flag maxRead env :
  keeps _batchInProgress
    (_processReadRecords bucket base raftId maxRead env ;;;
     _processPrepareEntries bucket target exts VID_SEP ;;;
     _processPublishEntries target env ;;;
     _processSaveLogOffset base env)%js.
Proof.
  repeat (apply keeps_bind; [|intros _]).
  - unfold _processReadRecords. ReaderFacts.keeps_walk.
    + eapply keeps_weaken; [apply flag_of_offNodes|].
      apply ReaderFacts.readInitNode_keeps.
    + eapply keeps_weaken; [|apply ReaderFacts.callSnapshot_keeps].
      intros s s'. congruence.
  - eapply keeps_weaken; [apply flag_of_prepareFrame|].
    apply ReaderFacts.processPrepareEntries_keeps.
  - eapply keeps_weaken; [|apply ReaderFacts.processPublishEntries_keeps].
    intros s s'. congruence.
  - unfold _processSaveLogOffset. ReaderFacts.keeps_walk;
      first [ apply writeLogOffset_keeps_flag
            | eapply keeps_weaken; [apply flag_of_offNodes|];
              first [ apply ReaderFacts.writeInitState_keeps
                    | apply ReaderFacts.setData_keeps ] ].
Qed.

(** X4. [_batchInProgress] is set for the duration of a batch and
    only then: once the callback of [processLogEntries] has been
    called, with an error or without, [isBatchInProgress()] is false;
    after a batch that threw it is still true. *)
Theorem batch_flag_follows_callback maxRead env st :
  _batchInProgress
    (snd (processLogEntries bucket target base raftId exts VID_SEP
            maxRead env st))
  = match fst (processLogEntries bucket target base raftId exts VID_SEP
                 maxRead env st) with
    | Thrown _ => true
    | _ => false
    end.
Proof.
  unfold processLogEntries.
  set (s0 := withBatch _ (setBatchInProgress true st)).
  destruct (bind _ _ s0) as [o1 s1] eqn:E.
  pose proof (phases_keep_flag maxRead env _ _ _ E) as K.
  assert (_batchInProgress s0 = true) as H0 by (destruct st; reflexivity).
  destruct o1; cbn [fst snd]; [destruct s1; reflexivity..|congruence].
Qed.

(** *** Once tailing, always tailing *)

Lemma save_keeps_nodes_when_tailing env s o s' :
  initState (batchState s) = None ->
  _processSaveLogOffset base env s = (o, s') ->
  zkNodes s' = zkNodes s.
Proof.
  intros Hi. unfold _processSaveLogOffset, bind, get. rewrite Hi.
  unfold _writeInitState, ret, modify, _writeLogOffset.
  destruct (nextLogOffset (batchState s)) as [n|];
    [|intros [= _ <-]; reflexivity].
  destruct (bool_decide (n <> logOffset s));
    [|intros [= _ <-]; reflexivity].
  destruct (logOffset s <? n);
    (destruct (zkLogOffset _ <? logOffset _);
     [destruct (coordinatorUp env WriteLogOffset)|]);
    intros [= _ <-]; destruct s; reflexivity.
Qed.

(** The read phase leaves the data of the [isStatusComplete] node as
    it is, whichever calls the Coordinator answers. *)
Lemma readInitNode_keeps_mark env n :
  keeps (fun s => (default None
                     (zkNodes s !! initPath base "isStatusComplete"),
                   initState (batchState s)))
        (readInitNode base env n).
Proof.
  intros s o s'. unfold readInitNode, getData, mkdirp, bind, ret.
  destruct (coordinatorUp env (GetData _));
    [|intros [= _ <-]; reflexivity].
  destruct (zkNodes s !! initPath base n) eqn:E;
    [intros [= _ <-]; reflexivity|].
  cbn [bool_decide decide_rel]. rewrite bool_decide_eq_false_2 by tauto.
  destruct (coordinatorUp env (Mkdirp _));
    [|intros [= _ <-]; reflexivity].
  rewrite E. intros [= _ <-].
  pose proof (ensureNode_data (zkNodes s) (initPath base n)
                (initPath base "isStatusComplete")) as H.
  unfold ensureNode in H. rewrite E in H.
  destruct s; cbn [zkNodes setZkNodes batchState] in *. rewrite H.
  reflexivity.
Qed.

Lemma processReadRecords_keeps_mark maxRead env :
  keeps (fun s => (default None
                     (zkNodes s !! initPath base "isStatusComplete"),
                   initState (batchState s)))
        (_processReadRecords bucket base raftId maxRead env).
Proof.
  unfold _processReadRecords. ReaderFacts.keeps_walk.
  - apply readInitNode_keeps_mark.
  - eapply keeps_weaken; [|apply ReaderFacts.callSnapshot_keeps].
    intros s s'. congruence.
Qed.

Lemma tailing_batch_keeps_mark maxRead env st :
  zkNodes st !! initPath base "isStatusComplete" = Some (Some "true") ->
  zkNodes (snd (processLogEntries bucket target base raftId exts VID_SEP
                  maxRead env st))
    !! initPath base "isStatusComplete" = Some (Some "true").
Proof.
  intros Hmark.
  unfold processLogEntries.
  set (s0 := withBatch _ (setBatchInProgress true st)).
  assert (zkNodes s0 = zkNodes st) as Hz0 by (destruct st; reflexivity).
  assert (initState (batchState s0) = None) as Hi0
    by (destruct st; reflexivity).
  assert (forall v s, zkNodes (setBatchInProgress v s) = zkNodes s)
    as Hflag by (intros v []; reflexivity).
  unfold bind.
  destruct (_processReadRecords bucket base raftId maxRead env s0)
    as [o2 s2] eqn:E2.
  pose proof (processReadRecords_keeps_mark maxRead env _ _ _ E2) as K2.
  cbv beta in K2. rewrite Hz0, Hmark, Hi0 in K2. simpl in K2.
  injection K2 as Hd2 Hi2.
  assert (zkNodes s2 !! initPath base "isStatusComplete"
          = Some (Some "true")) as Hz2.
  { destruct (zkNodes s2 !! initPath base "isStatusComplete")
      as [[d|]|]; simpl in Hd2; congruence. }
  clear Hd2.
  destruct o2 as [u|e|e]; cbn [snd]; rewrite ?Hflag;
    [|exact Hz2..].
  destruct (_processPrepareEntries bucket target exts VID_SEP s2)
    as [o3 s3] eqn:E3.
  pose proof (ReaderFacts.processPrepareEntries_keeps
                bucket target exts VID_SEP _ _ _ E3) as K3.
  unfold prepareFrame in K3.
  assert (zkNodes s3 = zkNodes s2) as Hz3 by congruence.
  assert (initState (batchState s3) = None) as Hi3 by congruence.
  destruct o3 as [u3|e|e]; cbn [snd]; rewrite ?Hflag;
    [|rewrite Hz3; exact Hz2..].
  destruct (_processPublishEntries target env s3) as [o4 s4] eqn:E4.
  pose proof (ReaderFacts.processPublishEntries_keeps
                target env _ _ _ E4) as K4.
  assert (zkNodes s4 = zkNodes s3) as Hz4 by congruence.
  assert (initState (batchState s4) = None) as Hi4 by congruence.
  destruct o4 as [u4|e|e]; cbn [snd]; rewrite ?Hflag;
    [|rewrite Hz4, Hz3; exact Hz2..].
  destruct (_processSaveLogOffset base env s4) as [o5 s5] eqn:E5.
  pose proof (save_keeps_nodes_when_tailing _ _ _ _ Hi4 E5) as Hz5.
  destruct o5; cbn [snd]; rewrite ?Hflag;
    rewrite Hz5, Hz4, Hz3; exact Hz2.
Qed.

(** X5. Once tailing, always tailing.  When the [isStatusComplete]
    node holds "true", no sequence of batches changes it, whatever
    each batch meets and however it ends: the reader never goes back
    to the snapshot phase. *)
Theorem tail_phase_is_absorbing maxRead envs st :
  zkNodes st !! initPath base "isStatusComplete" = Some (Some "true") ->
  zkNodes (runBatches bucket target base raftId exts VID_SEP
             maxRead envs st)
    !! initPath base "isStatusComplete" = Some (Some "true").
Proof.
  revert st. induction envs as [|env envs IH]; intros st Hmark;
    cbn [runBatches]; [exact Hmark|].
  apply IH, tailing_batch_keeps_mark, Hmark.
Qed.

(** *** Records of the two special containers *)

(** X9. In a record of [users..bucket] whose key is
    [<owner>..|..<name>], and in a record of [metastore] whose key is
    [<owner>/<name>], the name is replaced by the target bucket and the
    owner is kept, whatever the name; type and value pass through and
    [bucket] stays the name of the container.  (The owner is a
    canonical id: it holds neither a dot nor a slash.) *)
Theorem special_container_key_rewrite owner name ty b v s :
  lacks "."%char owner = true ->
  lacks "/"%char owner = true ->
  _processLogEntry target exts (Some "users..bucket")
    {| e_db := Some "users..bucket"; e_type := ty; e_bucket := b;
       e_key := Some (owner +:+ "..|.." +:+ name); e_value := v |} s
  = callFilters exts
      {| ev_type := ty; ev_bucket := Some "users..bucket";
         ev_key := Some (owner +:+ "..|.." +:+ target);
         ev_value := v |} s
  /\ _processLogEntry target exts (Some "metastore")
       {| e_db := Some "metastore"; e_type := ty; e_bucket := b;
          e_key := Some (owner +:+ "/" +:+ name); e_value := v |} s
     = callFilters exts
         {| ev_type := ty; ev_bucket := Some "metastore";
            ev_key := Some (owner +:+ "/" +:+ target);
            ev_value := v |} s.
Proof.
  intros Hdot Hslash. split.
  - unfold _processLogEntry, splitKey, bind, ret. cbn.
    change (owner +:+ String "." (String "." (String "|" (String "." (String "." name)))))
      with (owner +:+ "..|.." +:+ name).
    rewrite (SplitFacts.split_at_first "."%char ".|.." owner name Hdot).
    reflexivity.
  - unfold _processLogEntry, splitKey, bind, ret. cbn.
    change (owner +:+ String "/" name) with (owner +:+ "/" +:+ name).
    rewrite (SplitFacts.split_at_first "/"%char "" owner name Hslash).
    reflexivity.
Qed.

End Instance.

(** *** A tail batch from end to end *)

(** What a batch handle holds under a key after a run of pushes: what
    it held, followed by the messages pushed under that key, in
    order. *)
Lemma stagedUnder_cons k k' m kms :
  stagedUnder k ((k', m) :: kms)
  = if decide (k' = k) then m :: stagedUnder k kms else stagedUnder k kms.
Proof.
  unfold stagedUnder. cbn [List.filter fst].
  destruct (decide (k' = k)) as [->|Hne].
  - rewrite bool_decide_eq_true_2 by reflexivity. reflexivity.
  - rewrite bool_decide_eq_false_2 by exact Hne. reflexivity.
Qed.

Lemma foldl_pushEntry_lookup h kms k :
  foldl pushEntry h kms !! k
  = match stagedUnder k kms with
    | [] => h !! k
    | ms => Some (default [] (h !! k) ++ ms)
    end.
Proof.
  revert h. induction kms as [|[k' m] kms IH]; intros h; [reflexivity|].
  cbn [foldl]. rewrite IH, stagedUnder_cons. unfold pushEntry.
  cbn [fst snd].
  destruct (decide (k' = k)) as [->|Hne].
  - rewrite lookup_insert_eq. cbn [default].
    destruct (stagedUnder k kms) as [|m' ms]; [reflexivity|].
    unfold id. rewrite <- app_assoc. reflexivity.
  - rewrite lookup_insert_ne by exact Hne. reflexivity.
Qed.

Section TailBatch.
Variable bucket : string.
Variable target : string.
Variable base : string.
Variable raftId : Z.
Variable exts : list Extension.
Variable VID_SEP : string.
Hypothesis bucket_named : bucket <> EmptyString.
Hypothesis not_users : bucket <> "users..bucket".
Hypothesis not_metastore : bucket <> "metastore".

(** The publish phase of a tail batch: it stages the next offset,
    then throws when nothing was staged under the target bucket, and
    sends what was staged otherwise. *)
Lemma publish_tail_nothing_staged env s lr :
  initState (batchState s) = None ->
  logRes (batchState s) = Some lr ->
  entriesToPublish (batchState s) !! target = None ->
  _processPublishEntries target env s
  = (Thrown TypeError,
     withBatch (setNextLogOffset
                  (Some (Js.addNullable (info_start (info lr))
                           (nbLogRecordsRead (batchState s))))) s).
Proof.
  intros Hi Hl He.
  unfold _processPublishEntries, bind, get, modify, ret, throw.
  rewrite Hi, Hl, He. reflexivity.
Qed.

Lemma publish_tail_sent env s lr msgs :
  initState (batchState s) = None ->
  logRes (batchState s) = Some lr ->
  entriesToPublish (batchState s) !! target = Some msgs ->
  msgs <> [] ->
  sendResult env msgs = None ->
  _processPublishEntries target env s
  = (Done tt,
     withBatch (setPublishedEntries (Z.of_nat (length msgs)))
       (recordSend msgs
          (withBatch (setNextLogOffset
                        (Some (Js.addNullable (info_start (info lr))
                                 (nbLogRecordsRead (batchState s))))) s))).
Proof.
  intros Hi Hl He Hne Hsend.
  unfold _processPublishEntries, _publishMetrics, bind, get, modify, ret.
  rewrite Hi, Hl, He.
  rewrite bool_decide_eq_false_2
    by (destruct msgs; [contradiction|discriminate]).
  rewrite Hsend. reflexivity.
Qed.

(** The checkpoint of a tail batch while the Coordinator answers. *)
Lemma checkpoint_tail env s n :
  (forall c, coordinatorUp env c = true) ->
  initState (batchState s) = None ->
  nextLogOffset (batchState s) = Some n ->
  exists s',
    _processSaveLogOffset base env s = (Done tt, s')
    /\ logOffset s' = Z.max (logOffset s) n
    /\ (if bool_decide (n <> logOffset s
                        /\ zkLogOffset s < Z.max (logOffset s) n)
        then zkLogOffset s' = logOffset s'
             /\ logOffsetWrites s' = logOffsetWrites s ++ [logOffset s']
        else zkLogOffset s' = zkLogOffset s
             /\ logOffsetWrites s' = logOffsetWrites s)
    /\ filterCalls s' = filterCalls s
    /\ sentBatches s' = sentBatches s
    /\ batchState s' = batchState s.
Proof.
  intros up Hi Hn.
  unfold _processSaveLogOffset, bind, get. rewrite Hi.
  unfold _writeInitState, ret, modify, _writeLogOffset. rewrite Hn.
  rewrite (up WriteLogOffset).
  destruct s as [lo bp bs zk zlo ws fc sb ip].
  cbn [logOffset zkLogOffset logOffsetWrites setLogOffset].
  destruct (decide (n = lo)) as [->|Hne].
  - rewrite (bool_decide_eq_false_2 (lo <> lo)) by tauto.
    rewrite (bool_decide_eq_false_2 (_ /\ _)) by tauto.
    eexists. split; [reflexivity|].
    cbn [logOffset zkLogOffset logOffsetWrites filterCalls sentBatches
         batchState].
    split_and!; try reflexivity. lia.
  - rewrite (bool_decide_eq_true_2 (n <> lo)) by exact Hne.
    destruct (Z.ltb_spec lo n) as [Hlt|Hge];
      cbn [logOffset zkLogOffset logOffsetWrites setLogOffset].
    + rewrite Z.max_r by lia.
      destruct (Z.ltb_spec zlo n) as [Hz|Hz].
      * rewrite (bool_decide_eq_true_2 (_ /\ _)) by tauto.
        eexists. split; [reflexivity|].
        cbn [logOffset zkLogOffset logOffsetWrites filterCalls
             sentBatches batchState storeLogOffset].
        split_and!; reflexivity.
      * rewrite (bool_decide_eq_false_2 (_ /\ _)) by lia.
        eexists. split; [reflexivity|].
        cbn [logOffset zkLogOffset logOffsetWrites filterCalls
             sentBatches batchState].
        split_and!; reflexivity.
    + rewrite Z.max_l by lia.
      destruct (Z.ltb_spec zlo lo) as [Hz|Hz].
      * rewrite (bool_decide_eq_true_2 (_ /\ _)) by tauto.
        eexists. split; [reflexivity|].
        cbn [logOffset zkLogOffset logOffsetWrites filterCalls
             sentBatches batchState storeLogOffset].
        split_and!; reflexivity.
      * rewrite (bool_decide_eq_false_2 (_ /\ _)) by lia.
        eexists. split; [reflexivity|].
        cbn [logOffset zkLogOffset logOffsetWrites filterCalls
             sentBatches batchState].
        split_and!; reflexivity.
Qed.

(** X10. A tail batch from end to end, for a source bucket other than
    the two special containers.  Conditions: the snapshot is marked
    complete; the Coordinator answers every call; the source answers
    with a header whose [info.start] is [start] and a stream that
    ends after fewer than [2 * highWaterMark - 1] records, 30 at
    most, so that the pipe into the record stream does not pause it.
    The reader receives the records as that pipe leaves them, the
    first [highWaterMark] with their types set, and the extensions
    see the events of the records of the source bucket in stream
    order.  If they stage nothing under the target bucket the
    batch throws a TypeError in its publish phase: nothing is sent,
    no offset moves and [_batchInProgress] stays set.  If they stage
    something and the bus producer accepts it, the batch completes:
    the one batch sent holds the messages staged under the target
    bucket, in order; the reader stands at
    [max(logOffset, start + number of records)]; and that offset is
    written to the offset node when the staged offset differs from
    the reader's previous [logOffset] and the node holds less. *)
Theorem tail_batch_end_to_end maxRead env st hdr start recs :
  (forall c, coordinatorUp env c = true) ->
  zkNodes st !! initPath base "isStatusComplete" = Some (Some "true") ->
  raftLogResponse env raftId (logOffset st) maxRead
    = Producer.HeaderFirst hdr {| records := recs; ending := Ends |} ->
  info_start hdr = Some start ->
  (length recs < 2 * Producer.highWaterMark - 1)%nat ->
  let evs := tailEvents bucket target (Producer.pipedRecords recs) in
  let msgs := stagedUnder target (stagedBy exts evs) in
  let next := start + Z.of_nat (length recs) in
  (msgs = [] ->
   exists st',
     processLogEntries bucket target base raftId exts VID_SEP maxRead env st
       = (Thrown TypeError, st')
     /\ filterCalls st' = filterCalls st ++ filterTrace exts evs
     /\ sentBatches st' = sentBatches st
     /\ progress st' = progress st
     /\ _batchInProgress st' = true)
  /\ (msgs <> [] ->
      sendResult env msgs = None ->
      exists st',
        processLogEntries bucket target base raftId exts VID_SEP
          maxRead env st
          = (Done tt, st')
        /\ filterCalls st' = filterCalls st ++ filterTrace exts evs
        /\ sentBatches st' = sentBatches st ++ [msgs]
        /\ publishedEntries (batchState st')
           = Z.of_nat (length msgs)
        /\ logOffset st' = Z.max (logOffset st) next
        /\ (if bool_decide (next <> logOffset st
                            /\ zkLogOffset st < Z.max (logOffset st) next)
            then zkLogOffset st' = logOffset st'
                 /\ logOffsetWrites st'
                    = logOffsetWrites st ++ [logOffset st']
            else zkLogOffset st' = zkLogOffset st
                 /\ logOffsetWrites st' = logOffsetWrites st)
        /\ _batchInProgress st' = false).
Proof.
  intros up Hs Hresp Hstart Hshort evs msgs next.
  assert (Producer.pausesSource recs = false) as Hpause
    by (apply bool_decide_eq_false_2; lia).
  set (s0 := withBatch (fun _ => newBatchState)
               (setBatchInProgress true st)).
  destruct (ReaderFacts.processReadRecords_tail bucket base raftId env
              maxRead s0 up) as (sa & Hk & Hrd).
  { destruct st; exact Hs. }
  assert (logOffset s0 = logOffset st) as Hlo by (destruct st; reflexivity).
  rewrite Hlo, Hresp in Hrd. cbn [Producer.getRaftLog] in Hrd.
  set (lr := {| info := hdr;
                log := LogPiped {| records := recs; ending := Ends |} |})
    in Hrd.
  set (s1 := withBatch _ sa) in Hrd.
  assert (offNodes s0
          = (progress st, true, newBatchState, filterCalls st,
             sentBatches st, _iProducer st)) as H0
    by (destruct st; reflexivity).
  rewrite H0 in Hk. unfold offNodes, progress in Hk.
  injection Hk as Hla Hza Hwa Hfa Hba Hca Hsa _.
  destruct (PrepareFacts.piped_prepare_adds bucket target exts VID_SEP
              bucket_named not_users not_metastore
              s1 hdr start recs Ends) as (s2 & E2 & X2).
  { subst s1. destruct sa; reflexivity. }
  { subst s1. destruct sa; cbn in *. rewrite Hba. reflexivity. }
  { exact Hstart. }
  rewrite Hpause in E2.
  assert (processLogEntries bucket target base raftId exts VID_SEP
            maxRead env st
          = match (_processPublishEntries target env ;;;
                   _processSaveLogOffset base env)%js s2 with
            | (Done _, st1) => (Done tt, setBatchInProgress false st1)
            | (Failed e, st1) => (Failed e, setBatchInProgress false st1)
            | (Thrown e, st1) => (Thrown e, st1)
            end) as Hrun.
  { unfold processLogEntries. fold s0.
    unfold bind at 1. rewrite Hrd. unfold bind at 1. rewrite E2.
    reflexivity. }
  rewrite Hrun. clear Hrun.
  destruct X2 as (C & P & _ & NR & F).
  cbn [eventsDelta d_calls d_staged d_entries d_records] in C, P, NR.
  fold evs in C, P.
  rewrite (ReaderFacts.pipedRecords_length _ Hpause) in NR.
  assert (filterCalls s1 = filterCalls st) as C1
    by (subst s1; destruct sa; exact Hca).
  assert (batchState s1 = setLogRes (Some lr) newBatchState) as B1
    by (subst s1; destruct sa; cbn in *; rewrite Hba; reflexivity).
  assert (prepareFrame s1
          = (progress st, true, zkNodes sa, sentBatches st, Some lr,
             None, None, 0, _iProducer sa)) as F1.
  { unfold prepareFrame, progress. rewrite B1.
    subst s1. destruct sa; cbn in *.
    rewrite Hla, Hza, Hwa, Hfa, Hsa. reflexivity. }
  rewrite F1 in F. unfold prepareFrame, progress in F.
  injection F as Hl2 Hz2 Hw2 Hf2 _ Hs2 Hlr2 Hi2 _ _ _.
  rewrite C1 in C. rewrite B1 in P, NR.
  cbn [setLogRes newBatchState entriesToPublish nbLogRecordsRead] in P, NR.
  rewrite Z.add_0_l in NR.
  assert (entriesToPublish (batchState s2) !! target
          = match msgs with [] => None | _ => Some msgs end) as Hlook.
  { rewrite P, foldl_pushEntry_lookup. fold msgs.
    rewrite lookup_empty. destruct msgs; reflexivity. }
  assert (Js.addNullable (info_start (info lr))
            (nbLogRecordsRead (batchState s2)) = next) as Hnext.
  { subst lr. cbn [info]. rewrite Hstart, NR. reflexivity. }
  split.
  - intros Hnil. rewrite Hnil in Hlook.
    unfold bind.
    rewrite (publish_tail_nothing_staged env s2 lr Hi2 Hlr2 Hlook).
    eexists. split; [reflexivity|].
    unfold progress. destruct s2; cbn in *. split_and!; congruence.
  - intros Hne Hsend.
    assert (entriesToPublish (batchState s2) !! target = Some msgs)
      as Hlook' by (rewrite Hlook; destruct msgs; [contradiction|done]).
    set (s3 := withBatch (setPublishedEntries (Z.of_nat (length msgs)))
                 (recordSend msgs
                    (withBatch (setNextLogOffset (Some next)) s2))).
    destruct (checkpoint_tail env s3 next up)
      as (s4 & E4 & L4 & W4 & C4 & S4 & B4).
    { subst s3. destruct s2; exact Hi2. }
    { subst s3. destruct s2; reflexivity. }
    unfold bind.
    rewrite (publish_tail_sent env s2 lr msgs Hi2 Hlr2 Hlook' Hne Hsend).
    rewrite Hnext. fold s3. rewrite E4.
    eexists. split; [reflexivity|].
    assert (logOffset s3 = logOffset st) as Pl
      by (subst s3; destruct s2; exact Hl2).
    assert (zkLogOffset s3 = zkLogOffset st) as Pz
      by (subst s3; destruct s2; exact Hz2).
    assert (logOffsetWrites s3 = logOffsetWrites st) as Pw
      by (subst s3; destruct s2; exact Hw2).
    rewrite Pl in L4, W4. rewrite Pz, Pw in W4.
    assert (forall v x, setBatchInProgress v x
            = {| logOffset := logOffset x; _batchInProgress := v;
                 batchState := batchState x; zkNodes := zkNodes x;
                 zkLogOffset := zkLogOffset x;
                 logOffsetWrites := logOffsetWrites x;
                 filterCalls := filterCalls x;
                 sentBatches := sentBatches x;
                 _iProducer := _iProducer x |}) as Hflag
      by reflexivity.
    rewrite Hflag.
    cbn [logOffset _batchInProgress batchState zkLogOffset
         logOffsetWrites filterCalls sentBatches].
    rewrite C4, S4, B4.
    split_and!; try assumption; try reflexivity;
      subst s3; destruct s2; cbn in *;
      first [assumption | congruence].
Qed.

(** X25. A tail batch that is given many records never ends.
    Conditions: the snapshot is marked complete, the Coordinator
    answers every call, and the source answers with a header that
    has an [info.start] and a stream of [2 * highWaterMark] records
    or more, however it would end.  The pipe into the record stream,
    which nothing reads, pauses the stream: the reader hears neither
    of more records nor of the end, and the callback of the batch is
    never called.  Nothing is sent, no offset moves and
    [_batchInProgress] stays set. *)
Theorem long_tail_batch_never_ends maxRead env st hdr start recs fin :
  (forall c, coordinatorUp env c = true) ->
  zkNodes st !! initPath base "isStatusComplete" = Some (Some "true") ->
  raftLogResponse env raftId (logOffset st) maxRead
    = Producer.HeaderFirst hdr {| records := recs; ending := fin |} ->
  info_start hdr = Some start ->
  (2 * Producer.highWaterMark <= length recs)%nat ->
  exists st',
    processLogEntries bucket target base raftId exts VID_SEP maxRead env st
      = (Thrown Stalled, st')
    /\ sentBatches st' = sentBatches st
    /\ nextLogOffset (batchState st') = None
    /\ progress st' = progress st
    /\ _batchInProgress st' = true.
Proof.
  intros up Hs Hresp Hstart Hlong.
  assert (Producer.pausesSource recs = true) as Hpause
    by (apply bool_decide_eq_true_2; exact Hlong).
  set (s0 := withBatch (fun _ => newBatchState)
               (setBatchInProgress true st)).
  destruct (ReaderFacts.processReadRecords_tail bucket base raftId env
              maxRead s0 up) as (sa & Hk & Hrd).
  { destruct st; exact Hs. }
  assert (logOffset s0 = logOffset st) as Hlo by (destruct st; reflexivity).
  rewrite Hlo, Hresp in Hrd. cbn [Producer.getRaftLog] in Hrd.
  set (lr := {| info := hdr;
                log := LogPiped {| records := recs; ending := fin |} |})
    in Hrd.
  set (s1 := withBatch _ sa) in Hrd.
  assert (offNodes s0
          = (progress st, true, newBatchState, filterCalls st,
             sentBatches st, _iProducer st)) as H0
    by (destruct st; reflexivity).
  rewrite H0 in Hk. unfold offNodes, progress in Hk.
  injection Hk as Hla Hza Hwa Hfa Hba Hca Hsa _.
  destruct (PrepareFacts.piped_prepare_adds bucket target exts VID_SEP
              bucket_named not_users not_metastore
              s1 hdr start recs fin) as (s2 & E2 & X2).
  { subst s1. destruct sa; reflexivity. }
  { subst s1. destruct sa; cbn in *. rewrite Hba. reflexivity. }
  { exact Hstart. }
  rewrite Hpause in E2.
  exists s2. split.
  { unfold processLogEntries. fold s0.
    unfold bind at 1. rewrite Hrd. unfold bind at 1. rewrite E2.
    reflexivity. }
  destruct X2 as (_ & _ & _ & _ & F).
  assert (prepareFrame s1
          = (progress st, true, zkNodes sa, sentBatches st, Some lr,
             None, None, 0, _iProducer sa)) as F1.
  { unfold prepareFrame, progress.
    subst s1. destruct sa; cbn in *.
    rewrite Hla, Hza, Hwa, Hfa, Hsa, Hba. reflexivity. }
  rewrite F1 in F. unfold prepareFrame, progress in F.
  injection F as Hl2 Hz2 Hw2 Hf2 _ Hs2 _ _ Hn2 _ _.
  unfold progress. split_and!; congruence.
Qed.

End TailBatch.

(** *** A cold start from end to end *)

Section ColdStart.
Variable bucket : string.
Variable target : string.
Variable base : string.
Variable raftId : Z.
Variable exts : list Extension.
Variable VID_SEP : string.
Hypothesis not_users : bucket <> usersBucket.
Hypothesis not_metastore : bucket <> metastoreBucket.

Lemma not_marked_complete (x : option (option string)) :
  x <> Some (Some "true") ->
  Js.strictEq (default None x) (Some "true") = false.
Proof.
  intros H. unfold Js.strictEq. apply bool_decide_eq_false_2.
  destruct x as [[d|]|]; cbn; congruence.
Qed.

(** X11. A cold start from end to end, for a source bucket other than
    the two special containers.  Conditions: the snapshot is not
    marked complete, the Coordinator answers every call, and the
    source lists the keys of the bucket.  Then the batch creates the
    init nodes that are missing and has its producer list the bucket:
    the producer's [resLog] grows by one put entry for each key, in
    the order of the listing.  There the batch ends, with a
    TypeError: the producer's [snapshot(bucketName, done)] is called
    with the init state in the place of [done].  No entry reaches the
    batch state, an extension or the bus; no offset moves;
    [_batchInProgress] stays set; and [isStatusComplete] is still not
    "true", so the next batch is a cold start again. *)
Theorem cold_start_lists_then_throws maxRead env st keys :
  (forall c, coordinatorUp env c = true) ->
  zkNodes st !! initPath base "isStatusComplete" <> Some (Some "true") ->
  getObjectList env bucket = Done keys ->
  exists st',
    processLogEntries bucket target base raftId exts VID_SEP maxRead env st
      = (Thrown TypeError, st')
    /\ Producer.resLog (_iProducer st')
       = Producer.resLog (_iProducer st)
         ++ ProducerSpec.entriesOf (getObjectMetadata env)
              (Producer._targetZenkoBucket (_iProducer st)) bucket keys
    /\ Producer._targetZenkoBucket (_iProducer st')
       = Producer._targetZenkoBucket (_iProducer st)
    /\ (forall n, n ∈ getInitIngestionNodes ->
                  is_Some (zkNodes st' !! initPath base n))
    /\ zkNodes st' !! initPath base "isStatusComplete"
       <> Some (Some "true")
    /\ batchState st' = newBatchState
    /\ progress st' = progress st
    /\ filterCalls st' = filterCalls st
    /\ sentBatches st' = sentBatches st
    /\ _batchInProgress st' = true.
Proof.
  intros up Hs Hlist.
  unfold processLogEntries.
  set (s0 := withBatch _ (setBatchInProgress true st)).
  set (zk1 := foldl ensureNode (zkNodes st)
                (initPath base <$> getInitIngestionNodes)).
  assert (_processReadRecords bucket base raftId maxRead env s0
          = callSnapshot bucket env (setZkNodes zk1 s0)) as Hread.
  { unfold _processReadRecords. unfold bind at 1.
    rewrite (readInitState_up_explicit base env up s0).
    cbn [isStatusComplete].
    assert (zkNodes s0 = zkNodes st) as -> by (destruct st; reflexivity).
    rewrite (not_marked_complete _ Hs). reflexivity. }
  unfold bind at 1. rewrite Hread. unfold callSnapshot.
  assert (_iProducer (setZkNodes zk1 s0) = _iProducer st) as ->
    by (destruct st; reflexivity).
  rewrite (ProducerFacts.snapshot_run _ _ _ _ not_users not_metastore).
  rewrite Hlist.
  eexists. split; [reflexivity|].
  destruct st as [lo bp bs zk zlo ws fc sb ip].
  cbn [setProducer setZkNodes withBatch setBatchInProgress _iProducer
       zkNodes batchState filterCalls sentBatches _batchInProgress
       Producer.resLog Producer._targetZenkoBucket] in *.
  split_and!; try reflexivity.
  - intros n Hn. subst zk1. apply ensureNodes_there.
    apply list_elem_of_fmap. eauto.
  - subst zk1. intros H.
    pose proof (ensureNodes_data zk
                  (initPath base <$> getInitIngestionNodes)
                  (initPath base "isStatusComplete")) as Hd.
    rewrite H in Hd. simpl in Hd.
    apply Hs.
    destruct (zk !! initPath base "isStatusComplete") as [[d|]|];
      simpl in Hd; congruence.
Qed.

End ColdStart.

(** *** The theorems at concrete batches *)

Import Scenario MoreScenarios.

(** A reader that has never run: the first read creates the three init
    nodes, the second finds them. *)
Lemma readInitState_settles_witness :
  exists r st1,
    _readInitState initPathBase snapshotEnv (freshReader 0) = (Done r, st1)
    /\ _readInitState initPathBase snapshotEnv st1 = (Done r, st1)
    /\ (forall n, n ∈ getInitIngestionNodes ->
                  is_Some (zkNodes st1 !! initPath initPathBase n))
    /\ (forall p d, zkNodes (freshReader 0) !! p = Some d ->
                    zkNodes st1 !! p = Some d)
    /\ offNodes st1 = offNodes (freshReader 0).
Proof.
  apply (readInitState_settles initPathBase snapshotEnv
           (fun c => eq_refl) (freshReader 0)).
Defined.

(** The Coordinator is down when the tailing reader starts a batch. *)
Lemma coordinator_down_fails_batch_witness :
  batch None downEnv (tailingReader 7)
  = (Failed CoordinatorError,
     withBatch (fun _ => newBatchState)
       (setBatchInProgress false (tailingReader 7))).
Proof.
  apply (coordinator_down_fails_batch "bucket1" "zenko" initPathBase 1
           [stageAll] separator None downEnv (tailingReader 7)
           (fun c => eq_refl)).
Defined.

(** The bus producer refuses the three records of the tail: the batch
    fails and the reader stays at offset 7.  The Coordinator refuses the
    write of the offset node: the batch fails, the node stays at 7 and
    the reader stands at 10. *)
Lemma failed_batch_writes_no_offset_witness :
  (fst (batch None refusingEnv (tailingReader 7)) = Failed SendError
   /\ progress (snd (batch None refusingEnv (tailingReader 7)))
      = (7, 7, []))
  /\ (fst (batch None noOffsetWriteEnv (tailingReader 7))
      = Failed CoordinatorError
      /\ progress (snd (batch None noOffsetWriteEnv (tailingReader 7)))
         = (10, 7, [])).
Proof.
  split.
  - destruct (failed_batch_writes_no_offset "bucket1" "zenko" initPathBase 1
                [stageAll] separator None refusingEnv (tailingReader 7)
                (fst (batch None refusingEnv (tailingReader 7)))
                (snd (batch None refusingEnv (tailingReader 7))))
      as (Hz & Hw & _).
    + apply surjective_pairing.
    + vm_compute. discriminate.
    + split; [vm_compute; reflexivity|].
      unfold progress. rewrite Hz, Hw. vm_compute. reflexivity.
  - destruct (failed_batch_writes_no_offset "bucket1" "zenko" initPathBase 1
                [stageAll] separator None noOffsetWriteEnv (tailingReader 7)
                (fst (batch None noOffsetWriteEnv (tailingReader 7)))
                (snd (batch None noOffsetWriteEnv (tailingReader 7))))
      as (Hz & Hw & _).
    + apply surjective_pairing.
    + vm_compute. discriminate.
    + split; [vm_compute; reflexivity|].
      unfold progress. rewrite Hz, Hw. vm_compute. reflexivity.
Defined.

(** A bucket of "owner1" in the two special containers. *)
Lemma special_container_key_rewrite_witness :
  _processLogEntry "zenko" [stageAll] (Some "users..bucket")
    {| e_db := Some "users..bucket"; e_type := Some "put"; e_bucket := None;
       e_key := Some ("owner1" +:+ "..|.." +:+ "bucket1");
       e_value := Some "{}" |} (tailingReader 7)
  = callFilters [stageAll]
      {| ev_type := Some "put"; ev_bucket := Some "users..bucket";
         ev_key := Some ("owner1" +:+ "..|.." +:+ "zenko");
         ev_value := Some "{}" |} (tailingReader 7)
  /\ _processLogEntry "zenko" [stageAll] (Some "metastore")
       {| e_db := Some "metastore"; e_type := Some "put"; e_bucket := None;
          e_key := Some ("owner1" +:+ "/" +:+ "bucket1");
          e_value := Some "{}" |} (tailingReader 7)
     = callFilters [stageAll]
         {| ev_type := Some "put"; ev_bucket := Some "metastore";
            ev_key := Some ("owner1" +:+ "/" +:+ "zenko");
            ev_value := Some "{}" |} (tailingReader 7).
Proof.
  apply (special_container_key_rewrite "zenko" [stageAll] "owner1" "bucket1"
           (Some "put") None (Some "{}") (tailingReader 7)
           eq_refl eq_refl).
Defined.

(** Three batches of a tailing reader -- one that completes, one that
    the bus refuses, one without the Coordinator. *)
Lemma tail_phase_is_absorbing_witness :
  zkNodes (runBatches "bucket1" "zenko" initPathBase 1 [stageAll] separator
             None [tailEnv; refusingEnv; downEnv] (tailingReader 7))
    !! initPath initPathBase "isStatusComplete" = Some (Some "true").
Proof.
  apply (tail_phase_is_absorbing "bucket1" "zenko" initPathBase 1
           [stageAll] separator None [tailEnv; refusingEnv; downEnv]
           (tailingReader 7)).
  vm_compute. reflexivity.
Defined.

(** The cold start of [snapshotEnv]: the producer lists "object1", and
    the batch throws. *)
Lemma cold_start_lists_then_throws_witness :
  exists st',
    batch None snapshotEnv (freshReader 0) = (Thrown TypeError, st')
    /\ Producer.resLog (_iProducer st')
       = Producer.resLog (_iProducer (freshReader 0))
         ++ ProducerSpec.entriesOf (getObjectMetadata snapshotEnv)
              (Producer._targetZenkoBucket (_iProducer (freshReader 0)))
              "bucket1" ["object1"]
    /\ Producer._targetZenkoBucket (_iProducer st')
       = Producer._targetZenkoBucket (_iProducer (freshReader 0))
    /\ (forall n, n ∈ getInitIngestionNodes ->
                  is_Some (zkNodes st' !! initPath initPathBase n))
    /\ zkNodes st' !! initPath initPathBase "isStatusComplete"
       <> Some (Some "true")
    /\ batchState st' = newBatchState
    /\ progress st' = progress (freshReader 0)
    /\ filterCalls st' = filterCalls (freshReader 0)
    /\ sentBatches st' = sentBatches (freshReader 0)
    /\ _batchInProgress st' = true.
Proof.
  apply (cold_start_lists_then_throws "bucket1" "zenko" initPathBase 1
           [stageAll] separator ltac:(discriminate) ltac:(discriminate)
           None snapshotEnv (freshReader 0) ["object1"]).
  - intros c. reflexivity.
  - vm_compute. discriminate.
  - reflexivity.
Defined.

(** The tail batch of [tailEnv] from offset 7.  Without an extension
    nothing is staged and the batch throws; with [stageAll] there are
    three events and one batch of three messages, and the reader and
    its node move to offset 10. *)
Lemma tail_batch_end_to_end_witness :
  let evs := tailEvents "bucket1" "zenko"
               (Producer.pipedRecords threeRecords) in
  let msgs := stagedUnder "zenko" (stagedBy [stageAll] evs) in
  (exists st',
     processLogEntries "bucket1" "zenko" initPathBase 1 [] separator
       None tailEnv (tailingReader 7)
       = (Thrown TypeError, st')
     /\ filterCalls st' = filterCalls (tailingReader 7) ++ filterTrace [] evs
     /\ sentBatches st' = sentBatches (tailingReader 7)
     /\ progress st' = progress (tailingReader 7)
     /\ _batchInProgress st' = true)
  /\ (exists st',
        batch None tailEnv (tailingReader 7) = (Done tt, st')
        /\ filterCalls st'
           = filterCalls (tailingReader 7) ++ filterTrace [stageAll] evs
        /\ sentBatches st' = sentBatches (tailingReader 7) ++ [msgs]
        /\ publishedEntries (batchState st') = Z.of_nat (length msgs)
        /\ logOffset st'
           = Z.max (logOffset (tailingReader 7))
                   (7 + Z.of_nat (length threeRecords))
        /\ (if bool_decide
                 (7 + Z.of_nat (length threeRecords)
                  <> logOffset (tailingReader 7)
                  /\ zkLogOffset (tailingReader 7)
                     < Z.max (logOffset (tailingReader 7))
                             (7 + Z.of_nat (length threeRecords)))
            then zkLogOffset st' = logOffset st'
                 /\ logOffsetWrites st'
                    = logOffsetWrites (tailingReader 7) ++ [logOffset st']
            else zkLogOffset st' = zkLogOffset (tailingReader 7)
                 /\ logOffsetWrites st' = logOffsetWrites (tailingReader 7))
        /\ _batchInProgress st' = false).
Proof.
  intros evs msgs. split.
  - apply (tail_batch_end_to_end "bucket1" "zenko" initPathBase 1 []
             separator ltac:(discriminate) ltac:(discriminate)
             ltac:(discriminate) None tailEnv (tailingReader 7)
             tailHeader 7 threeRecords).
    + intros c. reflexivity.
    + vm_compute. reflexivity.
    + reflexivity.
    + reflexivity.
    + cbn. lia.
    + vm_compute. reflexivity.
  - apply (tail_batch_end_to_end "bucket1" "zenko" initPathBase 1 [stageAll]
             separator ltac:(discriminate) ltac:(discriminate)
             ltac:(discriminate) None tailEnv (tailingReader 7)
             tailHeader 7 threeRecords).
    + intros c. reflexivity.
    + vm_compute. reflexivity.
    + reflexivity.
    + reflexivity.
    + cbn. lia.
    + vm_compute. discriminate.
    + reflexivity.
Defined.

(** A response of 32 records: the batch stalls, and the reader stays at
    offset 7. *)
Lemma long_tail_batch_never_ends_witness :
  exists st',
    batch None longTailEnv (tailingReader 7) = (Thrown Stalled, st')
    /\ sentBatches st' = sentBatches (tailingReader 7)
    /\ nextLogOffset (batchState st') = None
    /\ progress st' = progress (tailingReader 7)
    /\ _batchInProgress st' = true.
Proof.
  apply (long_tail_batch_never_ends "bucket1" "zenko" initPathBase 1
           [stageAll] separator ltac:(discriminate) ltac:(discriminate)
           ltac:(discriminate) None longTailEnv (tailingReader 7)
           tailHeader 7 (replicate 32 (logRecord "bucket1" "a")) Ends).
  - intros c. reflexivity.
  - vm_compute. reflexivity.
  - reflexivity.
  - reflexivity.
  - cbn. lia.
Defined.

End BatchFacts.

(** ** The nodes of a reader *)

Module PathFacts.
Import Stdlib.Strings.Ascii.
Import Reader ReaderPaths PrepareSpec.

Lemma append_assoc (a b c : string) : (a +:+ b) +:+ c = a +:+ (b +:+ c).
Proof.
  induction a as [|x a IH]; [reflexivity|].
  change (String x ((a +:+ b) +:+ c) = String x (a +:+ (b +:+ c))).
  rewrite IH. reflexivity.
Qed.

(** Every node of a reader lies below its [zkBasePath]. *)
Lemma readerPaths_below ingestionPath target raftId x :
  x ∈ readerPaths ingestionPath target raftId ->
  exists rest, x = ingestionPath +:+ "/" +:+ target +:+ "/" +:+ rest.
Proof.
  unfold readerPaths, pathToLogOffset, bucketInitPath, zkBasePath, initPath.
  intros [->|(n & -> & _)%list_elem_of_fmap]%elem_of_cons.
  - exists ("logState/" +:+ logId raftId +:+ "/logOffset").
    rewrite !append_assoc. reflexivity.
  - exists ("init" +:+ "/" +:+ n). rewrite !append_assoc. reflexivity.
Qed.

(** X22. The offset node and the three init nodes of a reader are four
    different nodes: the checkpoint of the offset never overwrites the
    init state, nor the other way round. *)
Theorem reader_nodes_are_distinct ingestionPath target raftId :
  NoDup (readerPaths ingestionPath target raftId).
Proof.
  unfold readerPaths, getInitIngestionNodes. cbn [fmap list_fmap].
  assert (forall n,
            pathToLogOffset ingestionPath target raftId
            <> initPath (bucketInitPath ingestionPath target) n) as Hoff.
  { intros n. unfold pathToLogOffset, bucketInitPath, initPath, zkBasePath.
    rewrite !append_assoc. intros H.
    do 3 apply String.app_inj in H. discriminate. }
  repeat apply NoDup_cons_2; try apply NoDup_nil_2;
    intros H; repeat (apply elem_of_cons in H as [H|H]);
    try (eapply Hoff; exact H);
    try (apply ReaderFacts.initPath_inj in H; discriminate);
    inversion H.
Qed.

(** X23. Readers of different target buckets share no node: every node
    of the one differs from every node of the other, whatever their
    raft sessions.  (A bucket name holds no slash.) *)
Theorem readers_share_no_node ingestionPath target1 raftId1
    target2 raftId2 x :
  lacks "/"%char target1 = true ->
  lacks "/"%char target2 = true ->
  target1 <> target2 ->
  x ∈ readerPaths ingestionPath target1 raftId1 ->
  x ∉ readerPaths ingestionPath target2 raftId2.
Proof.
  intros H1 H2 Hne Hx1 Hx2.
  apply readerPaths_below in Hx1 as [r1 E1].
  apply readerPaths_below in Hx2 as [r2 E2].
  rewrite E1 in E2. do 2 apply String.app_inj in E2.
  apply Hne.
  pose proof (SplitFacts.split_at_first "/"%char "" target1 r1 H1) as S1.
  pose proof (SplitFacts.split_at_first "/"%char "" target2 r2 H2) as S2.
  change (String "/" "") with "/" in S1, S2.
  rewrite E2, S2 in S1. congruence.
Qed.

(** The readers of "zenko" and of "zenko2". *)
Lemma readers_share_no_node_witness :
  pathToLogOffset "/ingestion" "zenko" "1"
    ∉ readerPaths "/ingestion" "zenko2" "1".
Proof.
  apply (readers_share_no_node "/ingestion" "zenko" "1" "zenko2" "1").
  - reflexivity.
  - reflexivity.
  - discriminate.
  - left.
Defined.

End PathFacts.

(** ** The snapshot of the producer *)

Module SnapshotFacts.
Import Stdlib.Strings.Ascii.
Import Producer PrepareSpec.

Section Source.
Variable getObjectList : string -> Outcome (list string).
Variable getObjectMetadata : string -> string -> option Error * option string.

(** X12. A snapshot of an ordinary bucket whose listing succeeds
    succeeds, and appends to [resLog] one put entry per listed key, in
    listing order: the bucket is [<target>-<bucket>], the key is the
    listed key and the value is whatever the metadata request returned
    -- a failed metadata request does not drop the object, and does
    not fail the snapshot.  What is handed back is the whole
    [resLog]. *)
Theorem snapshot_lists_every_object bucket keys s :
  bucket <> usersBucket ->
  bucket <> metastoreBucket ->
  getObjectList bucket = Done keys ->
  snapshot getObjectList getObjectMetadata bucket s
  = (Done (resLog s
           ++ ((fun key =>
                  {| e_db := None; e_type := Some "put";
                     e_bucket := Some (_targetZenkoBucket s +:+ "-" +:+ bucket);
                     e_key := Some key;
                     e_value := snd (getObjectMetadata bucket key) |})
                 <$> keys)),
     {| _targetZenkoBucket := _targetZenkoBucket s;
        resLog := resLog s
          ++ ((fun key =>
                 {| e_db := None; e_type := Some "put";
                    e_bucket := Some (_targetZenkoBucket s +:+ "-" +:+ bucket);
                    e_key := Some key;
                    e_value := snd (getObjectMetadata bucket key) |})
                <$> keys) |}).
Proof.
  intros Hu Hm Hlist.
  rewrite (ProducerFacts.snapshot_run _ _ _ _ Hu Hm), Hlist.
  reflexivity.
Qed.

(** X13. A snapshot whose listing fails hands that error to its
    callback and leaves [resLog] as it was: no metadata is asked for
    and no entry is appended. *)
Theorem snapshot_failed_listing bucket e s :
  bucket <> usersBucket ->
  bucket <> metastoreBucket ->
  getObjectList bucket = Failed e ->
  snapshot getObjectList getObjectMetadata bucket s = (Failed e, s).
Proof.
  intros Hu Hm Hlist.
  rewrite (ProducerFacts.snapshot_run _ _ _ _ Hu Hm), Hlist.
  reflexivity.
Qed.

End Source.

(** *** Bucket entries *)

Import RaftLogEntry.

(** X14. The key that [createPutBucketEntry] builds parses back:
    [_parseBucketName] finds in it the prefixed bucket name, which is
    also the bucket of the entry that [createPutBucketMdEntry] builds
    for that bucket.  (The owner is a canonical id, without a dot; the
    prefixed name does not hold the splitter.) *)
Theorem parseBucketName_of_createPutBucketEntry bucket res md bucketPrefix :
  lacks "."%char (_owner res) = true ->
  occursIn splitter (bucketPrefix +:+ "-" +:+ bucket) = false ->
  _name md = bucket ->
  e_key (createPutBucketEntry bucket res bucketPrefix) ≫= _parseBucketName
  = Some (bucketPrefix +:+ "-" +:+ bucket)
  /\ e_key (createPutBucketEntry bucket res bucketPrefix) ≫= _parseBucketName
     = e_bucket (createPutBucketMdEntry md bucketPrefix).
Proof.
  intros Howner Hname Hmd.
  assert (e_key (createPutBucketEntry bucket res bucketPrefix)
            ≫= _parseBucketName
          = Some (bucketPrefix +:+ "-" +:+ bucket)) as H.
  { unfold createPutBucketEntry, _parseBucketName. cbn [e_key mbind option_bind].
    unfold splitter in *.
    rewrite (SplitFacts.split_at_first "."%char ".|.." (_owner res)
               (bucketPrefix +:+ "-" +:+ bucket) Howner).
    rewrite SplitFacts.split_no_occurrence by exact Hname.
    reflexivity. }
  split; [exact H|]. rewrite H. unfold createPutBucketMdEntry.
  cbn [e_bucket]. rewrite Hmd. reflexivity.
Qed.

(** *** The theorems at concrete sources *)

Import MoreScenarios.

(** Two objects, the metadata of the second unavailable: two entries,
    the second without a value. *)
Lemma snapshot_lists_every_object_witness :
  snapshot twoObjectList secondMetadataFails "bucket1" (new "zenko")
  = (Done [ {| e_db := None; e_type := Some "put";
               e_bucket := Some "zenko-bucket1"; e_key := Some "a";
               e_value := Some "{}" |};
            {| e_db := None; e_type := Some "put";
               e_bucket := Some "zenko-bucket1"; e_key := Some "b";
               e_value := None |} ],
     {| _targetZenkoBucket := "zenko";
        resLog := [ {| e_db := None; e_type := Some "put";
                       e_bucket := Some "zenko-bucket1"; e_key := Some "a";
                       e_value := Some "{}" |};
                    {| e_db := None; e_type := Some "put";
                       e_bucket := Some "zenko-bucket1"; e_key := Some "b";
                       e_value := None |} ] |}).
Proof.
  apply (snapshot_lists_every_object twoObjectList secondMetadataFails
           "bucket1" ["a"; "b"] (new "zenko")).
  - discriminate.
  - discriminate.
  - reflexivity.
Defined.

Lemma snapshot_failed_listing_witness :
  snapshot failingList secondMetadataFails "bucket1" (new "zenko")
  = (Failed InternalError, new "zenko").
Proof.
  apply (snapshot_failed_listing failingList secondMetadataFails
           "bucket1" InternalError (new "zenko")).
  - discriminate.
  - discriminate.
  - reflexivity.
Defined.

(** Bucket "bucket1" of "owner1", ingested under "zenko". *)
Lemma parseBucketName_of_createPutBucketEntry_witness :
  e_key (createPutBucketEntry "bucket1"
           {| _owner := "owner1"; _creationDate := "2019-01-01" |} "zenko")
    ≫= _parseBucketName
  = Some "zenko-bucket1"
  /\ e_key (createPutBucketEntry "bucket1"
              {| _owner := "owner1"; _creationDate := "2019-01-01" |} "zenko")
       ≫= _parseBucketName
     = e_bucket (createPutBucketMdEntry
                   {| _name := "bucket1"; serialize := "{}" |} "zenko").
Proof.
  apply (parseBucketName_of_createPutBucketEntry "bucket1"
           {| _owner := "owner1"; _creationDate := "2019-01-01" |}
           {| _name := "bucket1"; serialize := "{}" |} "zenko");
    reflexivity.
Defined.

End SnapshotFacts.

(** ** Offsets in the Coordinator *)

Module OffsetFacts.
Import Backlog BacklogSpec BacklogSnapshot.

(** *** One node *)

Lemma lookupNode_setNode_eq path d l :
  lookupNode path (setNode path d l) = Some d.
Proof.
  induction l as [|[p d'] l IH]; cbn [setNode lookupNode].
  - rewrite decide_True by reflexivity. reflexivity.
  - destruct (decide (p = path)) as [->|Hne]; cbn [lookupNode].
    + rewrite decide_True by reflexivity. reflexivity.
    + rewrite decide_False by exact Hne. exact IH.
Qed.

Lemma lookupNode_setNode_ne path q d l :
  q <> path -> lookupNode q (setNode path d l) = lookupNode q l.
Proof.
  intros Hq. induction l as [|[p d'] l IH]; cbn [setNode lookupNode].
  - rewrite decide_False by congruence. reflexivity.
  - destruct (decide (p = path)) as [->|Hne]; cbn [lookupNode].
    + rewrite !decide_False by congruence. reflexivity.
    + destruct (decide (p = q)); [reflexivity|exact IH].
Qed.

(** X15. An offset that has been published reads back as the same
    integer, and publishing it changes what no other node reads as. *)
Theorem published_offset_reads_back topic_ partition offset ty label st :
  available st = true ->
  _readOffset topic_ partition ty label
    (snd (_publishOffset topic_ partition offset ty label st))
  = Done offset
  /\ forall topic' partition' ty' label',
       _getOffsetZkPath topic' partition' ty' label'
         <> _getOffsetZkPath topic_ partition ty label ->
       _readOffset topic' partition' ty' label'
         (snd (_publishOffset topic_ partition offset ty label st))
       = _readOffset topic' partition' ty' label' st.
Proof.
  intros Hav.
  rewrite (BacklogFacts.publishOffset_available _ _ _ _ _ st Hav).
  cbn [snd]. split.
  - unfold _readOffset, getData. cbn [available nodes].
    rewrite lookupNode_setNode_eq. reflexivity.
  - intros t' p' ty' l' Hne. unfold _readOffset, getData.
    cbn [available nodes]. rewrite Hav.
    rewrite lookupNode_setNode_ne by exact Hne. reflexivity.
Qed.

(** *** Runs of writes *)

Lemma applyWrites_app l ws1 ws2 :
  applyWrites l (ws1 ++ ws2) = applyWrites (applyWrites l ws1) ws2.
Proof. unfold applyWrites. apply foldl_app. Qed.

(** A node that no write names keeps its data. *)
Lemma lookupNode_applyWrites_other path l ws :
  Forall (fun w => fst w <> path) ws ->
  lookupNode path (applyWrites l ws) = lookupNode path l.
Proof.
  revert l. induction ws as [|[q v] ws IH]; intros l Hws; [reflexivity|].
  apply Forall_cons in Hws as [Hq Hws]. cbn [fst] in Hq.
  change (applyWrites l ((q, v) :: ws))
    with (applyWrites (setNode q (Offset v) l) ws).
  rewrite (IH _ Hws). apply lookupNode_setNode_ne. congruence.
Qed.

(** A node that was written holds the offset written to it, when all
    the writes to it agree. *)
Lemma lookupNode_applyWrites path v l ws :
  (path, v) ∈ ws ->
  (forall v', (path, v') ∈ ws -> v' = v) ->
  lookupNode path (applyWrites l ws) = Some (Offset v).
Proof.
  induction ws as [|[q v'] ws IH] using rev_ind; intros Hin Hfun.
  - inversion Hin.
  - rewrite applyWrites_app.
    change (applyWrites (applyWrites l ws) [(q, v')])
      with (setNode q (Offset v') (applyWrites l ws)).
    destruct (decide (q = path)) as [->|Hne].
    + rewrite lookupNode_setNode_eq.
      rewrite (Hfun v') by (apply elem_of_app; right; apply list_elem_of_here).
      reflexivity.
    + rewrite lookupNode_setNode_ne by congruence.
      apply IH.
      * apply elem_of_app in Hin as [Hin|Hin]; [exact Hin|].
        apply list_elem_of_singleton in Hin. congruence.
      * intros v'' H. apply Hfun. apply elem_of_app. left. exact H.
Qed.

(** *** Code that only writes offsets *)

Section WritesOnly.
Variable P : ZkPath * Z -> Prop.

Lemma writesOnly_ret : writesOnly P (ret tt).
Proof.
  intros st. exists []. cbn. rewrite app_nil_r. auto.
Qed.

Lemma writesOnly_fail e : writesOnly P (fail e).
Proof.
  intros st. exists []. cbn. rewrite app_nil_r. auto.
Qed.

Lemma writesOnly_setOrCreate path offset :
  P (path, offset) -> writesOnly P (setOrCreate path offset).
Proof.
  intros HP st. unfold setOrCreate. destruct (available st) eqn:E.
  - exists [(path, offset)]. cbn. auto.
  - exists []. cbn. rewrite app_nil_r. auto.
Qed.

Lemma writesOnly_seq (m k : M Store unit) :
  writesOnly P m -> writesOnly P k -> writesOnly P (m ;;; k)%js.
Proof.
  intros Hm Hk st. unfold bind.
  destruct (Hm st) as (ws1 & W1 & N1 & A1 & P1).
  destruct (m st) as [[[]|e|e] s1]; cbn [snd] in *;
    [|exists ws1; auto..].
  destruct (Hk s1) as (ws2 & W2 & N2 & A2 & P2).
  exists (ws1 ++ ws2).
  rewrite W2, W1, N2, N1, A2, A1, applyWrites_app, app_assoc.
  split_and!; try reflexivity. apply Forall_app; auto.
Qed.

Lemma writesOnly_asyncEach {X} (f : X -> M Store unit) l :
  Forall (fun x => writesOnly P (f x)) l -> writesOnly P (asyncEach f l).
Proof.
  intros Hf.
  assert (forall st, exists ws,
            writes (snd (asyncMap f l st)) = writes st ++ ws
            /\ nodes (snd (asyncMap f l st)) = applyWrites (nodes st) ws
            /\ available (snd (asyncMap f l st)) = available st
            /\ Forall P ws) as H.
  { induction Hf as [|x l Hx _ IH]; intros st; cbn [asyncMap].
    - exists []. cbn. rewrite app_nil_r. auto.
    - destruct (Hx st) as (ws1 & W1 & N1 & A1 & P1).
      destruct (f x st) as [[b|e|e] s1]; cbn [snd] in *.
      + destruct (IH s1) as (ws2 & W2 & N2 & A2 & P2).
        exists (ws1 ++ ws2).
        destruct (asyncMap f l s1) as [[bs|e|e] s2]; cbn [snd] in *;
          rewrite W2, W1, N2, N1, A2, A1, applyWrites_app, app_assoc;
          (split_and!; try reflexivity; apply Forall_app; auto).
      + destruct (IH s1) as (ws2 & W2 & N2 & A2 & P2).
        exists (ws1 ++ ws2).
        destruct (asyncMap f l s1) as [[bs|e'|e'] s2]; cbn [snd] in *;
          rewrite W2, W1, N2, N1, A2, A1, applyWrites_app, app_assoc;
          (split_and!; try reflexivity; apply Forall_app; auto).
      + exists ws1. auto. }
  intros st. destruct (H st) as (ws & W & N & A & HP).
  exists ws. unfold asyncEach, bind.
  destruct (asyncMap f l st) as [[bs|e|e] s1]; cbn [snd] in *; auto.
Qed.

Lemma writesOnly_asyncEachLimit {X} limit (f : X -> M Store unit) l :
  Forall (fun x => writesOnly P (f x)) l ->
  writesOnly P (asyncEachLimit limit f l).
Proof.
  intros Hf. unfold asyncEachLimit.
  generalize (@None Error) as failed. generalize limit as n.
  induction Hf as [|x l Hx _ IH]; intros n failed st.
  - exists []. destruct n; cbn; rewrite app_nil_r; auto.
  - destruct n as [|n]; cbn [eachLimitFrom].
    { exists []. cbn. rewrite app_nil_r. auto. }
    destruct (Hx st) as (ws1 & W1 & N1 & A1 & P1).
    destruct (f x st) as [[[]|e|e] s1]; cbn [snd] in *.
    + destruct (IH (match failed with Some _ => n | None => S n end)
                  failed s1) as (ws2 & W2 & N2 & A2 & P2).
      exists (ws1 ++ ws2).
      rewrite W2, W1, N2, N1, A2, A1, applyWrites_app, app_assoc.
      split_and!; try reflexivity. apply Forall_app; auto.
    + destruct (IH n (Some (default e failed)) s1)
        as (ws2 & W2 & N2 & A2 & P2).
      exists (ws1 ++ ws2).
      rewrite W2, W1, N2, N1, A2, A1, applyWrites_app, app_assoc.
      split_and!; try reflexivity. apply Forall_app; auto.
    + exists ws1. auto.
Qed.

End WritesOnly.

(** *** Publishing the backlog *)

Lemma publishPartition_writesOnly consumer topic_ groupId p :
  writesOnly (fun w => z_topic (fst w) = topic_)
             (publishPartition consumer topic_ groupId p).
Proof.
  unfold publishPartition, _getLatestTopicOffset.
  destruct (highOffset consumer topic_ (tp_partition p)) as [hw|].
  - intros st. unfold bind at 1. unfold ret at 1.
    apply (writesOnly_asyncEach _ (fun task : M Store unit => task)).
    repeat constructor; apply writesOnly_setOrCreate; reflexivity.
  - intros st. exists []. cbn. rewrite app_nil_r. auto.
Qed.

Lemma publishConsumerBacklog_writesOnly consumer topic_ groupId :
  writesOnly (fun w => z_topic (fst w) = topic_)
             (publishConsumerBacklog consumer topic_ groupId).
Proof.
  unfold publishConsumerBacklog.
  destruct (position consumer) as [positions|]; [|apply writesOnly_ret].
  apply writesOnly_asyncEachLimit, Forall_forall. intros p _.
  apply publishPartition_writesOnly.
Qed.

(** X16. [publishConsumerBacklog] for a topic never touches the nodes
    of another topic: whatever the consumer reports and whether or not
    the Coordinator answers, every node outside the topic reads as it
    did before. *)
Theorem publishConsumerBacklog_keeps_other_topics consumer topic_ groupId
    st path :
  z_topic path <> topic_ ->
  getData path (snd (publishConsumerBacklog consumer topic_ groupId st))
  = getData path st.
Proof.
  intros Hne.
  destruct (publishConsumerBacklog_writesOnly consumer topic_ groupId st)
    as (ws & _ & N & A & HP).
  unfold getData. rewrite A, N.
  rewrite lookupNode_applyWrites_other; [reflexivity|].
  eapply Forall_impl; [exact HP|]. intros w Hw. cbn beta in Hw. congruence.
Qed.

(** *** Snapshots of the topic offsets *)

Lemma snapshotPartitions_nodes kafkaClient topic_ snapshotName l st :
  available st = true ->
  (forall p, p ∈ l -> is_Some (highOffset kafkaClient topic_ p)) ->
  exists bs st',
    asyncMap (snapshotPartition kafkaClient topic_ snapshotName) l st
      = (Done bs, st')
    /\ available st' = true
    /\ nodes st'
       = applyWrites (nodes st)
           ((fun p => (_getOffsetZkPath topic_ p snapshots snapshotName,
                       default 0 (highOffset kafkaClient topic_ p))) <$> l).
Proof.
  revert st. induction l as [|p l IH]; intros st Hav Hhw;
    cbn [asyncMap fmap list_fmap].
  - eexists _, _. split; [reflexivity|]. auto.
  - destruct (Hhw p ltac:(left)) as [hw Hp].
    unfold snapshotPartition at 1, _getLatestTopicOffset, bind at 1.
    rewrite Hp. unfold ret at 1.
    rewrite (BacklogFacts.publishOffset_available _ _ _ _ _ st Hav).
    set (s1 := {| nodes := _; available := true; writes := _;
                  partitionOrder := _; labelOrder := _ |}).
    destruct (IH s1 eq_refl) as (bs & st' & E & A & N).
    { intros q Hq. apply Hhw. right. exact Hq. }
    rewrite E. eexists _, _. split; [reflexivity|]. split; [exact A|].
    rewrite N. reflexivity.
Qed.

(** X17. When the Coordinator answers and the high watermark of every
    partition of the topic can be read, [snapshotTopicOffsets] succeeds;
    afterwards the snapshot offset of every partition reads back as the
    high watermark of that partition, and every node that is not a
    snapshot node reads as it did before. *)
Theorem snapshot_offsets_read_back kafkaClient topics topicMd topic_
    snapshotName st :
  available st = true ->
  List.find (fun t => bool_decide (t_name t = topic_)) topics = Some topicMd ->
  (forall p, p ∈ t_partitions topicMd ->
             is_Some (highOffset kafkaClient topic_ p)) ->
  exists st',
    snapshotTopicOffsets kafkaClient (Some topics) topic_ snapshotName st
      = (Done tt, st')
    /\ (forall p, p ∈ t_partitions topicMd ->
          exists hw, highOffset kafkaClient topic_ p = Some hw
                     /\ _readOffset topic_ p snapshots snapshotName st'
                        = Done hw)
    /\ (forall path, z_type path <> snapshots ->
          getData path st' = getData path st).
Proof.
  intros Hav Hfind Hhw.
  destruct (snapshotPartitions_nodes kafkaClient topic_ snapshotName
              (t_partitions topicMd) st Hav Hhw) as (bs & st' & E & A & N).
  exists st'. split_and!.
  - unfold snapshotTopicOffsets. rewrite Hfind. unfold asyncEach, bind.
    rewrite E. reflexivity.
  - intros p Hp. destruct (Hhw p Hp) as [hw Hp']. exists hw.
    split; [exact Hp'|].
    unfold _readOffset, getData. rewrite A, N.
    rewrite (lookupNode_applyWrites _ hw); [reflexivity| |].
    + apply list_elem_of_fmap. exists p. rewrite Hp'. auto.
    + intros v' (q & [= Hq ->] & _)%list_elem_of_fmap.
      subst q. rewrite Hp'. reflexivity.
  - intros path Hty. unfold getData. rewrite A, N, Hav.
    rewrite lookupNode_applyWrites_other; [reflexivity|].
    apply Forall_fmap, Forall_forall. intros q _. cbn.
    intros <-. apply Hty. reflexivity.
Qed.

(** *** The theorems at concrete stores *)

Import Scenario MoreScenarios.

Lemma published_offset_reads_back_witness :
  _readOffset "T" 0 consumers (Some "G")
    (snd (_publishOffset "T" 0 90 consumers (Some "G") emptyStore))
  = Done 90
  /\ forall topic' partition' ty' label',
       _getOffsetZkPath topic' partition' ty' label'
         <> _getOffsetZkPath "T" 0 consumers (Some "G") ->
       _readOffset topic' partition' ty' label'
         (snd (_publishOffset "T" 0 90 consumers (Some "G") emptyStore))
       = _readOffset topic' partition' ty' label' emptyStore.
Proof.
  apply (published_offset_reads_back "T" 0 90 consumers (Some "G")
           emptyStore eq_refl).
Defined.

(** Group "G" publishes for topic "T" again: the node of partition 0 of
    topic "U" reads as before. *)
Lemma publishConsumerBacklog_keeps_other_topics_witness :
  getData (_getOffsetZkPath "U" 0 topic None)
    (snd (publishConsumerBacklog consumerLater "T" (Some "G") publishedStore))
  = getData (_getOffsetZkPath "U" 0 topic None) publishedStore.
Proof.
  apply (publishConsumerBacklog_keeps_other_topics consumerLater "T"
           (Some "G") publishedStore (_getOffsetZkPath "U" 0 topic None)).
  discriminate.
Defined.

(** Snapshot "S" of topic "T" on top of [publishedStore]. *)
Lemma snapshot_offsets_read_back_witness :
  exists st',
    snapshotTopicOffsets consumerG (Some topicsT) "T" (Some "S")
      publishedStore = (Done tt, st')
    /\ (forall p, p ∈ [0; 1] ->
          exists hw, highOffset consumerG "T" p = Some hw
                     /\ _readOffset "T" p snapshots (Some "S") st' = Done hw)
    /\ (forall path, z_type path <> snapshots ->
          getData path st' = getData path publishedStore).
Proof.
  apply (snapshot_offsets_read_back consumerG topicsT
           {| t_name := "T"; t_partitions := [0; 1] |} "T" (Some "S")
           publishedStore).
  - reflexivity.
  - reflexivity.
  - intros p _. cbn. destruct (p =? 0); eauto.
Defined.

End OffsetFacts.

(** ** Checking consumer offsets *)

Module CheckFacts.
Import Backlog BacklogSpec.

Section Check.
Variable st : Store.
Variable topic_ : string.
Variable groupId : option string.
Variable maxLag : Z.
Variable snapshotName : option string.

(** *** What is reported is what is stored *)

Lemma mapOutcomes_sound {A B} (f : A -> Outcome B) l bs :
  mapOutcomes f l = Done bs -> Forall2 (fun x b => f x = Done b) l bs.
Proof.
  revert bs. induction l as [|x l IH]; intros bs; cbn [mapOutcomes].
  - intros [= <-]. constructor.
  - destruct (f x) as [b|e|e] eqn:E; [|discriminate..].
    destruct (mapOutcomes f l) as [bs'|e|e]; [|discriminate..].
    intros [= <-]. constructor; [exact E|apply IH; reflexivity].
Qed.

Lemma readAllOffsets_sound partition ty cs :
  _readAllOffsets topic_ partition ty st = Done cs ->
  forall c, c ∈ cs ->
    _readOffset topic_ partition ty (Some (fst c)) st = Done (snd c).
Proof.
  unfold _readAllOffsets.
  destruct (getLabels topic_ partition ty st) as [labels|e|e];
    [|destruct (bool_decide (e = NO_NODE)); [|discriminate]|discriminate].
  - intros H%mapOutcomes_sound c Hc.
    apply list_elem_of_lookup in Hc as [i Hi].
    destruct (Forall2_lookup_r _ _ _ _ _ H Hi) as (label & _ & Hl).
    destruct (_readOffset topic_ partition ty (Some label) st)
      as [off|e|e] eqn:E; [|discriminate..].
    injection Hl as <-. exact E.
  - intros [= <-] c Hc. inversion Hc.
Qed.

Lemma readConsumerOffsets_sound partition cs :
  readConsumerOffsets st topic_ groupId partition = Done cs ->
  forall c, c ∈ cs ->
    _readOffset topic_ partition consumers (Some (fst c)) st
    = Done (snd c).
Proof.
  unfold readConsumerOffsets.
  destruct (Js.truthy groupId) eqn:Hg; [|apply readAllOffsets_sound].
  destruct groupId as [g|]; [|discriminate].
  destruct (_readOffset topic_ partition consumers (Some g) st)
    as [off|e|e] eqn:E; [|discriminate..].
  intros [= <-] c ->%list_elem_of_singleton. exact E.
Qed.

Lemma examine_genuine partition targetOffset acc cs :
  readTargetOffset st topic_ snapshotName partition = Done targetOffset ->
  (forall c, c ∈ cs ->
     _readOffset topic_ partition consumers (Some (fst c)) st
     = Done (snd c)) ->
  (forall ci, acc = Some ci -> genuine st topic_ maxLag snapshotName ci) ->
  forall ci,
    foldl (examine topic_ maxLag snapshotName partition targetOffset)
          acc cs = Some ci ->
    genuine st topic_ maxLag snapshotName ci.
Proof.
  intros Ht. revert acc. induction cs as [|c cs IH]; intros acc Hcs Hacc.
  - exact Hacc.
  - cbn [foldl]. apply IH.
    + intros c' Hc'. apply Hcs. right. exact Hc'.
    + intros ci. unfold examine.
      destruct ((maxLag <? _) && bool_decide (acc = None)) eqn:E;
        [|apply Hacc].
      apply andb_true_iff in E as [E _]. apply Z.ltb_lt in E.
      intros [= <-]. exists targetOffset. cbn.
      split_and!; try reflexivity.
      * apply Hcs. left.
      * exact Ht.
      * destruct (Z.ltb_spec (targetOffset - c.2) 0); lia.
      * exact E.
Qed.

Lemma checkPartition_genuine partition acc o acc' :
  checkPartition st topic_ groupId maxLag snapshotName partition acc
    = (o, acc') ->
  (forall ci, acc = Some ci -> genuine st topic_ maxLag snapshotName ci) ->
  forall ci, acc' = Some ci -> genuine st topic_ maxLag snapshotName ci.
Proof.
  unfold checkPartition.
  destruct (readConsumerOffsets st topic_ groupId partition)
    as [cs|e|e] eqn:Ec; [|intros [= _ <-]; auto..].
  destruct (readTargetOffset st topic_ snapshotName partition)
    as [t|e|e] eqn:Et; [|intros [= _ <-]; auto..].
  intros H Hacc ci Hci.
  apply (examine_genuine partition t acc cs Et
           (readConsumerOffsets_sound _ _ Ec) Hacc).
  destruct (foldl _ acc cs); injection H as _ <-; exact Hci.
Qed.

Lemma checkPartitions_genuine partitions acc o acc' :
  eachSeries (checkPartition st topic_ groupId maxLag snapshotName)
    partitions acc = (o, acc') ->
  (forall ci, acc = Some ci -> genuine st topic_ maxLag snapshotName ci) ->
  forall ci, acc' = Some ci -> genuine st topic_ maxLag snapshotName ci.
Proof.
  revert acc. induction partitions as [|p ps IH]; intros acc;
    cbn [eachSeries].
  - intros [= _ <-]. auto.
  - unfold bind.
    destruct (checkPartition st topic_ groupId maxLag snapshotName p acc)
      as [[[]|e|e] acc1] eqn:E; intros H Hacc;
      pose proof (checkPartition_genuine _ _ _ _ E Hacc) as H1.
    + eapply IH; eauto.
    + injection H as _ <-. exact H1.
    + injection H as _ <-. exact H1.
Qed.

(** X18. Whatever the store holds, a [checkInfo] that
    [checkConsumerLag] or [checkConsumerProgress] reports is genuine:
    the consumer offset and the target offset (the topic offset, or
    the snapshot offset when a snapshot is named) that it was computed
    from are the ones stored for its group and partition, its lag is
    their difference clamped below at zero, and that lag exceeds
    [maxLag].  The check never reports a partition that is within
    bounds. *)
Theorem reported_lag_is_genuine ci :
  _checkConsumerOffsetsGeneric st topic_ groupId maxLag snapshotName
    = Done (Some ci) ->
  exists targetOffset,
    _readOffset topic_ (ci_partition ci) consumers
      (Some (ci_groupId ci)) st = Done (ci_consumerOffset ci)
    /\ readTargetOffset st topic_ snapshotName (ci_partition ci)
       = Done targetOffset
    /\ ci_lag ci = Z.max 0 (targetOffset - ci_consumerOffset ci)
    /\ maxLag < ci_lag ci
    /\ ci_topic ci = topic_
    /\ ci_maxLag ci = maxLag.
Proof.
  unfold _checkConsumerOffsetsGeneric.
  destruct (getPartitions topic_ st) as [ps|e|e];
    [|destruct (bool_decide (e = NO_NODE)); discriminate|discriminate].
  destruct (eachSeries _ ps None) as [[[]|e|e] acc] eqn:E;
    [discriminate| |discriminate].
  destruct (bool_decide (e = CheckConditionError));
    [|destruct (bool_decide (e = NoNodeError)); discriminate].
  intros [= ->].
  apply (checkPartitions_genuine ps None _ _ E); [discriminate|reflexivity].
Qed.

End Check.

(** *** Progress against a snapshot *)

Section Progress.
Variable st : Store.
Variable topic_ : string.
Variable groupId : option string.
Variable snapshotName : option string.
Hypothesis named : Js.truthy snapshotName = true.

Lemma examine_stays p t ci cs :
  foldl (examine topic_ 0 snapshotName p t) (Some ci) cs = Some ci.
Proof.
  induction cs as [|c cs IH]; [reflexivity|]. cbn [foldl].
  unfold examine at 2. cbn [bool_decide decide_rel].
  rewrite andb_false_r. exact IH.
Qed.

Lemma examine_first_behind p t cs :
  foldl (examine topic_ 0 snapshotName p t) None cs
  = progressInfo topic_ snapshotName <$> firstLagging 0 (rowsOf p (cs, t)).
Proof.
  induction cs as [|c cs IH]; [reflexivity|]. cbn [foldl].
  unfold firstLagging, rowsOf. cbn [fst snd fmap list_fmap List.find].
  unfold examine at 2. rewrite named.
  cbn [bool_decide decide_rel andb].
  unfold lagOf at 1. cbn [r_topicOffset r_consumerOffset].
  assert ((if t - c.2 <? 0 then 0 else t - c.2) = Z.max 0 (t - c.2)) as ->.
  { destruct (Z.ltb_spec (t - c.2) 0); lia. }
  rewrite andb_true_r.
  destruct (0 <? Z.max 0 (t - c.2)) eqn:E.
  - rewrite examine_stays. reflexivity.
  - exact IH.
Qed.

Lemma checkPartitions_against_snapshot partitions reads :
  Forall2 (fun p rd =>
             readConsumerOffsets st topic_ groupId p = Done rd.1
             /\ readTargetOffset st topic_ snapshotName p = Done rd.2)
          partitions reads ->
  eachSeries (checkPartition st topic_ groupId 0 snapshotName)
    partitions None
  = match firstLagging 0
            (flat_map (fun pr => rowsOf pr.1 pr.2) (zip partitions reads)) with
    | Some r => (Failed CheckConditionError,
                 Some (progressInfo topic_ snapshotName r))
    | None => (Done tt, None)
    end.
Proof.
  induction 1 as [|p [cs t] partitions reads [Hc Ht] _ IH];
    [reflexivity|].
  cbn [eachSeries zip zip_with flat_map fst snd]. unfold bind.
  unfold checkPartition at 1. cbn [fst snd] in Hc, Ht.
  rewrite Hc, Ht, examine_first_behind.
  unfold firstLagging in *. rewrite BacklogFacts.find_app_split.
  destruct (List.find _ (rowsOf p (cs, t))); [reflexivity|exact IH].
Qed.

(** X19. When every published partition of the topic has its consumer
    offset (or offsets) and its snapshot offset readable,
    [checkConsumerProgress] succeeds exactly when every consumer
    offset has reached the snapshot offset of its partition;
    otherwise it reports the first row, in partition order, that is
    behind, with the snapshot name and the snapshot offset and without
    a topic offset.  (In a row the target offset is the snapshot
    offset.) *)
Theorem checkConsumerProgress_first_behind partitions reads :
  getPartitions topic_ st = Done partitions ->
  Forall2 (fun p rd =>
             readConsumerOffsets st topic_ groupId p = Done rd.1
             /\ readTargetOffset st topic_ snapshotName p = Done rd.2)
          partitions reads ->
  checkConsumerProgress st topic_ groupId snapshotName
  = Done (progressInfo topic_ snapshotName
            <$> firstLagging 0
                  (flat_map (fun pr => rowsOf pr.1 pr.2)
                            (zip partitions reads)))
  /\ (checkConsumerProgress st topic_ groupId snapshotName = Done None <->
      forall r,
        r ∈ flat_map (fun pr => rowsOf pr.1 pr.2) (zip partitions reads) ->
        r_topicOffset r <= r_consumerOffset r).
Proof.
  intros Hp Hreads.
  set (rows := flat_map (fun pr => rowsOf pr.1 pr.2) (zip partitions reads)).
  assert (checkConsumerProgress st topic_ groupId snapshotName
          = Done (progressInfo topic_ snapshotName
                    <$> firstLagging 0 rows)) as Heq.
  { unfold checkConsumerProgress, _checkConsumerOffsetsGeneric.
    rewrite Hp, (checkPartitions_against_snapshot partitions reads Hreads).
    fold rows. destruct (firstLagging 0 rows); reflexivity. }
  split; [exact Heq|].
  rewrite Heq. unfold firstLagging.
  destruct (List.find _ rows) as [r|] eqn:E; cbn.
  - split; [discriminate|]. intros H.
    apply BacklogFacts.find_first in E as (pre & post & Hrows & Hr & _).
    apply Z.ltb_lt in Hr. unfold lagOf in Hr.
    specialize (H r). rewrite Hrows in H.
    specialize (H ltac:(apply elem_of_app; right; apply list_elem_of_here)).
    lia.
  - split; [|reflexivity]. intros _ r Hr.
    pose proof (proj1 (BacklogFacts.find_none _ rows) E r Hr) as E'.
    apply Z.ltb_ge in E'. unfold lagOf in E'. lia.
Qed.

End Progress.

(** *** A snapshot that was never taken *)

Section NoSnapshot.
Variable st : Store.
Variable topic_ : string.
Variable groupId : option string.
Variable snapshotName : option string.
Hypothesis answers : available st = true.
Hypothesis integers : wellFormed st.

Lemma readOffset_wellFormed partition ty label :
  (exists n, _readOffset topic_ partition ty label st = Done n)
  \/ _readOffset topic_ partition ty label st = Failed NoNodeError.
Proof.
  unfold _readOffset, getData. rewrite answers.
  destruct (lookupNode _ (nodes st)) as [d|] eqn:E; [|right; reflexivity].
  destruct (integers _ _ E) as [n ->]. left. eauto.
Qed.

Lemma mapOutcomes_wellFormed partition ty labels :
  (exists cs,
     mapOutcomes (fun label =>
       match _readOffset topic_ partition ty (Some label) st with
       | Done offset => Done (label, offset)
       | Failed e => Failed e
       | Thrown e => Thrown e
       end) labels = Done cs)
  \/ mapOutcomes (fun label =>
       match _readOffset topic_ partition ty (Some label) st with
       | Done offset => Done (label, offset)
       | Failed e => Failed e
       | Thrown e => Thrown e
       end) labels = Failed NoNodeError.
Proof.
  induction labels as [|l labels IH]; cbn [mapOutcomes]; [left; eauto|].
  destruct (readOffset_wellFormed partition ty (Some l)) as [[n ->]| ->];
    [|right; reflexivity].
  destruct IH as [[cs ->]| ->]; [left; eauto|right; reflexivity].
Qed.

Lemma readConsumerOffsets_wellFormed partition :
  (exists cs, readConsumerOffsets st topic_ groupId partition = Done cs)
  \/ readConsumerOffsets st topic_ groupId partition = Failed NoNodeError.
Proof.
  unfold readConsumerOffsets. destruct (Js.truthy groupId).
  - destruct (readOffset_wellFormed partition consumers groupId)
      as [[n ->]| ->]; [left; eauto|right; reflexivity].
  - unfold _readAllOffsets, getLabels. rewrite answers.
    destruct (labelsOf _ _ _ _) as [|l labels]; [left; eauto|].
    apply mapOutcomes_wellFormed.
Qed.

(** X20. A progress check against a snapshot that was never taken
    succeeds: when the Coordinator answers, its nodes hold integers
    and no partition of the topic has a node for the named snapshot,
    [checkConsumerProgress] reports success, wherever the consumers
    stand. *)
Theorem progress_check_without_snapshot :
  Js.truthy snapshotName = true ->
  (forall partition,
     lookupNode (_getOffsetZkPath topic_ partition snapshots snapshotName)
                (nodes st) = None) ->
  checkConsumerProgress st topic_ groupId snapshotName = Done None.
Proof.
  intros Hname Hnone.
  unfold checkConsumerProgress, _checkConsumerOffsetsGeneric, getPartitions.
  rewrite answers.
  destruct (partitionsOf _ _) as [|p0 ps0]; [reflexivity|].
  destruct (partitionOrder st _) as [|p ps]; [reflexivity|].
  assert (checkPartition st topic_ groupId 0 snapshotName p None
          = (Failed NoNodeError, None)) as Hfirst.
  { unfold checkPartition.
    destruct (readConsumerOffsets_wellFormed p) as [[cs ->]| ->];
      [|reflexivity].
    unfold readTargetOffset. rewrite Hname.
    unfold _readOffset, getData. rewrite answers, Hnone. reflexivity. }
  cbn [eachSeries]. unfold bind. rewrite Hfirst. reflexivity.
Qed.

End NoSnapshot.

(** *** The theorems at concrete stores *)

Lemma wellFormed_Forall st :
  Forall (fun node => exists n, snd node = Offset n) (nodes st) ->
  wellFormed st.
Proof.
  intros H path d. induction H as [|[p d'] l [n Hn] _ IH];
    cbn [lookupNode]; [discriminate|].
  destruct (decide (p = path)); [|exact IH].
  intros [= <-]. exists n. exact Hn.
Qed.

Lemma lookupNode_Forall (P : ZkPath -> Prop) path l :
  Forall (fun node => ~ P (fst node)) l -> P path -> lookupNode path l = None.
Proof.
  intros H HP. induction H as [|[p d] l Hp _ IH]; cbn [lookupNode];
    [reflexivity|].
  destruct (decide (p = path)) as [->|_]; [contradiction|exact IH].
Qed.

Import Scenario MoreScenarios.

(** The lag that [checkConsumerLag] reports for group "G". *)
Lemma reported_lag_is_genuine_witness :
  exists targetOffset,
    _readOffset "T" 0 consumers (Some "G") publishedStore = Done 90
    /\ readTargetOffset publishedStore "T" None 0 = Done targetOffset
    /\ 10 = Z.max 0 (targetOffset - 90)
    /\ 5 < 10
    /\ "T" = "T"
    /\ 5 = 5.
Proof.
  apply (reported_lag_is_genuine publishedStore "T" (Some "G") 5 None
           {| ci_topic := "T"; ci_partition := 0; ci_groupId := "G";
              ci_consumerOffset := 90; ci_lag := 10; ci_maxLag := 5;
              ci_snapshotName := None; ci_snapshotOffset := None;
              ci_topicOffset := Some 100 |}).
  vm_compute. reflexivity.
Defined.

(** Group "G" against snapshot "S": behind on partition 0. *)
Lemma checkConsumerProgress_first_behind_witness :
  checkConsumerProgress snapshotStore "T" (Some "G") (Some "S")
  = Done (progressInfo "T" (Some "S")
            <$> firstLagging 0
                  (flat_map (fun pr => rowsOf pr.1 pr.2)
                     (zip [0; 1]
                          [([("G", 90)], 100); ([("G", 195)], 200)])))
  /\ (checkConsumerProgress snapshotStore "T" (Some "G") (Some "S")
      = Done None <->
      forall r,
        r ∈ flat_map (fun pr => rowsOf pr.1 pr.2)
              (zip [0; 1] [([("G", 90)], 100); ([("G", 195)], 200)]) ->
        r_topicOffset r <= r_consumerOffset r).
Proof.
  apply (checkConsumerProgress_first_behind snapshotStore "T" (Some "G")
           (Some "S") eq_refl [0; 1]
           [([("G", 90)], 100); ([("G", 195)], 200)]).
  - vm_compute. reflexivity.
  - repeat constructor.
Defined.

(** Group "G" against a snapshot "never" that does not exist. *)
Lemma progress_check_without_snapshot_witness :
  checkConsumerProgress publishedStore "T" (Some "G") (Some "never")
  = Done None.
Proof.
  apply (progress_check_without_snapshot publishedStore "T" (Some "G")
           (Some "never")).
  - reflexivity.
  - apply wellFormed_Forall. vm_compute.
    repeat constructor; eexists; reflexivity.
  - reflexivity.
  - intros partition.
    apply (lookupNode_Forall (fun p => z_type p = snapshots));
      [|reflexivity].
    vm_compute. repeat constructor; discriminate.
Defined.

End CheckFacts.

(** ** Publishing, then checking *)

Module BacklogRoundTrip.
Import Backlog BacklogSpec OffsetFacts.

(** *** The children of the topic after a run of writes *)

Lemma keys_setNode path d l :
  fst <$> setNode path d l
  = if decide (path ∈ fst <$> l) then fst <$> l else (fst <$> l) ++ [path].
Proof.
  induction l as [|[p d'] l IH]; cbn [setNode fmap list_fmap fst].
  - rewrite decide_False by (intros H; inversion H). reflexivity.
  - destruct (decide (p = path)) as [->|Hne]; cbn [fmap list_fmap fst].
    + rewrite decide_True by left. reflexivity.
    + fold (fmap (M:=list) (@fst ZkPath NodeData)) in *. rewrite IH.
      destruct (decide (path ∈ fst <$> l)) as [Hin|Hout].
      * rewrite decide_True by (right; exact Hin). reflexivity.
      * rewrite decide_False; [reflexivity|].
        intros [?|?]%elem_of_cons; congruence.
Qed.

(** A permutation of the images of a list is the image of a permutation
    of the list. *)
Lemma Permutation_fmap_preimage {A B} (f : A -> B) l1 l2 :
  l1 ≡ₚ l2 ->
  forall l, f <$> l = l1 -> exists k, k ≡ₚ l /\ f <$> k = l2.
Proof.
  induction 1 as [|x l1 l2 _ IH|x y l1|l1 l2 l3 _ IH1 _ IH2]; intros l Hl.
  - exists l. split; [reflexivity|exact Hl].
  - destruct l as [|a l]; [discriminate|].
    cbn [fmap list_fmap] in Hl. injection Hl as <- Hl.
    destruct (IH l Hl) as (k & Hk & E). exists (a :: k).
    split; [constructor; exact Hk|].
    cbn [fmap list_fmap]. f_equal. exact E.
  - destruct l as [|b [|a l]]; [discriminate..|].
    cbn [fmap list_fmap] in Hl. injection Hl as <- <- <-.
    exists (a :: b :: l). split; [apply perm_swap|reflexivity].
  - destruct (IH1 l Hl) as (k1 & Hk1 & E1).
    destruct (IH2 k1 E1) as (k2 & Hk2 & E2).
    exists k2. split; [etransitivity; eassumption|exact E2].
Qed.

(** Publishing leaves the order in which the Coordinator lists the
    partitions as it is. *)
Lemma publishPartition_keeps_order consumer topic_ groupId p :
  keeps partitionOrder (publishPartition consumer topic_ groupId p).
Proof.
  intros s o s'.
  unfold publishPartition, _getLatestTopicOffset, asyncEach, bind, ret, fail.
  destruct (highOffset consumer topic_ (tp_partition p));
    [|intros [= _ <-]; reflexivity].
  cbn [asyncMap]. unfold _publishOffset, setOrCreate.
  destruct (available s) eqn:E; cbn; rewrite ?E; cbn;
    intros [= _ <-]; reflexivity.
Qed.

Lemma publishConsumerBacklog_keeps_order consumer topic_ groupId :
  keeps partitionOrder (publishConsumerBacklog consumer topic_ groupId).
Proof.
  unfold publishConsumerBacklog.
  destruct (position consumer); [|apply keeps_ret].
  apply keeps_asyncEachLimit. intros p.
  apply publishPartition_keeps_order.
Qed.

Section Topic.
Variable topic_ : string.

Lemma topicKeys_setNode_new path d l :
  z_topic path = topic_ ->
  path ∉ topicKeys topic_ l ->
  topicKeys topic_ (setNode path d l) = topicKeys topic_ l ++ [path].
Proof.
  intros Ht Hout. unfold topicKeys in *. rewrite keys_setNode.
  rewrite decide_False.
  - rewrite filter_app, filter_cons_True by exact Ht. reflexivity.
  - intros Hin. apply Hout. apply list_elem_of_filter. auto.
Qed.

Variable consumer : Consumer.
Variable groupId : option string.

Lemma partitionWrites_readable p :
  is_Some (highOffset consumer topic_ (tp_partition p)) ->
  partitionWrites consumer topic_ groupId p
  = [ (consumerPath topic_ groupId p, default 0 (tp_offset p));
      (topicPath topic_ p,
       default 0 (highOffset consumer topic_ (tp_partition p))) ].
Proof.
  intros [hw H]. unfold partitionWrites. rewrite H. reflexivity.
Qed.

Lemma topicKeys_published l n :
  NoDup (tp_partition <$> l) ->
  (forall p k, p ∈ l -> k ∈ topicKeys topic_ n ->
               z_partition k <> tp_partition p) ->
  (forall p, p ∈ l -> is_Some (highOffset consumer topic_ (tp_partition p))) ->
  topicKeys topic_ (applyWrites n
               (flat_map (partitionWrites consumer topic_ groupId) l))
  = topicKeys topic_ n
    ++ flat_map (fun p => [consumerPath topic_ groupId p;
                           topicPath topic_ p]) l.
Proof.
  revert n. induction l as [|p l IH]; intros n Hnd Hnew Hhw.
  - cbn. rewrite app_nil_r. reflexivity.
  - cbn [flat_map fmap list_fmap] in *.
    apply NoDup_cons in Hnd as [Hp Hnd].
    rewrite partitionWrites_readable by (apply Hhw; left).
    rewrite applyWrites_app.
    set (n1 := setNode (consumerPath topic_ groupId p)
                 (Offset (default 0 (tp_offset p))) n).
    set (n2 := setNode (topicPath topic_ p)
                 (Offset (default 0
                    (highOffset consumer topic_ (tp_partition p)))) n1).
    change (applyWrites n [_; _]) with n2.
    assert (topicKeys topic_ n1
            = topicKeys topic_ n ++ [consumerPath topic_ groupId p]) as H1.
    { apply topicKeys_setNode_new; [reflexivity|].
      intros Hin. eapply (Hnew p); [left|exact Hin|reflexivity]. }
    assert (topicKeys topic_ n2
            = topicKeys topic_ n
              ++ [consumerPath topic_ groupId p; topicPath topic_ p])
      as H2.
    { subst n2. rewrite topicKeys_setNode_new; [| reflexivity |].
      - rewrite H1, <- app_assoc. reflexivity.
      - rewrite H1. intros [Hin|Hin]%elem_of_app.
        + eapply (Hnew p); [left|exact Hin|reflexivity].
        + apply list_elem_of_singleton in Hin. discriminate. }
    rewrite IH; [rewrite H2, <- app_assoc; reflexivity|exact Hnd| |].
    + intros q k Hq Hk. rewrite H2 in Hk.
      apply elem_of_app in Hk as [Hk|Hk].
      * apply (Hnew q k); [right; exact Hq|exact Hk].
      * assert (z_partition k = tp_partition p) as ->.
        { apply elem_of_cons in Hk as [->|Hk]; [reflexivity|].
          apply list_elem_of_singleton in Hk as ->. reflexivity. }
        intros E. apply Hp. rewrite E.
        apply list_elem_of_fmap. eauto.
    + intros q Hq. apply Hhw. right. exact Hq.
Qed.

Lemma remove_dups_step (x : Z) l :
  remove_dups (x :: l)
  = if decide (x ∈ l) then remove_dups l else x :: remove_dups l.
Proof. reflexivity. Qed.

Lemma remove_dups_pairs (ps : list Z) :
  NoDup ps -> remove_dups (flat_map (fun p => [p; p]) ps) = ps.
Proof.
  induction 1 as [|p ps Hp Hnd IH]; [reflexivity|].
  cbn [flat_map app]. rewrite !remove_dups_step.
  rewrite decide_True by left.
  rewrite decide_False; [rewrite IH; reflexivity|].
  intros Hin. apply Hp.
  apply list_elem_of_In, in_flat_map in Hin as (q & Hq & Hin).
  apply list_elem_of_In in Hq.
  destruct Hin as [->|[->|[]]]; exact Hq.
Qed.

Lemma partitions_of_pairs (l : list TopicPartition) :
  z_partition
    <$> flat_map (fun p => [consumerPath topic_ groupId p;
                            topicPath topic_ p]) l
  = flat_map (fun p => [p; p]) (tp_partition <$> l).
Proof.
  induction l as [|p l IH]; [reflexivity|].
  cbn [flat_map fmap list_fmap app]. cbn [fmap list_fmap] in IH.
  rewrite <- IH. reflexivity.
Qed.

(** *** What the published nodes hold *)

Lemma NoDup_fmap_eq {A B} (f : A -> B) l x y :
  NoDup (f <$> l) -> x ∈ l -> y ∈ l -> f x = f y -> x = y.
Proof.
  induction l as [|a l IH]; intros Hnd Hx Hy E; [inversion Hx|].
  cbn [fmap list_fmap] in Hnd. apply NoDup_cons in Hnd as [Ha Hnd].
  apply elem_of_cons in Hx as [->|Hx];
    apply elem_of_cons in Hy as [->|Hy].
  - reflexivity.
  - exfalso. apply Ha. rewrite E. apply list_elem_of_fmap. eauto.
  - exfalso. apply Ha. rewrite <- E. apply list_elem_of_fmap. eauto.
  - apply IH; assumption.
Qed.

Lemma published_nodes_hold l n p :
  NoDup (tp_partition <$> l) ->
  (forall q, q ∈ l -> is_Some (highOffset consumer topic_ (tp_partition q))) ->
  p ∈ l ->
  lookupNode (consumerPath topic_ groupId p)
    (applyWrites n (flat_map (partitionWrites consumer topic_ groupId) l))
  = Some (Offset (default 0 (tp_offset p)))
  /\ lookupNode (topicPath topic_ p)
       (applyWrites n (flat_map (partitionWrites consumer topic_ groupId) l))
     = Some (Offset (default 0
               (highOffset consumer topic_ (tp_partition p)))).
Proof.
  intros Hnd Hhw Hp.
  assert (forall path v,
            (path, v) ∈ flat_map (partitionWrites consumer topic_ groupId) l ->
            exists q, q ∈ l
              /\ ((path, v)
                  = (consumerPath topic_ groupId q, default 0 (tp_offset q))
                  \/ (path, v)
                     = (topicPath topic_ q,
                        default 0 (highOffset consumer topic_
                                     (tp_partition q))))) as Hin.
  { intros path v H.
    apply list_elem_of_In, in_flat_map in H as (q & Hq & H).
    apply list_elem_of_In in Hq. exists q. split; [exact Hq|].
    rewrite partitionWrites_readable in H by (apply Hhw, Hq).
    destruct H as [<-|[<-|[]]]; auto. }
  assert (forall q, q ∈ l ->
            forall w, w ∈ partitionWrites consumer topic_ groupId q ->
            w ∈ flat_map (partitionWrites consumer topic_ groupId) l)
    as Hmem.
  { intros q Hq w Hw. apply list_elem_of_In, in_flat_map.
    exists q. split; apply list_elem_of_In; assumption. }
  split.
  - apply lookupNode_applyWrites.
    + apply (Hmem p Hp). rewrite partitionWrites_readable by (apply Hhw, Hp).
      left.
    + intros v' H. destruct (Hin _ _ H) as (q & Hq & [E|E]).
      * injection E as E ->.
        assert (q = p) as ->; [|reflexivity].
        apply (NoDup_fmap_eq tp_partition l q p Hnd Hq Hp).
        unfold consumerPath, _getOffsetZkPath in *. congruence.
      * unfold consumerPath, topicPath, _getOffsetZkPath in E.
        discriminate.
  - apply lookupNode_applyWrites.
    + apply (Hmem p Hp). rewrite partitionWrites_readable by (apply Hhw, Hp).
      right. left.
    + intros v' H. destruct (Hin _ _ H) as (q & Hq & [E|E]).
      * unfold consumerPath, topicPath, _getOffsetZkPath in E.
        discriminate.
      * injection E as E ->.
        assert (tp_partition q = tp_partition p) as ->; [|reflexivity].
        unfold topicPath, _getOffsetZkPath in *. congruence.
Qed.

(** When the Coordinator answers and every high watermark can be
    read, the publication succeeds and every assigned partition has
    been written. *)
Lemma publishConsumerBacklog_all st positions :
  available st = true ->
  position consumer = Some positions ->
  Forall (fun p => is_Some (highOffset consumer topic_ (tp_partition p)))
         (filter (fun p => tp_topic p = topic_ ∧ is_Some (tp_offset p))
                 positions) ->
  fst (publishConsumerBacklog consumer topic_ groupId st) = Done tt
  /\ available (snd (publishConsumerBacklog consumer topic_ groupId st))
     = true
  /\ partitionOrder (snd (publishConsumerBacklog consumer topic_ groupId st))
     = partitionOrder st
  /\ nodes (snd (publishConsumerBacklog consumer topic_ groupId st))
     = applyWrites (nodes st)
         (flat_map (partitionWrites consumer topic_ groupId)
            (filter (fun p => tp_topic p = topic_ ∧ is_Some (tp_offset p))
                    positions)).
Proof.
  intros Hav Hpos Hhw.
  destruct (BacklogFacts.publishConsumerBacklog_trace consumer topic_
              groupId st positions Hav Hpos) as (Hav' & Hdone & Hw).
  rewrite (BacklogFacts.startedFrom_all _ _ _ _ Hhw) in Hdone, Hw.
  destruct (publishConsumerBacklog_writesOnly consumer topic_ groupId st)
    as (ws & W & N & _ & _).
  rewrite W in Hw. apply app_inv_head in Hw. subst ws.
  split_and!; [exact (Hdone Hhw)|exact Hav'| |exact N].
  eapply (publishConsumerBacklog_keeps_order consumer topic_ groupId).
  apply surjective_pairing.
Qed.

Lemma rows_of_positions l :
  flat_map (fun pr => rowsOf pr.1 pr.2)
    (zip (tp_partition <$> l)
         ((fun p => ([(default "" groupId, default 0 (tp_offset p))],
                     default 0 (highOffset consumer topic_
                                  (tp_partition p)))) <$> l))
  = rowOfPosition consumer topic_ groupId <$> l.
Proof.
  induction l as [|p l IH]; [reflexivity|].
  cbn [fmap list_fmap zip zip_with flat_map fst snd] in *.
  rewrite IH. reflexivity.
Qed.

(** X21. Publishing, then checking.  Conditions: the Coordinator
    answers and lists the children of a node in an order of its own,
    a permutation of them; the topic has no node yet; the group id is
    not empty; the consumer holds its positions on distinct
    partitions of the topic; and the high watermark of each can be
    read.  Then the publication succeeds, and a lag check for that
    group right after it answers from the positions and watermarks
    just published, going through the assigned partitions in the
    order in which the Coordinator lists them: it reports the first
    partition in that order whose lag [max(0, watermark - position)]
    exceeds [maxLag], and success exactly when no assigned partition
    has such a lag. *)
Theorem publish_then_checkConsumerLag st positions maxLag :
  available st = true ->
  (forall l, partitionOrder st l ≡ₚ l) ->
  Forall (fun node => z_topic (fst node) <> topic_) (nodes st) ->
  Js.truthy groupId = true ->
  position consumer = Some positions ->
  NoDup (tp_partition
           <$> filter (fun p => tp_topic p = topic_ ∧ is_Some (tp_offset p))
                      positions) ->
  (forall p,
     p ∈ filter (fun p => tp_topic p = topic_ ∧ is_Some (tp_offset p))
                positions ->
     is_Some (highOffset consumer topic_ (tp_partition p))) ->
  let assigned :=
    filter (fun p => tp_topic p = topic_ ∧ is_Some (tp_offset p))
           positions in
  let st' := snd (publishConsumerBacklog consumer topic_ groupId st) in
  fst (publishConsumerBacklog consumer topic_ groupId st) = Done tt
  /\ (exists listed,
        listed ≡ₚ assigned
        /\ tp_partition <$> listed
           = partitionOrder st (tp_partition <$> assigned)
        /\ checkConsumerLag st' topic_ groupId maxLag
           = Done (infoOf topic_ maxLag
                     <$> firstLagging maxLag
                           (rowOfPosition consumer topic_ groupId
                              <$> listed)))
  /\ (checkConsumerLag st' topic_ groupId maxLag = Done None <->
      forall p, p ∈ assigned ->
                lagOf (rowOfPosition consumer topic_ groupId p) <= maxLag).
Proof.
  intros Hav Hperm Hfresh Hg Hpos Hnd Hhw assigned st'.
  fold assigned in Hnd, Hhw.
  destruct (publishConsumerBacklog_all st positions Hav Hpos)
    as (Hdone & A & O & N).
  { apply Forall_forall. exact Hhw. }
  fold assigned in N. fold st' in A, O, N.
  split; [exact Hdone|].
  assert (topicKeys topic_ (nodes st) = []) as Hnone.
  { unfold topicKeys. clear -Hfresh.
    induction Hfresh as [|[p d] l Hp _ IH]; [reflexivity|].
    cbn [fmap list_fmap fst]. rewrite filter_cons_False by exact Hp.
    exact IH. }
  assert (topicKeys topic_ (nodes st')
          = flat_map (fun p => [consumerPath topic_ groupId p;
                                topicPath topic_ p]) assigned)
    as Hkeys.
  { rewrite N, topicKeys_published;
      [rewrite Hnone; reflexivity|exact Hnd| |exact Hhw].
    intros p k _ Hk. rewrite Hnone in Hk. inversion Hk. }
  assert (partitionsOf topic_ st' = tp_partition <$> assigned) as Hparts.
  { unfold partitionsOf. fold (topicKeys topic_ (nodes st')). rewrite Hkeys.
    rewrite partitions_of_pairs. apply remove_dups_pairs, Hnd. }
  destruct (Permutation_fmap_preimage tp_partition
              (tp_partition <$> assigned)
              (partitionOrder st (tp_partition <$> assigned))
              (symmetry (Hperm _)) assigned eq_refl)
    as (listed & Hlisted & Hnums).
  assert (Forall2 (fun p rd =>
            readConsumerOffsets st' topic_ groupId p = Done rd.1
            /\ readTargetOffset st' topic_ None p = Done rd.2)
          (tp_partition <$> listed)
          ((fun p => ([(default "" groupId, default 0 (tp_offset p))],
                      default 0 (highOffset consumer topic_
                                   (tp_partition p)))) <$> listed))
    as Hreads.
  { apply Forall2_fmap, Forall_Forall2_diag, Forall_forall.
    intros p Hp. cbn [fst snd]. rewrite Hlisted in Hp.
    destruct (published_nodes_hold assigned (nodes st) p Hnd Hhw Hp)
      as [Hc Ht].
    rewrite <- N in Hc, Ht.
    unfold readConsumerOffsets, readTargetOffset, _readOffset, getData.
    rewrite Hg, A. cbn [Js.truthy].
    fold (consumerPath topic_ groupId p). fold (topicPath topic_ p).
    rewrite Hc, Ht.
    split; reflexivity. }
  assert (checkConsumerLag st' topic_ groupId maxLag
          = Done (infoOf topic_ maxLag
                    <$> firstLagging maxLag
                          (rowOfPosition consumer topic_ groupId
                             <$> listed))) as Hcheck.
  { unfold checkConsumerLag, _checkConsumerOffsetsGeneric, getPartitions.
    rewrite A, Hparts, O.
    rewrite <- (rows_of_positions listed).
    destruct (tp_partition <$> assigned) as [|p0 ps] eqn:Eps.
    - destruct assigned; [|discriminate].
      apply Permutation_nil_r in Hlisted. subst listed. reflexivity.
    - cbv beta iota. rewrite <- Hnums.
      rewrite (BacklogFacts.checkPartitions_readable st' topic_ groupId
                 maxLag _ _ Hreads).
      destruct (firstLagging maxLag _); reflexivity. }
  split; [exists listed; auto|].
  rewrite Hcheck. unfold firstLagging.
  destruct (List.find _ (rowOfPosition consumer topic_ groupId <$> listed))
    as [r|] eqn:E; cbn.
  - split; [discriminate|]. intros H.
    apply BacklogFacts.find_first in E as (pre & post & Hrows & Hr & _).
    apply Z.ltb_lt in Hr.
    assert (r ∈ rowOfPosition consumer topic_ groupId <$> listed) as Hin
      by (rewrite Hrows; apply elem_of_app; right; apply list_elem_of_here).
    apply list_elem_of_fmap in Hin as (p & -> & Hp).
    rewrite Hlisted in Hp. specialize (H p Hp). lia.
  - split; [|reflexivity]. intros _ p Hp.
    rewrite <- Hlisted in Hp.
    pose proof (proj1 (BacklogFacts.find_none _ _) E
                  (rowOfPosition consumer topic_ groupId p)
                  ltac:(apply list_elem_of_fmap; eauto)) as E'.
    apply Z.ltb_ge in E'. exact E'.
Qed.

End Topic.

(** *** The theorem at a concrete store *)

Import Scenario MoreScenarios.

(** Group "G" publishes on an empty store and is checked with a
    maximum lag of 5: partition 0 lags by 10. *)
Lemma publish_then_checkConsumerLag_witness :
  let assigned :=
    filter (fun p => tp_topic p = "T" ∧ is_Some (tp_offset p)) positionsG in
  let st' := snd (publishConsumerBacklog consumerG "T" (Some "G") emptyStore) in
  fst (publishConsumerBacklog consumerG "T" (Some "G") emptyStore) = Done tt
  /\ (exists listed,
        listed ≡ₚ assigned
        /\ tp_partition <$> listed
           = partitionOrder emptyStore (tp_partition <$> assigned)
        /\ checkConsumerLag st' "T" (Some "G") 5
           = Done (infoOf "T" 5
                     <$> firstLagging 5
                           (rowOfPosition consumerG "T" (Some "G")
                              <$> listed)))
  /\ (checkConsumerLag st' "T" (Some "G") 5 = Done None <->
      forall p, p ∈ assigned ->
                lagOf (rowOfPosition consumerG "T" (Some "G") p) <= 5).
Proof.
  apply (publish_then_checkConsumerLag "T" consumerG (Some "G") emptyStore
           positionsG 5).
  - reflexivity.
  - intros l. reflexivity.
  - constructor.
  - reflexivity.
  - reflexivity.
  - vm_compute. apply NoDup_cons. split; [|apply NoDup_singleton].
    intros H. apply list_elem_of_singleton in H. discriminate.
  - intros p _. cbn. destruct (tp_partition p =? 0); eauto.
Defined.

End BacklogRoundTrip.
